(** * Hybrid search with Reciprocal Rank Fusion

    A shallow embedding of [hybridSearchWithRRF] and [vectorSearch] (the
    part of src/test-semantic-search-integration.ts headed "Semantic Search
    with Hybrid RRF"), of the Cypher statements they send, and of
    [parseObservations] (src/src/tools/memento-tools.ts).

    Modelling conventions.
    - JavaScript numbers that carry scores are exact rationals ([Q]) where a
      claim is about the value of a score ([1 / 0] is [0] in [Q]); where it
      is about the order of the fused list they are IEEE 754 doubles, with
      rounding, [Infinity] and [NaN] ([Double], [sortedResults64]).
    - [limit] and [rrfK] are integers ([Z]); fractional values are outside the
      model.
    - A [Map] is an association list in insertion order: [set] on a present key
      replaces the value in place, [set] on a new key appends.
    - [Array.prototype.sort] is stable; it is modelled by a stable insertion
      sort driven by the sign of the comparator.
    - [await neo4j.query] is a computation that records the statement it sends
      and either fails (a thrown [Error]) or returns rows.
    - [Date.now()] is read twice; the two readings are arguments. *)

From Stdlib Require Import List String Ascii Bool Arith NArith ZArith QArith Lia Lqa.
From Stdlib Require Import Sorted Permutation ZifyNat SpecFloat Qpower.
Import ListNotations.

#[local] Set Warnings "-register-all".

Local Open Scope string_scope.
Local Open Scope list_scope.

(** ** JavaScript values used by the search *)

Module Js.

(** [a || d] on an optional integer: [undefined] and [0] are falsy. *)
Definition or_default_Z (a : option Z) (d : Z) : Z :=
  match a with
  | Some v => if (v =? 0)%Z then d else v
  | None => d
  end.

(** [a || d] on an optional number. *)
Definition or_default_Q (a : option Q) (d : Q) : Q :=
  match a with
  | Some v => if Qeq_bool v 0 then d else v
  | None => d
  end.

(** [arr.slice(0, e)]: a negative end counts from the end of the array. *)
Definition slice0 {A : Type} (arr : list A) (e : Z) : list A :=
  if (e <? 0)%Z
  then firstn (Z.to_nat (Z.max 0 (Z.of_nat (List.length arr) + e))) arr
  else firstn (Z.to_nat e) arr.

(** [arr.forEach((record, index) => ...)] threading the state the callback
    mutates. *)
Fixpoint forEach {A St : Type} (f : A -> nat -> St -> St)
         (arr : list A) (index : nat) (s : St) : St :=
  match arr with
  | [] => s
  | record :: rest => forEach f rest (S index) (f record index s)
  end.

(** [Map<string, V>] in insertion order. *)
Definition Map (V : Type) : Type := list (string * V).

Fixpoint get {V : Type} (m : Map V) (key : string) : option V :=
  match m with
  | [] => None
  | (k, v) :: m' => if String.eqb k key then Some v else get m' key
  end.

Fixpoint set {V : Type} (m : Map V) (key : string) (v : V) : Map V :=
  match m with
  | [] => [(key, v)]
  | (k, v') :: m' =>
      if String.eqb k key then (k, v) :: m' else (k, v') :: set m' key v
  end.

Definition keys {V : Type} (m : Map V) : list string := map fst m.

(** [arr.sort(cmp)]: [positive a b] says [cmp(a, b) > 0], that is, [a] has
    to come after [b].  Stable. *)
Section Sort.
Context {A : Type} (positive : A -> A -> bool).

Fixpoint insert (x : A) (sorted : list A) : list A :=
  match sorted with
  | [] => [x]
  | y :: rest =>
      if positive x y then y :: insert x rest else x :: y :: rest
  end.

Fixpoint sort (arr : list A) : list A :=
  match arr with
  | [] => []
  | x :: rest => insert x (sort rest)
  end.
End Sort.

(** The values [JSON.parse] can return. *)
Inductive json : Type :=
| JNull
| JBool (b : bool)
| JNumber (q : Q)
| JString (s : string)
| JArray (items : list json)
| JObject (fields : list (string * json)).

End Js.

(** ** Rank fusion (Step 3 and Step 4 of [hybridSearchWithRRF]) *)

(** A row of the vector statement. *)
Record VectorRow : Type := mkVectorRow {
  v_id : string;
  v_entityType : string;
  vectorScore : Q
}.

(** A row of the keyword statement. *)
Record KeywordRow : Type := mkKeywordRow {
  k_id : string;
  k_entityType : string;
  bm25Score : Q
}.

(** A value of the [rrfScores] map. *)
Record RrfEntry : Type := mkRrfEntry {
  score : Q;
  entityType : string;
  e_vectorScore : option Q;
  e_bm25Score : option Q
}.

(** [1 / (rrfK + index + 1)] *)
Definition rrfScore (rrfK : Z) (index : nat) : Q :=
  (1 / inject_Z (rrfK + Z.of_nat index + 1))%Q.

(** The callback of [vectorResults.forEach]. *)
Definition addVectorResult (rrfK : Z) (record : VectorRow) (index : nat)
           (rrfScores : Js.Map RrfEntry) : Js.Map RrfEntry :=
  Js.set rrfScores (v_id record)
         {| score := rrfScore rrfK index;
            entityType := v_entityType record;
            e_vectorScore := Some (vectorScore record);
            e_bm25Score := None |}.

(** The callback of [keywordResults.forEach]. *)
Definition addKeywordResult (rrfK : Z) (record : KeywordRow) (index : nat)
           (rrfScores : Js.Map RrfEntry) : Js.Map RrfEntry :=
  match Js.get rrfScores (k_id record) with
  | Some existing =>
      Js.set rrfScores (k_id record)
             {| score := (score existing + rrfScore rrfK index)%Q;
                entityType := k_entityType record;
                e_vectorScore := e_vectorScore existing;
                e_bm25Score := Some (bm25Score record) |}
  | None =>
      Js.set rrfScores (k_id record)
             {| score := rrfScore rrfK index;
                entityType := k_entityType record;
                e_vectorScore := None;
                e_bm25Score := Some (bm25Score record) |}
  end.

(** The map after both loops. *)
Definition rrfScores (rrfK : Z) (vectorResults : list VectorRow)
           (keywordResults : list KeywordRow) : Js.Map RrfEntry :=
  Js.forEach (addKeywordResult rrfK) keywordResults 0%nat
             (Js.forEach (addVectorResult rrfK) vectorResults 0%nat []).

(** [(a, b) => b[1].score - a[1].score] is positive when [a] scores less. *)
Definition byScoreDesc (a b : string * RrfEntry) : bool :=
  match (score (snd a) ?= score (snd b))%Q with
  | Lt => true
  | _ => false
  end.

(** [Array.from(rrfScores.entries()).sort(...).slice(0, limit)] *)
Definition sortedResults (rrfK : Z) (limit : Z)
           (vectorResults : list VectorRow)
           (keywordResults : list KeywordRow) : list (string * RrfEntry) :=
  Js.slice0 (Js.sort byScoreDesc (rrfScores rrfK vectorResults keywordResults))
            limit.

(** The fused score of an identifier, if it is in the map. *)
Definition fusedScore (rrfK : Z) (vectorResults : list VectorRow)
           (keywordResults : list KeywordRow) (id : string) : option Q :=
  option_map score (Js.get (rrfScores rrfK vectorResults keywordResults) id).

(** Where an identifier is first met when the vector list is walked before
    the keyword list: its first index in the concatenated identifiers. *)
Fixpoint first_index (id : string) (ids : list string) : nat :=
  match ids with
  | [] => 0
  | x :: rest => if String.eqb x id then 0 else S (first_index id rest)
  end.

Definition firstSeen (vectorResults : list VectorRow)
           (keywordResults : list KeywordRow) (id : string) : nat :=
  first_index id (map v_id vectorResults ++ map k_id keywordResults).

(** The rank the vector loop leaves in the map for [id]: the loop overwrites,
    so it is the last position at which [id] occurs. *)
Fixpoint lastRank (vectorResults : list VectorRow) (index : nat) (id : string)
  : option nat :=
  match vectorResults with
  | [] => None
  | record :: rest =>
      match lastRank rest (S index) id with
      | Some j => Some j
      | None => if String.eqb (v_id record) id then Some index else None
      end
  end.

(** What the keyword loop adds for [id]: one positional score per
    occurrence. *)
Fixpoint keywordSum (rrfK : Z) (keywordResults : list KeywordRow)
         (index : nat) (id : string) : Q :=
  match keywordResults with
  | [] => 0
  | record :: rest =>
      (if String.eqb (k_id record) id then rrfScore rrfK index else 0)
      + keywordSum rrfK rest (S index) id
  end.

(** [id] is in the map with a score equal to [q]. *)
Definition scoreIs (m : Js.Map RrfEntry) (id : string) (q : Q) : Prop :=
  exists e, Js.get m id = Some e /\ score e == q.

(** How [Js.set] extends the key list: a key already present keeps its place,
    a new key goes last. *)
Definition add_key (ks : list string) (id : string) : list string :=
  if in_dec string_dec id ks then ks else ks ++ [id].

(** ** Scores as the code computes them: IEEE 754 double precision

    The scores above are exact rationals, which is what the claims about the
    value of a fused score need.  The order of Step 4 depends on more: the
    code adds and divides in double precision, [1 / 0] is [Infinity], and
    the comparator of the sort is the sign of a difference of doubles.  Step
    3 and Step 4 are therefore embedded a second time with doubles, taken
    from the standard library's specification of binary64 arithmetic
    ([SpecFloat], rounding to nearest, ties to even). *)

Module Double.

Definition prec : Z := 53.
Definition emax : Z := 1024.
Definition emin : Z := SpecFloat.emin prec emax.

Definition double : Type := spec_float.

(** The double of an integer: the nearest one when the integer is not a
    double itself. *)
Definition ofZ (n : Z) : double := binary_normalize prec emax n 0 false.

(** [x + y], [x - y] and [x / y] *)
Definition add (x y : double) : double := SFadd prec emax x y.
Definition sub (x y : double) : double := SFsub prec emax x y.
Definition div (x y : double) : double := SFdiv prec emax x y.

(** [x > 0]; false for [NaN]. *)
Definition gt0 (x : double) : bool := SFltb (S754_zero false) x.

Definition isNaN (x : double) : bool :=
  match x with
  | S754_nan => true
  | _ => false
  end.

(** The order of doubles by their values: [-Infinity] below the finite
    values, [Infinity] above them, finite values by the exact number
    [m * 2 ^ e] they stand for; [NaN] is not compared. *)
Definition cls (x : double) : Z :=
  match x with
  | S754_infinity true => -1
  | S754_infinity false => 1
  | _ => 0
  end.

Definition toQ (x : double) : Q :=
  match x with
  | S754_finite s m e => inject_Z (cond_Zopp s (Zpos m)) * (2 # 1) ^ e
  | _ => 0
  end.

Definition lt (x y : double) : Prop :=
  isNaN x = false /\ isNaN y = false
  /\ ((cls x < cls y)%Z \/ (cls x = cls y /\ toQ x < toQ y)).

Definition eq (x y : double) : Prop :=
  isNaN x = false /\ isNaN y = false /\ cls x = cls y /\ toQ x == toQ y.

(** The exponent of a finite double is at least [emin]. *)
Definition okExp (x : double) : Prop :=
  match x with
  | S754_finite _ _ e => (emin <= e)%Z
  | _ => True
  end.

(** Neither [NaN] nor negative. *)
Definition notNegative (x : double) : Prop :=
  match x with
  | S754_nan => False
  | S754_zero s | S754_infinity s | S754_finite s _ _ => s = false
  end.

End Double.

(** A value of the [rrfScores] map, with the score as a double. *)
Record RrfEntry64 : Type := mkRrfEntry64 {
  score64 : Double.double;
  entityType64 : string;
  e_vectorScore64 : option Q;
  e_bm25Score64 : option Q
}.

(** [1 / (rrfK + index + 1)] *)
Definition rrfScore64 (rrfK : Z) (index : nat) : Double.double :=
  Double.div (Double.ofZ 1)
             (Double.add (Double.add (Double.ofZ rrfK)
                                     (Double.ofZ (Z.of_nat index)))
                         (Double.ofZ 1)).

(** The callback of [vectorResults.forEach]. *)
Definition addVectorResult64 (rrfK : Z) (record : VectorRow) (index : nat)
           (rrfScores : Js.Map RrfEntry64) : Js.Map RrfEntry64 :=
  Js.set rrfScores (v_id record)
         {| score64 := rrfScore64 rrfK index;
            entityType64 := v_entityType record;
            e_vectorScore64 := Some (vectorScore record);
            e_bm25Score64 := None |}.

(** The callback of [keywordResults.forEach]. *)
Definition addKeywordResult64 (rrfK : Z) (record : KeywordRow) (index : nat)
           (rrfScores : Js.Map RrfEntry64) : Js.Map RrfEntry64 :=
  match Js.get rrfScores (k_id record) with
  | Some existing =>
      Js.set rrfScores (k_id record)
             {| score64 := Double.add (score64 existing)
                                      (rrfScore64 rrfK index);
                entityType64 := k_entityType record;
                e_vectorScore64 := e_vectorScore64 existing;
                e_bm25Score64 := Some (bm25Score record) |}
  | None =>
      Js.set rrfScores (k_id record)
             {| score64 := rrfScore64 rrfK index;
                entityType64 := k_entityType record;
                e_vectorScore64 := None;
                e_bm25Score64 := Some (bm25Score record) |}
  end.

(** The map after both loops. *)
Definition rrfScores64 (rrfK : Z) (vectorResults : list VectorRow)
           (keywordResults : list KeywordRow) : Js.Map RrfEntry64 :=
  Js.forEach (addKeywordResult64 rrfK) keywordResults 0%nat
             (Js.forEach (addVectorResult64 rrfK) vectorResults 0%nat []).

(** [(a, b) => b[1].score - a[1].score] is positive; a difference that is
    [NaN] is read by [sort] as 0. *)
Definition byScoreDesc64 (a b : string * RrfEntry64) : bool :=
  Double.gt0 (Double.sub (score64 (snd b)) (score64 (snd a))).

(** [Array.from(rrfScores.entries()).sort(...).slice(0, limit)] *)
Definition sortedResults64 (rrfK : Z) (limit : Z)
           (vectorResults : list VectorRow)
           (keywordResults : list KeywordRow) : list (string * RrfEntry64) :=
  Js.slice0 (Js.sort byScoreDesc64
                     (rrfScores64 rrfK vectorResults keywordResults))
            limit.

(** No score of the map is [NaN]: the comparator is then consistent, which
    is what [Array.prototype.sort] asks for to fix the order. *)
Definition allNumbers (rrfScores : Js.Map RrfEntry64) : bool :=
  forallb (fun entry => negb (Double.isNaN (score64 (snd entry)))) rrfScores.

(** [a] is ranked before [b]: a higher score, or an equal score and an
    earlier position [pos]. *)
Definition rankedBefore64 (pos : string * RrfEntry64 -> nat)
           (a b : string * RrfEntry64) : Prop :=
  Double.lt (score64 (snd b)) (score64 (snd a))
  \/ (Double.eq (score64 (snd a)) (score64 (snd b)) /\ (pos a < pos b)%nat).

(** ** The graph store behind [Neo4jHttpClient]

    The Cypher statements of the two searches are embedded as functions on a
    graph.  A property value is either a string or a list of strings: the
    keyword statement iterates [e.observations] as a list, the hydration code
    hands it to [JSON.parse] as a string. *)

Inductive Property : Type :=
| PString (s : string)
| PList (items : list string).

Record EntityNode : Type := mkEntityNode {
  node_name : string;
  node_entityType : string;
  node_observations : Property;
  node_id : string;
  node_version : Z;
  node_createdAt : Z;
  node_updatedAt : Z;
  node_validTo : option Z
}.

(** [(from:Entity)-[r:RELATES_TO]->(to:Entity)] *)
Record Relationship : Type := mkRelationship {
  rel_from : EntityNode;
  rel_to : EntityNode;
  rel_relationType : string;
  rel_validTo : option Z
}.

(** [nodes] and [relationships] are in the order in which [MATCH] visits
    them.  [queryNodes k embedding] is the procedure
    [db.index.vector.queryNodes('entity_embeddings', k, embedding)]: it is
    not part of this repository and may reject its arguments. *)
Record Graph : Type := mkGraph {
  nodes : list EntityNode;
  relationships : list Relationship;
  queryNodes : Z -> list Q -> option (list (EntityNode * Q))
}.

Module Cypher.

(** [s CONTAINS q]: case-sensitive substring test. *)
Fixpoint contains (s q : string) : bool :=
  String.prefix q s
  || match s with
     | EmptyString => false
     | String _ rest => contains rest q
     end.

(** [x IN $names] *)
Definition inNames (x : string) (names : list string) : bool :=
  existsb (String.eqb x) names.

(** [p IS NULL] *)
Definition isNull {A : Type} (p : option A) : bool :=
  match p with
  | None => true
  | Some _ => false
  end.

(** The list a comprehension iterates: a value that is not a list is
    taken as the list of that one value. *)
Definition asList (p : Property) : list string :=
  match p with
  | PString s => [s]
  | PList items => items
  end.

(** [ORDER BY key DESC] *)
Definition orderByDesc {A : Type} (key : A -> Q) (rows : list A) : list A :=
  Js.sort (fun a b => match (key a ?= key b)%Q with Lt => true | _ => false end)
          rows.

(** [LIMIT n], for [0 <= n]. *)
Definition limit {A : Type} (n : Z) (rows : list A) : list A :=
  firstn (Z.to_nat n) rows.

End Cypher.

(** The vector statement of [hybridSearchWithRRF]:
    [CALL db.index.vector.queryNodes('entity_embeddings', $limit, $embedding)
     YIELD node, score
     RETURN node.name AS id, node.entityType AS entityType, score AS vectorScore
     ORDER BY score DESC] *)
Definition vectorStatement (g : Graph) (limit : Z) (embedding : list Q)
  : option (list VectorRow) :=
  match queryNodes g limit embedding with
  | None => None
  | Some yielded =>
      Some (Cypher.orderByDesc vectorScore
              (map (fun y => {| v_id := node_name (fst y);
                                v_entityType := node_entityType (fst y);
                                vectorScore := snd y |}) yielded))
  end.

(** [e.name CONTAINS $queryText] *)
Definition nameMatches (queryText : string) (e : EntityNode) : bool :=
  Cypher.contains (node_name e) queryText.

(** [size([obs IN e.observations WHERE obs CONTAINS $queryText])] *)
Definition obsMatches (queryText : string) (e : EntityNode) : nat :=
  List.length (filter (fun obs => Cypher.contains obs queryText)
                      (Cypher.asList (node_observations e))).

(** [WHERE e.name CONTAINS $queryText
       OR ANY(obs IN e.observations WHERE obs CONTAINS $queryText)] *)
Definition keywordMatch (queryText : string) (e : EntityNode) : bool :=
  nameMatches queryText e
  || existsb (fun obs => Cypher.contains obs queryText)
             (Cypher.asList (node_observations e)).

(** [CASE WHEN e.name CONTAINS $queryText THEN 2.0 ELSE 1.0 END AS nameBoost] *)
Definition nameBoost (queryText : string) (e : EntityNode) : Q :=
  if nameMatches queryText e then 2 else 1.

(** [(nameBoost + (obsMatches * 0.5)) AS bm25Score] *)
Definition keywordScore (queryText : string) (e : EntityNode) : Q :=
  (nameBoost queryText e
   + inject_Z (Z.of_nat (obsMatches queryText e)) * (1 # 2))%Q.

(** The entities that pass both [WHERE] clauses: the lexical candidates. *)
Definition candidateNodes (g : Graph) (queryText : string) : list EntityNode :=
  filter (fun e => match (0 ?= keywordScore queryText e)%Q with
                   | Lt => true
                   | _ => false
                   end)
         (filter (keywordMatch queryText) (nodes g)).

(** [RETURN e.name AS id, e.entityType AS entityType, bm25Score] *)
Definition keywordRow (queryText : string) (e : EntityNode) : KeywordRow :=
  {| k_id := node_name e;
     k_entityType := node_entityType e;
     bm25Score := keywordScore queryText e |}.

(** The rows before [ORDER BY] and [LIMIT]. *)
Definition keywordCandidates (g : Graph) (queryText : string) : list KeywordRow :=
  map (keywordRow queryText) (candidateNodes g queryText).

(** The keyword statement:
    [MATCH (e:Entity) WHERE ... WITH e, ... AS nameBoost, ... AS obsMatches
     WITH e, (nameBoost + (obsMatches * 0.5)) AS bm25Score
     WHERE bm25Score > 0
     RETURN e.name AS id, e.entityType AS entityType, bm25Score
     ORDER BY bm25Score DESC LIMIT $limit].
    What the store does with a negative [$limit] is not fixed by the
    repository; the model takes the statement to be refused then, and the
    properties of its rows are stated for [0 <= limit]. *)
Definition keywordStatement (g : Graph) (queryText : string) (limit : Z)
  : option (list KeywordRow) :=
  if (limit <? 0)%Z then None
  else Some (Cypher.limit limit
               (Cypher.orderByDesc bm25Score (keywordCandidates g queryText))).

(** A row of the entity statement. *)
Record EntityRecord : Type := mkEntityRecord {
  rec_name : string;
  rec_entityType : string;
  rec_observations : Property;
  rec_id : string;
  rec_version : Z;
  rec_createdAt : Z;
  rec_updatedAt : Z
}.

(** [MATCH (e:Entity) WHERE e.name IN $names AND e.validTo IS NULL
     RETURN e.name AS name, ...] *)
Definition entityStatement (g : Graph) (names : list string) : list EntityRecord :=
  map (fun e => {| rec_name := node_name e;
                   rec_entityType := node_entityType e;
                   rec_observations := node_observations e;
                   rec_id := node_id e;
                   rec_version := node_version e;
                   rec_createdAt := node_createdAt e;
                   rec_updatedAt := node_updatedAt e |})
      (filter (fun e => Cypher.inNames (node_name e) names
                        && Cypher.isNull (node_validTo e))
              (nodes g)).

(** A row of the relation statement. *)
Record RelationRecord : Type := mkRelationRecord {
  fromName : string;
  toName : string;
  rec_relationType : string
}.

(** [MATCH (from:Entity)-[r:RELATES_TO]->(to:Entity)
     WHERE from.name IN $names AND to.name IN $names AND r.validTo IS NULL
     RETURN from.name AS fromName, to.name AS toName,
            r.relationType AS relationType] *)
Definition relationStatement (g : Graph) (names : list string)
  : list RelationRecord :=
  map (fun r => {| fromName := node_name (rel_from r);
                   toName := node_name (rel_to r);
                   rec_relationType := rel_relationType r |})
      (filter (fun r => Cypher.inNames (node_name (rel_from r)) names
                        && Cypher.inNames (node_name (rel_to r)) names
                        && Cypher.isNull (rel_validTo r))
              (relationships g)).

(** A row of the vector statement of [vectorSearch]. *)
Record ScoredName : Type := mkScoredName {
  sn_name : string;
  sn_entityType : string;
  sn_score : Q
}.

(** The vector statement of [vectorSearch]: as above, with
    [WHERE score >= $minScore] after [YIELD]. *)
Definition vectorFloorStatement (g : Graph) (limit : Z) (embedding : list Q)
           (minScore : Q) : option (list ScoredName) :=
  match queryNodes g limit embedding with
  | None => None
  | Some yielded =>
      Some (Cypher.orderByDesc sn_score
              (map (fun y => {| sn_name := node_name (fst y);
                                sn_entityType := node_entityType (fst y);
                                sn_score := snd y |})
                   (filter (fun y => Qle_bool minScore (snd y)) yielded)))
  end.

(** ** [Neo4jHttpClient.query] and asynchronous code

    A computation returns the statements it sent, in order, and either the
    value it resolves to or the statement whose failure it throws
    ([throw new Error(`Neo4j query failed ...`)]). *)

Inductive Sent : Type :=
| SentVector
| SentKeyword
| SentEntities
| SentRelations
| SentVectorFloor.

Inductive Outcome (A : Type) : Type :=
| Fulfilled (a : A)
| Thrown (failed : Sent).
Arguments Fulfilled {A} a.
Arguments Thrown {A} failed.

Definition Async (A : Type) : Type := (list Sent * Outcome A)%type.

Definition ret {A : Type} (a : A) : Async A := ([], Fulfilled a).

Definition bind {A B : Type} (m : Async A) (f : A -> Async B) : Async B :=
  match snd m with
  | Thrown s => (fst m, Thrown s)
  | Fulfilled a => (fst m ++ fst (f a), snd (f a))
  end.

Declare Scope async_scope.
Delimit Scope async_scope with async.
Notation "x <- 'await' m ;; k" := (bind m (fun x => k))
  (at level 61, m at next level, right associativity) : async_scope.

(** The client: the graph its endpoint serves, and whether the response to a
    statement has an ok status. *)
Record Neo4jHttpClient : Type := mkClient {
  server : Graph;
  responseOk : Sent -> bool
}.

(** [neo4j.query(statement, parameters)]; [answer] evaluates the statement,
    [None] when the store rejects it. *)
Definition query {T : Type} (neo4j : Neo4jHttpClient) (statement : Sent)
           (answer : Graph -> option (list T)) : Async (list T) :=
  ([statement],
   if responseOk neo4j statement
   then match answer (server neo4j) with
        | Some rows => Fulfilled rows
        | None => Thrown statement
        end
   else Thrown statement).

(** ** Results *)

Record SearchOptions : Type := mkSearchOptions {
  opt_limit : option Z;
  opt_minSimilarity : option Q;
  opt_entityTypes : option (list string);
  opt_hybridSearch : option bool;
  opt_rrfK : option Z
}.

(** The display dates [created] and [updated] are not modelled. *)
Record Entity : Type := mkEntity {
  ent_name : string;
  ent_entityType : string;
  ent_observations : Js.json;
  ent_id : string;
  ent_version : Z;
  ent_createdAt : Z;
  ent_updatedAt : Z
}.

Record Relation : Type := mkRelation {
  r_from : string;
  r_to : string;
  r_relationType : string
}.

Record SearchResult : Type := mkSearchResult {
  entities : list Entity;
  relations : list Relation;
  total : nat;
  timeTaken : Z
}.

(** What [JSON.parse] receives for a property value: a string as it is, an
    array through [Array.prototype.toString]. *)
Definition toString (p : Property) : string :=
  match p with
  | PString s => s
  | PList items => String.concat "," items
  end.

Section Search.

(** [JSON.parse]: [None] when it throws. *)
Variable JSON_parse : string -> option Js.json.

(** [(() => { try { return JSON.parse(e.observations); }
             catch (error) { ...; return []; } })()] *)
Definition parseRecordObservations (observations : Property) : Js.json :=
  match JSON_parse (toString observations) with
  | Some v => v
  | None => Js.JArray []
  end.


(** [entities.map((e) => ({ name: e.name, ... }))] *)
Definition hydrateEntity (e : EntityRecord) : Entity :=
  {| ent_name := rec_name e;
     ent_entityType := rec_entityType e;
     ent_observations := parseRecordObservations (rec_observations e);
     ent_id := rec_id e;
     ent_version := rec_version e;
     ent_createdAt := rec_createdAt e;
     ent_updatedAt := rec_updatedAt e |}.

(** [relations.map((r) => ({ from: r.fromName, ... }))] *)
Definition hydrateRelation (r : RelationRecord) : Relation :=
  {| r_from := fromName r;
     r_to := toName r;
     r_relationType := rec_relationType r |}.

Definition emptyResult (elapsed : Z) : SearchResult :=
  {| entities := []; relations := []; total := 0; timeTaken := elapsed |}.

(** Step 5 of both searches, after the emptiness test. *)
Definition hydrate (neo4j : Neo4jHttpClient) (entityNames : list string)
           (elapsed : Z) : Async SearchResult :=
  (entities <- await query neo4j SentEntities
                 (fun g => Some (entityStatement g entityNames)) ;;
   relations <- await query neo4j SentRelations
                  (fun g => Some (relationStatement g entityNames)) ;;
   ret {| entities := map hydrateEntity entities;
          relations := map hydrateRelation relations;
          total := List.length entities;
          timeTaken := elapsed |})%async.

(** [hybridSearchWithRRF(neo4j, queryVector, queryText, options)];
    [startTime] and [endTime] are the two readings of [Date.now()]. *)
Definition hybridSearchWithRRF (neo4j : Neo4jHttpClient)
           (queryVector : list Q) (queryText : string)
           (options : SearchOptions) (startTime endTime : Z)
  : Async SearchResult :=
  let limit := Js.or_default_Z (opt_limit options) 10 in
  let rrfK := Js.or_default_Z (opt_rrfK options) 60 in
  (vectorResults <- await query neo4j SentVector
                      (fun g => vectorStatement g (limit * 2) queryVector) ;;
   keywordResults <- await query neo4j SentKeyword
                       (fun g => keywordStatement g queryText (limit * 2)) ;;
   let sorted := sortedResults rrfK limit vectorResults keywordResults in
   if (List.length sorted =? 0)%nat
   then ret (emptyResult (endTime - startTime))
   else hydrate neo4j (map fst sorted) (endTime - startTime))%async.

(** [vectorSearch(neo4j, queryVector, options)] *)
Definition vectorSearch (neo4j : Neo4jHttpClient) (queryVector : list Q)
           (options : SearchOptions) (startTime endTime : Z)
  : Async SearchResult :=
  let limit := Js.or_default_Z (opt_limit options) 10 in
  let minSimilarity := Js.or_default_Q (opt_minSimilarity options) (6 # 10) in
  (vectorResults <- await query neo4j SentVectorFloor
                      (fun g => vectorFloorStatement g limit queryVector
                                                     minSimilarity) ;;
   if (List.length vectorResults =? 0)%nat
   then ret (emptyResult (endTime - startTime))
   else hydrate neo4j (map sn_name vectorResults) (endTime - startTime))%async.

End Search.


(** [{ ...options, limit }] *)
Definition withLimit (limit : option Z) (options : SearchOptions) : SearchOptions :=
  {| opt_limit := limit;
     opt_minSimilarity := opt_minSimilarity options;
     opt_entityTypes := opt_entityTypes options;
     opt_hybridSearch := opt_hybridSearch options;
     opt_rrfK := opt_rrfK options |}.

(** ** A reference [JSON.parse] for arrays of strings

    It accepts the texts [JSON.stringify] writes for an array of strings
    that need no escape, and rejects every other text; it is what the examples
    below run the search with. *)

Definition dquote : ascii := ascii_of_nat 34.
Definition backslash : ascii := ascii_of_nat 92.

(** [JSON.stringify(items)] for strings that need no escape. *)
Definition stringify (items : list string) : string :=
  "[" ++ String.concat ","
           (map (fun s => String dquote (s ++ String dquote EmptyString)) items)
      ++ "]".

(** Reads up to the closing quote. *)
Fixpoint readString (s : string) : option (string * string) :=
  match s with
  | EmptyString => None
  | String c rest =>
      if Ascii.eqb c dquote then Some (EmptyString, rest)
      else if Ascii.eqb c backslash then None
      else match readString rest with
           | Some (body, rest') => Some (String c body, rest')
           | None => None
           end
  end.

Fixpoint readItems (fuel : nat) (s : string) : option (list Js.json) :=
  match fuel, s with
  | S fuel', String c rest =>
      if Ascii.eqb c dquote
      then match readString rest with
           | Some (body, String "," rest') =>
               option_map (cons (Js.JString body)) (readItems fuel' rest')
           | Some (body, "]") => Some [Js.JString body]
           | _ => None
           end
      else None
  | _, _ => None
  end.

Definition parseStringArray (s : string) : option Js.json :=
  match s with
  | "[]" => Some (Js.JArray [])
  | String "[" rest => option_map Js.JArray (readItems (String.length rest) rest)
  | _ => None
  end.

(** ** OAuth utilities (the part of src/test-semantic-search-integration.ts
    headed "OAuth utilities for cookie-based approval and upstream OAuth
    flows")

    A JavaScript string is modelled by a [string] whose characters are its
    code units; code units above 255 are outside the model. *)

Module JsString.

(** [s.replace(/c/g, by)] for a one-character pattern [c] and a replacement
    [by] without [$]. *)
Fixpoint replaceChar (c : ascii) (by_ : string) (s : string) : string :=
  match s with
  | EmptyString => EmptyString
  | String x rest =>
      if Ascii.eqb x c then by_ ++ replaceChar c by_ rest
      else String x (replaceChar c by_ rest)
  end.

(** The code units of a string. *)
Fixpoint chars (s : string) : list ascii :=
  match s with
  | EmptyString => []
  | String x rest => x :: chars rest
  end.

End JsString.

(** [sanitizeHtml(unsafe)]: five global replacements, [&] first. *)
Definition sanitizeHtml (unsafe : string) : string :=
  JsString.replaceChar "'" "&#039;"
    (JsString.replaceChar dquote "&quot;"
       (JsString.replaceChar ">" "&gt;"
          (JsString.replaceChar "<" "&lt;"
             (JsString.replaceChar "&" "&amp;" unsafe)))).

(** The entity written for one character. *)
Definition escapeChar (c : ascii) : string :=
  if Ascii.eqb c "&" then "&amp;"
  else if Ascii.eqb c "<" then "&lt;"
  else if Ascii.eqb c ">" then "&gt;"
  else if Ascii.eqb c dquote then "&quot;"
  else if Ascii.eqb c "'" then "&#039;"
  else String c EmptyString.

(** Escaping character by character. *)
Fixpoint escapeEach (s : string) : string :=
  match s with
  | EmptyString => EmptyString
  | String c rest => escapeChar c ++ escapeEach rest
  end.

(** ** [btoa] and [atob]

    The two platform functions, from their definition: [btoa] is base64 with
    padding over the alphabet [A-Za-z0-9+/]; [atob] is the forgiving decoder
    (ASCII whitespace is dropped, padding is optional, [None] when it
    throws). *)

Module Base64.

Definition alphabet : string :=
  "ABCDEFGHIJKLMNOPQRSTUVWXYZabcdefghijklmnopqrstuvwxyz0123456789+/".

(** The character of a six-bit value. *)
Definition charOf (n : N) : ascii :=
  match String.get (N.to_nat n) alphabet with
  | Some c => c
  | None => "="%char
  end.

Fixpoint indexOf (c : ascii) (s : string) (i : N) : option N :=
  match s with
  | EmptyString => None
  | String x rest => if Ascii.eqb x c then Some i else indexOf c rest (N.succ i)
  end.

(** The six-bit value of a character of the alphabet. *)
Definition valueOf (c : ascii) : option N := indexOf c alphabet 0.

Fixpoint btoa (s : string) : string :=
  match s with
  | EmptyString => EmptyString
  | String a EmptyString =>
      let n := (N_of_ascii a * 16)%N in
      String (charOf (n / 64)) (String (charOf (n mod 64)) "==")
  | String a (String b EmptyString) =>
      let n := ((N_of_ascii a * 256 + N_of_ascii b) * 4)%N in
      String (charOf (n / 4096))
        (String (charOf (n / 64 mod 64)) (String (charOf (n mod 64)) "="))
  | String a (String b (String c rest)) =>
      let n := ((N_of_ascii a * 256 + N_of_ascii b) * 256 + N_of_ascii c)%N in
      String (charOf (n / 262144))
        (String (charOf (n / 4096 mod 64))
           (String (charOf (n / 64 mod 64))
              (String (charOf (n mod 64)) (btoa rest))))
  end.

(** Tab, line feed, form feed, carriage return, space. *)
Definition isAsciiWhitespace (c : ascii) : bool :=
  let n := N_of_ascii c in
  ((n =? 9) || (n =? 10) || (n =? 12) || (n =? 13) || (n =? 32))%N.

Fixpoint removeWhitespace (s : string) : string :=
  match s with
  | EmptyString => EmptyString
  | String c rest =>
      if isAsciiWhitespace c then removeWhitespace rest
      else String c (removeWhitespace rest)
  end.

(** Removes a final [=]. *)
Fixpoint dropFinalEq (s : string) : string :=
  match s with
  | EmptyString => EmptyString
  | String c EmptyString => if Ascii.eqb c "=" then EmptyString else s
  | String c rest => String c (dropFinalEq rest)
  end.

(** When the length is a multiple of 4, one or two final [=] are removed. *)
Definition stripPadding (s : string) : string :=
  if (String.length s mod 4 =? 0)%nat then dropFinalEq (dropFinalEq s) else s.

Fixpoint values (s : string) : option (list N) :=
  match s with
  | EmptyString => Some []
  | String c rest =>
      match valueOf c, values rest with
      | Some v, Some vs => Some (v :: vs)
      | _, _ => None
      end
  end.

(** Six bits per value, eight bits per byte; the bits left over at the end
    are dropped. *)
Fixpoint decodeValues (vs : list N) : string :=
  match vs with
  | v0 :: v1 :: v2 :: v3 :: rest =>
      let n := (((v0 * 64 + v1) * 64 + v2) * 64 + v3)%N in
      String (ascii_of_N (n / 65536))
        (String (ascii_of_N (n / 256 mod 256))
           (String (ascii_of_N (n mod 256)) (decodeValues rest)))
  | [v0; v1; v2] =>
      let n := ((v0 * 64 + v1) * 64 + v2)%N in
      String (ascii_of_N (n / 1024))
        (String (ascii_of_N (n / 4 mod 256)) EmptyString)
  | [v0; v1] =>
      let n := (v0 * 64 + v1)%N in
      String (ascii_of_N (n / 16)) EmptyString
  | _ => EmptyString
  end.

Definition atob (s : string) : option string :=
  let data := stripPadding (removeWhitespace s) in
  if (String.length data mod 4 =? 1)%nat then None
  else match values data with
       | Some vs => Some (decodeValues vs)
       | None => None
       end.

End Base64.

(** [base64.replace(/=+$/, '')]: the final run of [=] is removed. *)
Fixpoint stripTrailingEquals (s : string) : string :=
  match s with
  | EmptyString => EmptyString
  | String c rest =>
      match stripTrailingEquals rest with
      | EmptyString => if Ascii.eqb c "=" then EmptyString
                       else String c EmptyString
      | kept => String c kept
      end
  end.

(** [urlSafeBase64Encode(data)] *)
Definition urlSafeBase64Encode (data : string) : string :=
  let base64 := Base64.btoa data in
  stripTrailingEquals
    (JsString.replaceChar "/" "_" (JsString.replaceChar "+" "-" base64)).

(** [while (base64.length % 4) { base64 += '='; }]; three rounds are
    enough. *)
Fixpoint padToMultipleOf4 (rounds : nat) (base64 : string) : string :=
  match rounds with
  | O => base64
  | S rounds' =>
      if (String.length base64 mod 4 =? 0)%nat then base64
      else padToMultipleOf4 rounds' (base64 ++ "=")
  end.

(** [urlSafeBase64Decode(encoded)]; [None] when [atob] throws. *)
Definition urlSafeBase64Decode (encoded : string) : option string :=
  let base64 :=
    JsString.replaceChar "_" "/" (JsString.replaceChar "-" "+" encoded) in
  Base64.atob (padToMultipleOf4 3 base64).

(** The characters [btoa] writes before the padding, and the padding. *)
Fixpoint base64Body (s : string) : string :=
  match s with
  | EmptyString => EmptyString
  | String a EmptyString =>
      let n := (N_of_ascii a * 16)%N in
      String (Base64.charOf (n / 64))
        (String (Base64.charOf (n mod 64)) EmptyString)
  | String a (String b EmptyString) =>
      let n := ((N_of_ascii a * 256 + N_of_ascii b) * 4)%N in
      String (Base64.charOf (n / 4096))
        (String (Base64.charOf (n / 64 mod 64))
           (String (Base64.charOf (n mod 64)) EmptyString))
  | String a (String b (String c rest)) =>
      let n := ((N_of_ascii a * 256 + N_of_ascii b) * 256 + N_of_ascii c)%N in
      String (Base64.charOf (n / 262144))
        (String (Base64.charOf (n / 4096 mod 64))
           (String (Base64.charOf (n / 64 mod 64))
              (String (Base64.charOf (n mod 64)) (base64Body rest))))
  end.

Fixpoint base64Padding (s : string) : string :=
  match s with
  | EmptyString => EmptyString
  | String _ EmptyString => "=="
  | String _ (String _ EmptyString) => "="
  | String _ (String _ (String _ rest)) => base64Padding rest
  end.

(** A character of [btoa]'s alphabet. *)
Definition isSextetChar (c : ascii) : Prop :=
  exists n, (n < 64)%N /\ c = Base64.charOf n.

(** [A-Z], [a-z], [0-9], [-] and [_]. *)
Definition isUrlSafeChar (c : ascii) : bool :=
  let n := N_of_ascii c in
  ((65 <=? n) && (n <=? 90) || (97 <=? n) && (n <=? 122)
   || (48 <=? n) && (n <=? 57) || (n =? 45) || (n =? 95))%N.

(** [+] becomes [-], [/] becomes [_], as the two replacements of
    [urlSafeBase64Encode] do. *)
Definition toUrlSafe (s : string) : string :=
  JsString.replaceChar "/" "_" (JsString.replaceChar "+" "-" s).

(** The two replacements of [urlSafeBase64Decode]. *)
Definition fromUrlSafe (s : string) : string :=
  JsString.replaceChar "_" "/" (JsString.replaceChar "-" "+" s).

(** ** Strings, bytes and hexadecimal text *)

Module JsText.

(** [s.split(sep)] for a one-character separator. *)
Fixpoint split (sep : ascii) (s : string) : list string :=
  match s with
  | EmptyString => [EmptyString]
  | String c rest =>
      if Ascii.eqb c sep then EmptyString :: split sep rest
      else match split sep rest with
           | [] => [String c EmptyString]
           | first :: others => String c first :: others
           end
  end.

(** White space for [trim], among the code units below 256. *)
Definition isWhitespace (c : ascii) : bool :=
  let n := N_of_ascii c in
  ((9 <=? n) && (n <=? 13) || (n =? 32) || (n =? 160))%N.

Fixpoint trimStart (s : string) : string :=
  match s with
  | EmptyString => EmptyString
  | String c rest => if isWhitespace c then trimStart rest else s
  end.

Fixpoint trimEnd (s : string) : string :=
  match s with
  | EmptyString => EmptyString
  | String c rest =>
      match trimEnd rest with
      | EmptyString => if isWhitespace c then EmptyString
                       else String c EmptyString
      | kept => String c kept
      end
  end.

(** [s.trim()] *)
Definition trim (s : string) : string := trimEnd (trimStart s).

(** [s.startsWith(p)] *)
Definition startsWith (s p : string) : bool := String.prefix p s.

(** [s.substring(n)] *)
Fixpoint substringFrom (n : nat) (s : string) : string :=
  match n, s with
  | O, _ => s
  | S n', String _ rest => substringFrom n' rest
  | S _, EmptyString => EmptyString
  end.

(** [arr.includes(x)] *)
Definition includes (arr : list string) (x : string) : bool :=
  existsb (String.eqb x) arr.

(** [Array.from(new Set(arr))]: the first occurrence of each element, in
    order. *)
Definition unique (arr : list string) : list string :=
  fold_left add_key arr [].

(** [new TextEncoder().encode(s)]: UTF-8, for code units below 256. *)
Fixpoint encode (s : string) : list ascii :=
  match s with
  | EmptyString => []
  | String c rest =>
      let n := N_of_ascii c in
      if (n <? 128)%N then c :: encode rest
      else ascii_of_N (192 + n / 64) :: ascii_of_N (128 + n mod 64)
                      :: encode rest
  end.

End JsText.

Module Hex.

Definition digits : string := "0123456789abcdef".

(** The lower-case digit of a value below 16. *)
Definition digit (n : N) : ascii :=
  match String.get (N.to_nat n) digits with
  | Some c => c
  | None => "0"%char
  end.

(** [b.toString(16).padStart(2, "0")] for a byte. *)
Definition ofByte (b : ascii) : string :=
  let n := N_of_ascii b in
  String (digit (n / 16)) (String (digit (n mod 16)) EmptyString).

(** [Array.from(bytes).map(...).join("")] *)
Fixpoint ofBytes (bytes : list ascii) : string :=
  match bytes with
  | [] => EmptyString
  | b :: rest => ofByte b ++ ofBytes rest
  end.

(** The value of a character of [[0-9a-fA-F]]. *)
Definition valueOf (c : ascii) : option N :=
  let n := N_of_ascii c in
  if ((48 <=? n) && (n <=? 57))%N then Some (n - 48)%N
  else if ((97 <=? n) && (n <=? 102))%N then Some (n - 87)%N
  else if ((65 <=? n) && (n <=? 70))%N then Some (n - 55)%N
  else None.

Definition isDigit (c : ascii) : bool :=
  match valueOf c with
  | Some _ => true
  | None => false
  end.

(** [/^[0-9a-fA-F]+$/.test(s)] *)
Definition test (s : string) : bool :=
  match s with
  | EmptyString => false
  | _ => forallb isDigit (JsString.chars s)
  end.

(** [s.match(/.{1,2}/g)] on a string without line terminators: consecutive
    pairs, the last possibly a single character; [None] for no match. *)
Fixpoint pairs (s : string) : list string :=
  match s with
  | EmptyString => []
  | String a EmptyString => [String a EmptyString]
  | String a (String b rest) => String a (String b EmptyString) :: pairs rest
  end.

Definition matchPairs (s : string) : option (list string) :=
  match pairs s with
  | [] => None
  | ps => Some ps
  end.

(** [Number.parseInt(s, 16)] for a string without sign, prefix or leading
    white space: the value of the longest run of digits at the start, [None]
    ([NaN]) when there is none. *)
Fixpoint parseDigits (s : string) (acc : N) : N :=
  match s with
  | EmptyString => acc
  | String c rest =>
      match valueOf c with
      | Some v => parseDigits rest (acc * 16 + v)
      | None => acc
      end
  end.

Definition parseInt (s : string) : option N :=
  match s with
  | EmptyString => None
  | String c _ =>
      match valueOf c with
      | Some _ => Some (parseDigits s 0)
      | None => None
      end
  end.

(** An element of [new Uint8Array(numbers)]: [NaN] becomes 0, other values
    wrap modulo 256. *)
Definition toUint8 (n : option N) : ascii :=
  match n with
  | Some v => ascii_of_N (v mod 256)
  | None => zero
  end.

End Hex.

(** A completed call: the value returned, or the message of the [Error]
    thrown. *)
Inductive Completion (A : Type) : Type :=
| Returns (a : A)
| Throws (message : string).
Arguments Returns {A} a.
Arguments Throws {A} message.

Definition COOKIE_NAME : string := "mcp-approved-clients".

Fixpoint bytes_eqb (a b : list ascii) : bool :=
  match a, b with
  | [], [] => true
  | x :: a', y :: b' => Ascii.eqb x y && bytes_eqb a' b'
  | _, _ => false
  end.

Section Cookies.

(** HMAC-SHA256 of [crypto.subtle]: [hmac key data] is the 32-byte code
    that [sign] returns, and [verify] compares a signature with it. *)
Variable hmac : list ascii -> list ascii -> list ascii.

(** [JSON.parse] ([None] when it throws) and [JSON.stringify] on an array
    of strings. *)
Variable JSON_parse : string -> option Js.json.
Variable JSON_stringify : list string -> string.

(** [crypto.subtle.verify("HMAC", key, signature, data)] *)
Definition verify (key signature data : list ascii) : bool :=
  bytes_eqb signature (hmac key data).

(** [importKey(secret)]: the key is the encoded secret. *)
Definition importKey (secret : string) : Completion (list ascii) :=
  match secret with
  | EmptyString =>
      Throws "COOKIE_SECRET is not defined. A secret key is required for signing cookies."
  | _ =>
      let secretBytes := JsText.encode secret in
      if (List.length secretBytes <? 32)%nat
      then Throws "COOKIE_SECRET must be at least 32 characters for secure HMAC-SHA256 signing."
      else Returns secretBytes
  end.

(** [signData(key, data)] *)
Definition signData (key : list ascii) (data : string) : string :=
  Hex.ofBytes (hmac key (JsText.encode data)).

(** [verifySignature(key, signatureHex, data)] *)
Definition verifySignature (key : list ascii) (signatureHex data : string)
  : bool :=
  if negb (Hex.test signatureHex)
     || negb (String.length signatureHex =? 64)%nat
  then false
  else match Hex.matchPairs signatureHex with
       | None => false
       | Some hexPairs =>
           let signatureBytes :=
             map (fun byte => Hex.toUint8 (Hex.parseInt byte)) hexPairs in
           verify key signatureBytes (JsText.encode data)
       end.

(** [Array.isArray(v) && v.every((item) => typeof item === "string")] with
    the elements. *)
Fixpoint allStrings (items : list Js.json) : option (list string) :=
  match items with
  | [] => Some []
  | Js.JString s :: rest =>
      match allStrings rest with
      | Some ss => Some (s :: ss)
      | None => None
      end
  | _ :: _ => None
  end.

Definition stringArray (v : Js.json) : option (list string) :=
  match v with
  | Js.JArray items => allStrings items
  | _ => None
  end.

(** [getApprovedClientsFromCookie(cookieHeader, secret)]; [Returns None]
    is [null]. *)
Definition getApprovedClientsFromCookie (cookieHeader : option string)
           (secret : string) : Completion (option (list string)) :=
  match cookieHeader with
  | None => Returns None
  | Some EmptyString => Returns None
  | Some header =>
      let cookies := map JsText.trim (JsText.split ";" header) in
      match find (fun c => JsText.startsWith c (COOKIE_NAME ++ "=")%string)
                 cookies with
      | None => Returns None
      | Some targetCookie =>
          let cookieValue :=
            JsText.substringFrom (String.length COOKIE_NAME + 1) targetCookie in
          match JsText.split "." cookieValue with
          | [signatureHex; base64Payload] =>
              match urlSafeBase64Decode base64Payload with
              | None => Returns None
              | Some payload =>
                  match importKey secret with
                  | Throws message => Throws message
                  | Returns key =>
                      if verifySignature key signatureHex payload
                      then match JSON_parse payload with
                           | None => Returns None
                           | Some approvedClients =>
                               Returns (stringArray approvedClients)
                           end
                      else Returns None
                  end
              end
          | _ => Returns None
          end
      end
  end.

(** [clientIdAlreadyApproved(request, clientId, cookieSecret)], with the
    [Cookie] header of the request. *)
Definition clientIdAlreadyApproved (cookieHeader : option string)
           (clientId cookieSecret : string) : Completion bool :=
  match clientId with
  | EmptyString => Returns false
  | _ =>
      match getApprovedClientsFromCookie cookieHeader cookieSecret with
      | Throws message => Throws message
      | Returns (Some approvedClients) =>
          Returns (JsText.includes approvedClients clientId)
      | Returns None => Returns false
      end
  end.

(** The cookie value [parseRedirectApproval] writes for the clients
    approved so far and the client just approved. *)
Definition approvalCookieValue (existingApprovedClients : list string)
           (clientId cookieSecret : string) : Completion string :=
  let updatedApprovedClients :=
    JsText.unique (existingApprovedClients ++ [clientId]) in
  let payload := JSON_stringify updatedApprovedClients in
  match importKey cookieSecret with
  | Throws message => Throws message
  | Returns key =>
      let signature := signData key payload in
      Returns (signature ++ "." ++ urlSafeBase64Encode payload)%string
  end.

(** The [Set-Cookie] header of [parseRedirectApproval]. *)
Definition approvalSetCookie (newCookieValue : string) : string :=
  (COOKIE_NAME ++ "=" ++ newCookieValue
   ++ "; HttpOnly; Secure; Path=/; SameSite=Lax; Max-Age=7776000")%string.

End Cookies.

(** ** The soft delete of [delete_entities] (src/tools/memento-tools.ts)

    The statement
    [MATCH (e:Entity) WHERE e.name IN $names AND e.validTo IS NULL
     SET e.validTo = $now
     WITH e
     OPTIONAL MATCH (e)-[r:RELATES_TO]-() WHERE r.validTo IS NULL
     SET r.validTo = $now
     RETURN count(DISTINCT e) AS deletedCount]
    as a function on the graph.  A relationship carries its two end nodes and
    the vector index yields nodes, so a node is updated there too. *)

(** The [WHERE] of the first [MATCH]. *)
Definition matchedForDelete (names : list string) (e : EntityNode) : bool :=
  Cypher.inNames (node_name e) names && Cypher.isNull (node_validTo e).

(** [SET e.validTo = $now] *)
Definition setNodeValidTo (now : Z) (e : EntityNode) : EntityNode :=
  {| node_name := node_name e;
     node_entityType := node_entityType e;
     node_observations := node_observations e;
     node_id := node_id e;
     node_version := node_version e;
     node_createdAt := node_createdAt e;
     node_updatedAt := node_updatedAt e;
     node_validTo := Some now |}.

Definition deleteNode (names : list string) (now : Z) (e : EntityNode)
  : EntityNode :=
  if matchedForDelete names e then setNodeValidTo now e else e.

(** [(e)-[r:RELATES_TO]-()] for a matched [e], in either direction, with
    [r.validTo IS NULL]: [SET r.validTo = $now]. *)
Definition deleteRelationship (names : list string) (now : Z)
           (r : Relationship) : Relationship :=
  {| rel_from := deleteNode names now (rel_from r);
     rel_to := deleteNode names now (rel_to r);
     rel_relationType := rel_relationType r;
     rel_validTo :=
       if (matchedForDelete names (rel_from r)
           || matchedForDelete names (rel_to r))
          && Cypher.isNull (rel_validTo r)
       then Some now
       else rel_validTo r |}.

(** The graph after the statement, and [deletedCount]. *)
Definition deleteEntitiesStatement (g : Graph) (names : list string) (now : Z)
  : Graph * Z :=
  ({| nodes := map (deleteNode names now) (nodes g);
      relationships := map (deleteRelationship names now) (relationships g);
      queryNodes := fun k embedding =>
                      option_map
                        (map (fun y => (deleteNode names now (fst y), snd y)))
                        (queryNodes g k embedding) |},
   Z.of_nat (List.length (filter (matchedForDelete names) (nodes g)))).

Inductive AuditOutcome : Type :=
| Success
| Partial
| Failure.

(** [deletedCount === entityNames.length ? 'success'
     : deletedCount > 0 ? 'partial' : 'failure'] *)
Definition deleteOutcome (deletedCount : Z) (entityNames : list string)
  : AuditOutcome :=
  if (deletedCount =? Z.of_nat (List.length entityNames))%Z then Success
  else if (0 <? deletedCount)%Z then Partial
  else Failure.

(** [delete_entities] with an answered statement: the graph afterwards,
    [result[0]?.deletedCount || 0] and the outcome written to the audit
    log. *)
Definition delete_entities (g : Graph) (entityNames : list string) (now : Z)
  : Graph * Z * AuditOutcome :=
  let result := deleteEntitiesStatement g entityNames now in
  let deletedCount := Js.or_default_Z (Some (snd result)) 0 in
  (fst result, deletedCount, deleteOutcome deletedCount entityNames).

(** The relation statement of [read_graph]:
    [MATCH (from:Entity)-[r:RELATES_TO]->(to:Entity)
     WHERE r.validTo IS NULL AND from.validTo IS NULL AND to.validTo IS NULL
       AND from.name IN $names AND to.name IN $names
     RETURN from.name AS fromName, to.name AS toName,
            r.relationType AS relationType] *)
Definition readGraphRelationStatement (g : Graph) (names : list string)
  : list RelationRecord :=
  map (fun r => {| fromName := node_name (rel_from r);
                   toName := node_name (rel_to r);
                   rec_relationType := rel_relationType r |})
      (filter (fun r => Cypher.isNull (rel_validTo r)
                        && Cypher.isNull (node_validTo (rel_from r))
                        && Cypher.isNull (node_validTo (rel_to r))
                        && Cypher.inNames (node_name (rel_from r)) names
                        && Cypher.inNames (node_name (rel_to r)) names)
              (relationships g)).

(** Every relationship without [validTo] joins two entities without
    [validTo]. *)
Definition liveEnds (g : Graph) : bool :=
  forallb (fun r => negb (Cypher.isNull (rel_validTo r))
                    || Cypher.isNull (node_validTo (rel_from r))
                       && Cypher.isNull (node_validTo (rel_to r)))
          (relationships g).

(** The two ends of every relationship are nodes of the graph. *)
Definition endsAreNodes (g : Graph) : Prop :=
  forall r, In r (relationships g) ->
            In (rel_from r) (nodes g) /\ In (rel_to r) (nodes g).

(** No two entities without [validTo] have the same name. *)
Definition uniqueLiveNames (g : Graph) : Prop :=
  NoDup (map node_name
             (filter (fun e => Cypher.isNull (node_validTo e)) (nodes g))).

(** ** The soft delete of [delete_relations]

    [MATCH (from:Entity {name: $from})
           -[r:RELATES_TO {relationType: $relationType}]->
           (to:Entity {name: $to})
     WHERE r.validTo IS NULL
     SET r.validTo = $now
     RETURN count(r) AS deletedCount] *)
Definition matchedRelationship (from to relationType : string)
           (r : Relationship) : bool :=
  String.eqb (node_name (rel_from r)) from
  && String.eqb (rel_relationType r) relationType
  && String.eqb (node_name (rel_to r)) to
  && Cypher.isNull (rel_validTo r).

Definition deleteRelationStatement (g : Graph) (from to relationType : string)
           (now : Z) : Graph * Z :=
  ({| nodes := nodes g;
      relationships :=
        map (fun r => if matchedRelationship from to relationType r
                      then {| rel_from := rel_from r;
                              rel_to := rel_to r;
                              rel_relationType := rel_relationType r;
                              rel_validTo := Some now |}
                      else r)
            (relationships g);
      queryNodes := queryNodes g |},
   Z.of_nat (List.length (filter (matchedRelationship from to relationType)
                                 (relationships g)))).

(** One round of the loop of [delete_relations] with an answered statement:
    the graph afterwards and [wasDeleted], that is
    [(result[0]?.deletedCount || 0) > 0]. *)
Definition delete_relation (g : Graph) (from to relationType : string)
           (now : Z) : Graph * bool :=
  let result := deleteRelationStatement g from to relationType now in
  (fst result, (0 <? Js.or_default_Z (Some (snd result)) 0)%Z).

(** The row of a relation statement for the relation deleted. *)
Definition isRelation (from to relationType : string) (rec : RelationRecord)
  : bool :=
  String.eqb (fromName rec) from
  && String.eqb (rec_relationType rec) relationType
  && String.eqb (toName rec) to.

(** ** Observation lists of [add_observations] and [delete_observations]

    The expressions on the parsed observations, for observations that are an
    array of strings. *)

(** [[...new Set([...existingObs, ...obs.contents])]] *)
Definition mergedObservations (existingObs contents : list string)
  : list string :=
  JsText.unique (existingObs ++ contents).

(** [obs.contents.filter(c => !existingObs.includes(c))] *)
Definition addedObservations (existingObs contents : list string)
  : list string :=
  filter (fun c => negb (JsText.includes existingObs c)) contents.

(** [existingObs.filter(o => !del.observations.includes(o))] *)
Definition remainingObservations (existingObs observations : list string)
  : list string :=
  filter (fun o => negb (JsText.includes observations o)) existingObs.

(** [existingObs.length - remainingObs.length] *)
Definition deletedObservationCount (existingObs observations : list string)
  : Z :=
  Z.of_nat (List.length existingObs)
  - Z.of_nat (List.length (remainingObservations existingObs observations)).

(** ** Rows of [Neo4jHttpClient.query] (src/neo4j-client.ts)

    [result.data.values.map((row) => { const obj = {};
       result.data.fields.forEach((field, i) => { obj[field] = row[i]; });
       return obj; })].
    The object is the map of its own properties, [None] being [undefined];
    a field named [__proto__] sets no own property and is outside the
    model. *)
Definition rowObject (fields : list string) (row : list Js.json)
  : Js.Map (option Js.json) :=
  Js.forEach (fun field i obj => Js.set obj field (nth_error row i))
             fields 0%nat [].

Definition rowObjects (fields : list string) (values : list (list Js.json))
  : list (Js.Map (option Js.json)) :=
  map (rowObject fields) values.

(** ** The signed OAuth state *)

(** [String.fromCharCode(...bytes)] *)
Definition fromCharCode (bytes : list ascii) : string :=
  string_of_list_ascii bytes.

(** [bytes.subarray(first, last)] for [first <= last] *)
Definition subarray (bytes : list ascii) (first last : nat) : list ascii :=
  firstn (last - first) (skipn first bytes).

Definition chunkSize : nat := 8 * 1024.

(** [for (let i = 0; i < utf8Bytes.length; i += chunkSize) {
       binaryString += String.fromCharCode(...utf8Bytes.subarray(i, i + chunkSize)); }]
    from index [i] on; every round moves [i] forward, so as many rounds as
    there are bytes are enough. *)
Fixpoint binaryStringLoop (rounds : nat) (utf8Bytes : list ascii) (i : nat)
         (binaryString : string) : string :=
  match rounds with
  | O => binaryString
  | S rounds' =>
      if (i <? List.length utf8Bytes)%nat
      then binaryStringLoop rounds' utf8Bytes (i + chunkSize)
             (binaryString
              ++ fromCharCode (subarray utf8Bytes i (i + chunkSize)))
      else binaryString
  end.

Section State.

Variable hmac : list ascii -> list ascii -> list ascii.

(** [JSON.stringify] of the state data, [JSON.parse] ([None] when it
    throws) and [new TextDecoder().decode]. *)
Variable JSON_stringify : Js.json -> string.
Variable JSON_parse : string -> option Js.json.
Variable decode : list ascii -> string.

(** [encodeState(data)]; on the values of [Js.json] neither
    [JSON.stringify] nor [btoa] throws. *)
Definition encodeState (data : Js.json) : string :=
  let jsonString := JSON_stringify data in
  let utf8Bytes := JsText.encode jsonString in
  let binaryString :=
    binaryStringLoop (List.length utf8Bytes) utf8Bytes 0 EmptyString in
  let base64 := Base64.btoa binaryString in
  stripTrailingEquals
    (JsString.replaceChar "/" "_" (JsString.replaceChar "+" "-" base64)).

(** [signState(data, secret)] *)
Definition signState (data : Js.json) (secret : string) : Completion string :=
  let encoded := encodeState data in
  match importKey secret with
  | Throws message => Throws message
  | Returns key =>
      let signature := signData hmac key encoded in
      Returns (signature ++ "." ++ encoded)%string
  end.

(** [decodeState(encoded)] *)
Definition decodeState (encoded : string) : Completion Js.json :=
  let base64 :=
    JsString.replaceChar "_" "/" (JsString.replaceChar "-" "+" encoded) in
  match Base64.atob (padToMultipleOf4 3 base64) with
  | None => Throws "Could not decode state"
  | Some binaryString =>
      let bytes := JsString.chars binaryString in
      let jsonString := decode bytes in
      match JSON_parse jsonString with
      | Some v => Returns v
      | None => Throws "Could not decode state"
      end
  end.

(** [verifyAndDecodeState(signedState, secret)] *)
Definition verifyAndDecodeState (signedState secret : string)
  : Completion Js.json :=
  match JsText.split "." signedState with
  | [signatureHex; encoded] =>
      match importKey secret with
      | Throws message => Throws message
      | Returns key =>
          if verifySignature hmac key signatureHex encoded
          then decodeState encoded
          else Throws "State signature verification failed"
      end
  | _ => Throws "Invalid state format"
  end.

End State.

(** ** Example inputs *)

Module Examples.

(** The scenario of the specification: vector list [A, B, C], keyword
    list [B, D]. *)
Definition scenarioVector : list VectorRow :=
  [ mkVectorRow "A" "person" (9 # 10);
    mkVectorRow "B" "person" (8 # 10);
    mkVectorRow "C" "person" (7 # 10) ].

Definition scenarioKeyword : list KeywordRow :=
  [ mkKeywordRow "B" "person" 2; mkKeywordRow "D" "person" 1 ].

(** A vector list in which the identifier [A] comes twice. *)
Definition repeatedVector : list VectorRow :=
  [ mkVectorRow "A" "person" (9 # 10); mkVectorRow "A" "person" (8 # 10) ].

(** One candidate from each ranker, both at rank 0. *)
Definition tieVector : list VectorRow := [ mkVectorRow "A" "person" (9 # 10) ].
Definition tieKeyword : list KeywordRow := [ mkKeywordRow "D" "person" 1 ].

(** Identifier and fused score of each sorted entry. *)
Definition ranking (sorted : list (string * RrfEntry)) : list (string * Q) :=
  map (fun e => (fst e, score (snd e))) sorted.

(** Clients whose every response has an ok status. *)
Definition alwaysOk (s : Sent) : bool := true.

Definition node (name : string) (observations : Property)
           (validTo : option Z) : EntityNode :=
  {| node_name := name;
     node_entityType := "person";
     node_observations := observations;
     node_id := "id-" ++ name;
     node_version := 1;
     node_createdAt := 1000;
     node_updatedAt := 2000;
     node_validTo := validTo |}.

Definition noOptions : SearchOptions :=
  {| opt_limit := None; opt_minSimilarity := None; opt_entityTypes := None;
     opt_hybridSearch := None; opt_rrfK := None |}.

Definition limitZero : SearchOptions :=
  {| opt_limit := Some 0%Z; opt_minSimilarity := None;
     opt_entityTypes := None; opt_hybridSearch := None; opt_rrfK := None |}.

(** Two visible entities, stored [A] before [B]; the index ranks [B]
    above [A]. *)
Definition nodeA : EntityNode := node "A" (PString (stringify ["likes tea"])) None.
Definition nodeB : EntityNode := node "B" (PString (stringify ["likes rum"])) None.

Definition orderClient : Neo4jHttpClient :=
  {| server := {| nodes := [nodeA; nodeB];
                  relationships := [];
                  queryNodes := fun _ _ => Some [(nodeB, 9 # 10); (nodeA, 8 # 10)] |};
     responseOk := alwaysOk |}.

(** [X] was soft-deleted ([validTo] set) but a relationship from [X] to the
    visible [Y] still has no [validTo]; the index still ranks [X]. *)
Definition nodeX : EntityNode := node "X" (PString (stringify [])) (Some 5%Z).
Definition nodeY : EntityNode := node "Y" (PString (stringify [])) None.

Definition staleClient : Neo4jHttpClient :=
  {| server := {| nodes := [nodeX; nodeY];
                  relationships :=
                    [ {| rel_from := nodeX; rel_to := nodeY;
                         rel_relationType := "knows"; rel_validTo := None |} ];
                  queryNodes := fun _ _ => Some [(nodeX, 9 # 10); (nodeY, 8 # 10)] |};
     responseOk := alwaysOk |}.



(** A store with no entity. *)
Definition emptyClient : Neo4jHttpClient :=
  {| server := {| nodes := []; relationships := [];
                  queryNodes := fun _ _ => Some [] |};
     responseOk := alwaysOk |}.

(** Entities for the keyword statement, with list-valued observations. *)
Definition teamBadass : EntityNode :=
  node "TeamBadass" (PList ["founded in 2024"; "two members"]) None.
Definition threeNotes : EntityNode :=
  node "Willie"
       (PList ["joined TeamBadass"; "likes tea"; "TeamBadass lead";
               "wrote the TeamBadass charter"]) None.
Definition teamBadassHQ : EntityNode :=
  node "TeamBadass HQ"
       (PList ["home of TeamBadass"; "TeamBadass meets here"; "has a kettle"])
       None.
Definition unrelated : EntityNode := node "Kettle" (PList ["boils water"]) None.

Definition lexicalGraph : Graph :=
  {| nodes := [unrelated; threeNotes; teamBadass; teamBadassHQ];
     relationships := [];
     queryNodes := fun _ _ => Some [] |}.

(** A stand-in for HMAC-SHA256 that returns the same 32 bytes for every key
    and text; it only serves to run the cookie functions. *)
Definition toyHmac (key data : list ascii) : list ascii :=
  repeat "171"%char 32.

Definition secret32 : string := "0123456789abcdef0123456789abcdef".

(** Three visible entities in a chain [P -> Q -> R]. *)
Definition nodeP : EntityNode := node "P" (PString (stringify ["first"])) None.
Definition nodeQ : EntityNode := node "Q" (PString (stringify ["second"])) None.
Definition nodeR : EntityNode := node "R" (PString (stringify ["third"])) None.

Definition chainGraph : Graph :=
  {| nodes := [nodeP; nodeQ; nodeR];
     relationships :=
       [ {| rel_from := nodeP; rel_to := nodeQ;
            rel_relationType := "knows"; rel_validTo := None |};
         {| rel_from := nodeQ; rel_to := nodeR;
            rel_relationType := "knows"; rel_validTo := None |} ];
     queryNodes := fun _ _ => Some [(nodeQ, 9 # 10); (nodeP, 8 # 10);
                                    (nodeR, 7 # 10)] |}.

(** A stand-in for [JSON.stringify], right on arrays of strings that need no
    escape. *)
Definition stringifyStrings (v : Js.json) : string :=
  match v with
  | Js.JArray items =>
      stringify (flat_map (fun item => match item with
                                       | Js.JString s => [s]
                                       | _ => []
                                       end) items)
  | _ => "null"
  end.

(** A stand-in for [new TextDecoder().decode], right on the encodings of
    code units below 256. *)
Fixpoint utf8Decode (bytes : list ascii) : string :=
  match bytes with
  | [] => EmptyString
  | a :: rest =>
      if (N_of_ascii a <? 128)%N then String a (utf8Decode rest)
      else match rest with
           | [] => EmptyString
           | b :: rest' =>
               String (ascii_of_N ((N_of_ascii a mod 32) * 64
                                   + N_of_ascii b mod 64))
                      (utf8Decode rest')
           end
  end.

(** State data with a character outside ASCII ([U+00E9]). *)
Definition stateData : Js.json :=
  Js.JArray [Js.JString "client";
             Js.JString ("caf" ++ String (ascii_of_nat 233) EmptyString)].

(** Two candidates whose exact fused scores tie at [5 / 198] for [k = 60]:
    [R] at vector rank 11 and keyword rank 27 ([1 / 72 + 1 / 88]), [P] at
    vector rank 38 and keyword rank 5 ([1 / 99 + 1 / 66]); the other
    identifiers are fillers. *)
Definition fillerId (tag : ascii) (i : nat) : string :=
  String tag (String (ascii_of_nat (48 + i)) EmptyString).

Definition roundingVector : list VectorRow :=
  map (fun i => mkVectorRow (if (i =? 11)%nat then "R"
                             else if (i =? 38)%nat then "P"
                             else fillerId "v" i)
                            "person" (1 # 2))
      (seq 0 39).

Definition roundingKeyword : list KeywordRow :=
  map (fun i => mkKeywordRow (if (i =? 5)%nat then "P"
                              else if (i =? 27)%nat then "R"
                              else fillerId "k" i)
                             "person" 1)
      (seq 0 28).

(** An entity as [create_entities] writes it: the observations are one JSON
    text. *)
Definition storedWillie : EntityNode :=
  node "Willie" (PString (stringify ["likes tea"; "green tea"; "tea time"]))
       None.

Definition storedGraph : Graph :=
  {| nodes := [storedWillie]; relationships := [];
     queryNodes := fun _ _ => Some [] |}.

(** The query text [","]. *)
Definition quotedComma : string :=
  String dquote (String "," (String dquote EmptyString)).

End Examples.

(** * Properties *)

(** ** The map *)

Section MapFacts.
Context {V : Type}.
Implicit Types (m : Js.Map V) (key : string) (v : V).

Lemma get_set_same m key v : Js.get (Js.set m key v) key = Some v.
Proof.
  induction m as [|[k v'] m IH]; simpl.
  - now rewrite String.eqb_refl.
  - destruct (String.eqb k key) eqn:E; simpl; rewrite E; auto.
Qed.

Lemma get_set_other m key key' v :
  key <> key' -> Js.get (Js.set m key v) key' = Js.get m key'.
Proof.
  intros Hne. induction m as [|[k v'] m IH]; simpl.
  - destruct (String.eqb key key') eqn:E; auto.
    apply String.eqb_eq in E. contradiction.
  - destruct (String.eqb k key) eqn:E; simpl.
    + apply String.eqb_eq in E. subst k.
      destruct (String.eqb key key') eqn:E'; auto.
      apply String.eqb_eq in E'. contradiction.
    + now rewrite IH.
Qed.

Lemma get_None_keys m key : Js.get m key = None <-> ~ In key (Js.keys m).
Proof.
  induction m as [|[k v'] m IH]; simpl.
  - tauto.
  - destruct (String.eqb k key) eqn:E.
    + apply String.eqb_eq in E. split; [discriminate | tauto].
    + apply String.eqb_neq in E. rewrite IH. tauto.
Qed.

Lemma keys_set_absent m key v :
  Js.get m key = None -> Js.keys (Js.set m key v) = Js.keys m ++ [key].
Proof.
  induction m as [|[k v'] m IH]; simpl; auto.
  destruct (String.eqb k key) eqn:E; [discriminate|].
  intros H. simpl. now rewrite (IH H).
Qed.

Lemma keys_set_present m key v :
  Js.get m key <> None -> Js.keys (Js.set m key v) = Js.keys m.
Proof.
  induction m as [|[k v'] m IH]; simpl; [congruence|].
  destruct (String.eqb k key) eqn:E; simpl; auto.
  intros H. now rewrite (IH H).
Qed.
End MapFacts.

Lemma keys_set_add_key {V : Type} (m : Js.Map V) key v :
  Js.keys (Js.set m key v) = add_key (Js.keys m) key.
Proof.
  unfold add_key. destruct (in_dec string_dec key (Js.keys m)) as [Hin|Hin].
  - apply keys_set_present. intros H. apply get_None_keys in H. contradiction.
  - apply keys_set_absent. now apply get_None_keys.
Qed.

Lemma keys_addVectorResult rrfK record index m :
  Js.keys (addVectorResult rrfK record index m) = add_key (Js.keys m) (v_id record).
Proof. apply keys_set_add_key. Qed.

Lemma keys_addKeywordResult rrfK record index m :
  Js.keys (addKeywordResult rrfK record index m) = add_key (Js.keys m) (k_id record).
Proof.
  unfold addKeywordResult. destruct (Js.get m (k_id record)); apply keys_set_add_key.
Qed.

Lemma keys_forEach_vector rrfK rs : forall index m,
  Js.keys (Js.forEach (addVectorResult rrfK) rs index m)
  = fold_left add_key (map v_id rs) (Js.keys m).
Proof.
  induction rs as [|r rs IH]; intros; simpl; auto.
  now rewrite IH, keys_addVectorResult.
Qed.

Lemma keys_forEach_keyword rrfK rs : forall index m,
  Js.keys (Js.forEach (addKeywordResult rrfK) rs index m)
  = fold_left add_key (map k_id rs) (Js.keys m).
Proof.
  induction rs as [|r rs IH]; intros; simpl; auto.
  now rewrite IH, keys_addKeywordResult.
Qed.

Lemma keys_rrfScores rrfK vs ks :
  Js.keys (rrfScores rrfK vs ks)
  = fold_left add_key (map v_id vs ++ map k_id ks) [].
Proof.
  unfold rrfScores.
  now rewrite keys_forEach_keyword, keys_forEach_vector, fold_left_app.
Qed.

(** ** First-seen positions *)

Lemma first_index_in id ids : In id ids -> (first_index id ids < List.length ids)%nat.
Proof.
  induction ids as [|x ids IH]; simpl; [tauto|].
  destruct (String.eqb x id) eqn:E; [lia|].
  apply String.eqb_neq in E. intros [H|H]; [contradiction|].
  specialize (IH H). lia.
Qed.

Lemma first_index_app_in id l1 l2 :
  In id l1 -> first_index id (l1 ++ l2) = first_index id l1.
Proof.
  induction l1 as [|x l1 IH]; simpl; [tauto|].
  destruct (String.eqb x id) eqn:E; auto.
  apply String.eqb_neq in E. intros [H|H]; [contradiction|]. now rewrite IH.
Qed.

Lemma first_index_app_notin id l1 l2 :
  ~ In id l1 ->
  first_index id (l1 ++ l2) = (List.length l1 + first_index id l2)%nat.
Proof.
  induction l1 as [|x l1 IH]; simpl; auto.
  intros H. destruct (String.eqb x id) eqn:E.
  - apply String.eqb_eq in E. tauto.
  - rewrite IH; tauto.
Qed.

Lemma StronglySorted_snoc {A : Type} (R : A -> A -> Prop) l x :
  StronglySorted R l -> Forall (fun y => R y x) l -> StronglySorted R (l ++ [x]).
Proof.
  induction 1 as [|y l Hs IH Hy]; intros Hall; simpl.
  - repeat constructor.
  - inversion Hall; subst. constructor; auto.
    apply Forall_app. split; auto.
Qed.

Lemma StronglySorted_map_inv {A B : Type} (f : A -> B) (R : B -> B -> Prop) l :
  StronglySorted R (map f l) -> StronglySorted (fun a b => R (f a) (f b)) l.
Proof.
  induction l as [|x l IH]; simpl; intros H; [constructor|].
  inversion H; subst. constructor; auto.
  now apply Forall_map.
Qed.

Lemma StronglySorted_nth {A : Type} (R : A -> A -> Prop) l :
  StronglySorted R l ->
  forall p q a b, (p < q)%nat ->
    nth_error l p = Some a -> nth_error l q = Some b -> R a b.
Proof.
  induction 1 as [|x l Hs IH Hx]; intros p q a b Hpq Ha Hb.
  - destruct p; discriminate.
  - destruct q as [|q]; [lia|]. simpl in Hb.
    destruct p as [|p]; simpl in Ha.
    + injection Ha as <-. apply nth_error_In in Hb.
      rewrite Forall_forall in Hx. auto.
    + apply (IH p q); auto. lia.
Qed.

(** The keys collected from [todo], after those of [done], are in
    first-seen order. *)
Lemma add_key_first_seen todo : forall done ks,
  (forall x, In x ks <-> In x done) ->
  StronglySorted
    (fun a b => (first_index a (done ++ todo) < first_index b (done ++ todo))%nat) ks ->
  StronglySorted
    (fun a b => (first_index a (done ++ todo) < first_index b (done ++ todo))%nat)
    (fold_left add_key todo ks).
Proof.
  induction todo as [|x todo IH]; intros done ks Hks Hs; simpl; auto.
  replace (done ++ x :: todo) with ((done ++ [x]) ++ todo) in *
    by (now rewrite <- app_assoc).
  apply IH.
  - intros y. unfold add_key.
    destruct (in_dec string_dec x ks) as [Hin|Hin]; rewrite ?in_app_iff; simpl.
    + rewrite Hks. split; [tauto|]. intros [H|[H|[]]]; auto.
      subst y. now apply Hks.
    + rewrite Hks. tauto.
  - unfold add_key. destruct (in_dec string_dec x ks) as [Hin|Hin]; auto.
    apply StronglySorted_snoc; auto.
    apply Forall_forall. intros y Hy.
    assert (Hyd : In y done) by now apply Hks.
    assert (Hxd : ~ In x done) by (intros H; apply Hin; now apply Hks).
    rewrite <- app_assoc. simpl.
    rewrite (first_index_app_in y done _ Hyd).
    rewrite (first_index_app_notin x done _ Hxd). simpl.
    rewrite String.eqb_refl.
    pose proof (first_index_in y done Hyd). lia.
Qed.

(** ** The stable sort by fused score *)

Local Open Scope Q_scope.

Lemma in_insert {A : Type} (positive : A -> A -> bool) x y l :
  In y (Js.insert positive x l) <-> y = x \/ In y l.
Proof.
  induction l as [|z l IH]; simpl.
  - intuition.
  - destruct (positive x z); simpl; rewrite ?IH; intuition.
Qed.

Lemma in_sort {A : Type} (positive : A -> A -> bool) y l :
  In y (Js.sort positive l) <-> In y l.
Proof.
  induction l as [|x l IH]; simpl; [tauto|].
  rewrite in_insert, IH. intuition.
Qed.

Lemma nth_error_firstn_Some {A : Type} n (l : list A) p a :
  nth_error (firstn n l) p = Some a -> nth_error l p = Some a.
Proof.
  revert n l. induction p as [|p IH]; intros [|n] [|x l]; simpl; try discriminate; auto.
  apply IH.
Qed.

Lemma nth_error_slice0 {A : Type} (l : list A) e p a :
  nth_error (Js.slice0 l e) p = Some a -> nth_error l p = Some a.
Proof. unfold Js.slice0. destruct (e <? 0)%Z; apply nth_error_firstn_Some. Qed.

(** ** Scores left in the map by the two loops *)

Lemma scoreIs_eq m id q q' : scoreIs m id q -> q == q' -> scoreIs m id q'.
Proof. intros [e [H1 H2]] H. exists e. split; auto. now rewrite H2. Qed.

Lemma rrfScore_pos rrfK index : (0 < rrfK)%Z -> 0 < rrfScore rrfK index.
Proof.
  intros Hk. unfold rrfScore, Qdiv. rewrite Qmult_1_l.
  apply Qinv_lt_0_compat. unfold Qlt. simpl. lia.
Qed.

Lemma lastRank_notin vs : forall index id,
  ~ In id (map v_id vs) -> lastRank vs index id = None.
Proof.
  induction vs as [|r vs IH]; intros index id Hin; simpl in *; auto.
  rewrite IH by tauto.
  destruct (String.eqb (v_id r) id) eqn:E; auto.
  apply String.eqb_eq in E. tauto.
Qed.

Lemma lastRank_in vs : forall index id,
  In id (map v_id vs) -> exists j, lastRank vs index id = Some j.
Proof.
  induction vs as [|r vs IH]; intros index id Hin; simpl in *; [tauto|].
  destruct (lastRank vs (S index) id) as [j|] eqn:E; [eauto|].
  destruct (String.eqb (v_id r) id) eqn:E'; [eauto|].
  apply String.eqb_neq in E'. destruct Hin as [H|H]; [contradiction|].
  destruct (IH (S index) id H) as [j Hj]. congruence.
Qed.

Lemma lastRank_NoDup vs : forall index id i,
  NoDup (map v_id vs) -> nth_error (map v_id vs) i = Some id ->
  lastRank vs index id = Some (index + i)%nat.
Proof.
  induction vs as [|r vs IH]; intros index id i Hnd Hi; simpl in *.
  - destruct i; discriminate.
  - inversion Hnd as [|? ? Hnotin Hnd']; subst. destruct i as [|i]; simpl in Hi.
    + injection Hi as <-. rewrite lastRank_notin by assumption.
      rewrite String.eqb_refl. f_equal. lia.
    + rewrite (IH (S index) id i Hnd' Hi). f_equal. lia.
Qed.

Lemma vector_loop_score rrfK vs : forall index m id,
  match lastRank vs index id with
  | Some j => scoreIs (Js.forEach (addVectorResult rrfK) vs index m) id (rrfScore rrfK j)
  | None => Js.get (Js.forEach (addVectorResult rrfK) vs index m) id = Js.get m id
  end.
Proof.
  induction vs as [|r vs IH]; intros index m id; simpl; auto.
  specialize (IH (S index) (addVectorResult rrfK r index m) id).
  destruct (lastRank vs (S index) id) as [j|]; auto.
  destruct (String.eqb (v_id r) id) eqn:E.
  - apply String.eqb_eq in E. subst id. unfold scoreIs. rewrite IH.
    unfold addVectorResult. rewrite get_set_same.
    eexists. split; [reflexivity|]. simpl. reflexivity.
  - apply String.eqb_neq in E. rewrite IH. unfold addVectorResult.
    now apply get_set_other.
Qed.

Lemma keywordSum_nonneg rrfK ks : (0 < rrfK)%Z ->
  forall index id, 0 <= keywordSum rrfK ks index id.
Proof.
  intros Hk. induction ks as [|r ks IH]; intros index id; simpl; [lra|].
  specialize (IH (S index) id). pose proof (rrfScore_pos rrfK index Hk).
  destruct (String.eqb (k_id r) id); lra.
Qed.

Lemma keywordSum_pos rrfK ks : (0 < rrfK)%Z ->
  forall index id, In id (map k_id ks) -> 0 < keywordSum rrfK ks index id.
Proof.
  intros Hk. induction ks as [|r ks IH]; intros index id Hin; simpl in *; [tauto|].
  pose proof (rrfScore_pos rrfK index Hk).
  pose proof (keywordSum_nonneg rrfK ks Hk (S index) id).
  destruct (String.eqb (k_id r) id) eqn:E; [lra|].
  apply String.eqb_neq in E. destruct Hin as [Hin|Hin]; [contradiction|].
  specialize (IH (S index) id Hin). lra.
Qed.

Lemma keywordSum_notin rrfK ks : forall index id,
  ~ In id (map k_id ks) -> keywordSum rrfK ks index id == 0.
Proof.
  induction ks as [|r ks IH]; intros index id Hin; simpl in *; [reflexivity|].
  rewrite IH by tauto.
  destruct (String.eqb (k_id r) id) eqn:E; [|reflexivity].
  apply String.eqb_eq in E. tauto.
Qed.

Lemma keywordSum_NoDup rrfK ks : forall index id j,
  NoDup (map k_id ks) -> nth_error (map k_id ks) j = Some id ->
  keywordSum rrfK ks index id == rrfScore rrfK (index + j).
Proof.
  induction ks as [|r ks IH]; intros index id j Hnd Hj; simpl in *.
  - destruct j; discriminate.
  - inversion Hnd as [|? ? Hnotin Hnd']; subst. destruct j as [|j]; simpl in Hj.
    + injection Hj as <-. rewrite String.eqb_refl.
      rewrite (keywordSum_notin rrfK ks (S index) _ Hnotin).
      rewrite Nat.add_0_r. lra.
    + assert (E : String.eqb (k_id r) id = false).
      { apply String.eqb_neq. intros Heq. subst id. apply Hnotin.
        now apply nth_error_In in Hj. }
      rewrite E, (IH (S index) id j Hnd' Hj).
      replace (S index + j)%nat with (index + S j)%nat by lia. lra.
Qed.

Lemma keyword_step_present rrfK r index m q :
  scoreIs m (k_id r) q ->
  scoreIs (addKeywordResult rrfK r index m) (k_id r) (q + rrfScore rrfK index).
Proof.
  intros [e [He Hq]]. unfold addKeywordResult, scoreIs. rewrite He.
  rewrite get_set_same. eexists. split; [reflexivity|]. simpl. now rewrite Hq.
Qed.

Lemma keyword_step_absent rrfK r index m :
  Js.get m (k_id r) = None ->
  scoreIs (addKeywordResult rrfK r index m) (k_id r) (rrfScore rrfK index).
Proof.
  intros He. unfold addKeywordResult, scoreIs. rewrite He.
  rewrite get_set_same. eexists. split; reflexivity.
Qed.

Lemma keyword_step_other rrfK r index m id :
  k_id r <> id -> Js.get (addKeywordResult rrfK r index m) id = Js.get m id.
Proof.
  intros Hne. unfold addKeywordResult.
  destruct (Js.get m (k_id r)); now apply get_set_other.
Qed.

Lemma keyword_loop_present rrfK ks : forall index m id q,
  scoreIs m id q ->
  scoreIs (Js.forEach (addKeywordResult rrfK) ks index m) id
          (q + keywordSum rrfK ks index id).
Proof.
  induction ks as [|r ks IH]; intros index m id q Hq; simpl.
  - apply (scoreIs_eq _ _ q); auto. lra.
  - destruct (String.eqb (k_id r) id) eqn:E.
    + apply String.eqb_eq in E. subst id.
      apply (scoreIs_eq _ _ ((q + rrfScore rrfK index)
                             + keywordSum rrfK ks (S index) (k_id r))); [|lra].
      apply IH. now apply keyword_step_present.
    + apply String.eqb_neq in E.
      apply (scoreIs_eq _ _ (q + keywordSum rrfK ks (S index) id)); [|lra].
      apply IH. destruct Hq as [e [He Hq]]. exists e. split; auto.
      now rewrite keyword_step_other.
Qed.

Lemma keyword_loop_absent rrfK ks : forall index m id,
  Js.get m id = None ->
  (In id (map k_id ks) ->
   scoreIs (Js.forEach (addKeywordResult rrfK) ks index m) id
           (keywordSum rrfK ks index id))
  /\ (~ In id (map k_id ks) ->
      Js.get (Js.forEach (addKeywordResult rrfK) ks index m) id = None).
Proof.
  induction ks as [|r ks IH]; intros index m id Hm; simpl.
  - split; tauto.
  - destruct (String.eqb (k_id r) id) eqn:E.
    + apply String.eqb_eq in E. subst id. split; [|tauto]. intros _.
      apply keyword_loop_present. now apply keyword_step_absent.
    + apply String.eqb_neq in E.
      assert (Hm' : Js.get (addKeywordResult rrfK r index m) id = None)
        by now rewrite keyword_step_other.
      destruct (IH (S index) _ id Hm') as [IH1 IH2]. split.
      * intros [H|H]; [contradiction|].
        apply (scoreIs_eq _ _ (keywordSum rrfK ks (S index) id)); auto. lra.
      * intros H. apply IH2. tauto.
Qed.

(** ** Rank fusion: the claims *)

Lemma fusedScore_of_scoreIs rrfK vs ks id q :
  scoreIs (rrfScores rrfK vs ks) id q ->
  exists s, fusedScore rrfK vs ks id = Some s /\ s == q.
Proof.
  intros [e [He Hq]]. exists (score e). unfold fusedScore. now rewrite He.
Qed.

Lemma vector_loop_scoreIs rrfK vs id i :
  lastRank vs 0 id = Some i ->
  scoreIs (Js.forEach (addVectorResult rrfK) vs 0 []) id (rrfScore rrfK i).
Proof.
  intros H. pose proof (vector_loop_score rrfK vs 0%nat [] id) as Hv.
  now rewrite H in Hv.
Qed.

Lemma vector_loop_absent rrfK vs id :
  ~ In id (map v_id vs) ->
  Js.get (Js.forEach (addVectorResult rrfK) vs 0 []) id = None.
Proof.
  intros H. pose proof (vector_loop_score rrfK vs 0%nat [] id) as Hv.
  now rewrite (lastRank_notin vs 0 id H) in Hv.
Qed.

(** C1 (as amended).  When no identifier is repeated within the vector list
    or within the keyword list: an identifier at zero-based rank [i] of the
    vector list and rank [j] of the keyword list has fused score
    [1/(k+i+1) + 1/(k+j+1)]; an identifier in exactly one of the lists, at
    rank [i], has fused score [1/(k+i+1)]. *)
Theorem fused_score_formula (k : Z) (vs : list VectorRow) (ks : list KeywordRow)
        (id : string) :
  NoDup (map v_id vs) -> NoDup (map k_id ks) ->
  (forall i j,
      nth_error (map v_id vs) i = Some id ->
      nth_error (map k_id ks) j = Some id ->
      exists s, fusedScore k vs ks id = Some s
                /\ s == 1 / inject_Z (k + Z.of_nat i + 1)
                        + 1 / inject_Z (k + Z.of_nat j + 1))
  /\ (forall i,
         nth_error (map v_id vs) i = Some id -> ~ In id (map k_id ks) ->
         exists s, fusedScore k vs ks id = Some s
                   /\ s == 1 / inject_Z (k + Z.of_nat i + 1))
  /\ (forall j,
         ~ In id (map v_id vs) -> nth_error (map k_id ks) j = Some id ->
         exists s, fusedScore k vs ks id = Some s
                   /\ s == 1 / inject_Z (k + Z.of_nat j + 1)).
Proof.
  intros Hv Hk. repeat split.
  - intros i j Hi Hj. apply fusedScore_of_scoreIs.
    apply (scoreIs_eq _ _ (rrfScore k i + keywordSum k ks 0 id)).
    + apply keyword_loop_present, vector_loop_scoreIs.
      now rewrite (lastRank_NoDup vs 0 id i Hv Hi).
    + rewrite (keywordSum_NoDup k ks 0 id j Hk Hj). reflexivity.
  - intros i Hi Hnot. apply fusedScore_of_scoreIs.
    apply (scoreIs_eq _ _ (rrfScore k i + keywordSum k ks 0 id)).
    + apply keyword_loop_present, vector_loop_scoreIs.
      now rewrite (lastRank_NoDup vs 0 id i Hv Hi).
    + rewrite (keywordSum_notin k ks 0 id Hnot). unfold rrfScore. lra.
  - intros j Hnot Hj. apply fusedScore_of_scoreIs.
    apply (scoreIs_eq _ _ (keywordSum k ks 0 id)).
    + apply keyword_loop_absent.
      * now apply vector_loop_absent.
      * now apply nth_error_In in Hj.
    + rewrite (keywordSum_NoDup k ks 0 id j Hk Hj). reflexivity.
Qed.

(** C1, the claim as stated fails: in the vector list [A, A] the identifier
    [A] is at rank 0 and in no other list, and its fused score is not
    [1/(60+0+1)]: the second [set] overwrote the first. *)
Lemma fused_score_formula_fails_on_repeated_id :
  nth_error (map v_id Examples.repeatedVector) 0 = Some "A"
  /\ ~ In "A" (map k_id (@nil KeywordRow))
  /\ ~ (exists s, fusedScore 60 Examples.repeatedVector [] "A" = Some s
                  /\ s == 1 / inject_Z (60 + Z.of_nat 0 + 1)).
Proof.
  split; [reflexivity|]. split; [simpl; tauto|].
  intros [s [Hs Heq]]. vm_compute in Hs. injection Hs as <-.
  vm_compute in Heq. discriminate.
Qed.

(** C2.  For [k > 0], an identifier present in both lists has a fused score
    strictly greater than the score it gets from the vector list alone and
    than the score it gets from the keyword list alone. *)
Theorem both_lists_boost (k : Z) (vs : list VectorRow) (ks : list KeywordRow)
        (id : string) :
  (0 < k)%Z -> In id (map v_id vs) -> In id (map k_id ks) ->
  exists s sv sk,
    fusedScore k vs ks id = Some s
    /\ fusedScore k vs [] id = Some sv
    /\ fusedScore k [] ks id = Some sk
    /\ sv < s /\ sk < s.
Proof.
  intros Hk Hv Hks.
  destruct (lastRank_in vs 0 id Hv) as [i Hi].
  pose proof (vector_loop_scoreIs k vs id i Hi) as Hvec.
  destruct (fusedScore_of_scoreIs k vs ks id _
              (keyword_loop_present k ks 0 _ id _ Hvec)) as [s [Hs Hs']].
  destruct (fusedScore_of_scoreIs k vs [] id _ Hvec) as [sv [Hsv Hsv']].
  destruct (keyword_loop_absent k ks 0 [] id eq_refl) as [Hkw _].
  destruct (fusedScore_of_scoreIs k [] ks id _ (Hkw Hks)) as [sk [Hsk Hsk']].
  exists s, sv, sk. repeat split; auto.
  - pose proof (keywordSum_pos k ks Hk 0 id Hks). lra.
  - pose proof (rrfScore_pos k i Hk). lra.
Qed.

Lemma fused_score_formula_witness :
  NoDup (map v_id Examples.scenarioVector)
  /\ NoDup (map k_id Examples.scenarioKeyword)
  /\ exists s, fusedScore 60 Examples.scenarioVector Examples.scenarioKeyword "B"
               = Some s
               /\ s == 1 / inject_Z (60 + Z.of_nat 1 + 1)
                       + 1 / inject_Z (60 + Z.of_nat 0 + 1).
Proof.
  assert (Hv : NoDup (map v_id Examples.scenarioVector)).
  { simpl. repeat constructor; simpl; intuition discriminate. }
  assert (Hk : NoDup (map k_id Examples.scenarioKeyword)).
  { simpl. repeat constructor; simpl; intuition discriminate. }
  split; [exact Hv|]. split; [exact Hk|].
  exact (proj1 (fused_score_formula 60 Examples.scenarioVector
                  Examples.scenarioKeyword "B" Hv Hk)
               1%nat 0%nat eq_refl eq_refl).
Defined.

Lemma both_lists_boost_witness :
  (0 < 60)%Z
  /\ In "B" (map v_id Examples.scenarioVector)
  /\ In "B" (map k_id Examples.scenarioKeyword)
  /\ exists s sv sk,
      fusedScore 60 Examples.scenarioVector Examples.scenarioKeyword "B" = Some s
      /\ fusedScore 60 Examples.scenarioVector [] "B" = Some sv
      /\ fusedScore 60 [] Examples.scenarioKeyword "B" = Some sk
      /\ sv < s /\ sk < s.
Proof.
  assert (Hk : (0 < 60)%Z) by reflexivity.
  assert (Hv : In "B" (map v_id Examples.scenarioVector))
    by (simpl; right; left; reflexivity).
  assert (Hks : In "B" (map k_id Examples.scenarioKeyword))
    by (simpl; left; reflexivity).
  split; [exact Hk|]. split; [exact Hv|]. split; [exact Hks|].
  exact (both_lists_boost 60 Examples.scenarioVector Examples.scenarioKeyword
                          "B" Hk Hv Hks).
Defined.

(** C3 (as amended).  Vector list [A, B, C], keyword list [B, D], [k = 60]:
    the fused order is [B] (1/62 + 1/61 = 0.032522...), [A] (1/61 =
    0.016393...), [D] (1/62 = 0.016129...), [C] (1/63 = 0.015873...); no two
    scores are equal. *)
Theorem scenario_ranking :
  Examples.ranking
    (sortedResults 60 10 Examples.scenarioVector Examples.scenarioKeyword)
  = [ ("B", 123 # 3782); ("A", 1 # 61); ("D", 1 # 62); ("C", 1 # 63) ]
  /\ (123 # 3782) == 1 / 62 + 1 / 61
  /\ (32522 # 1000000) < (123 # 3782) < (32523 # 1000000)
  /\ (16393 # 1000000) < (1 # 61) < (16394 # 1000000)
  /\ (16129 # 1000000) < (1 # 62) < (16130 # 1000000)
  /\ (15873 # 1000000) < (1 # 63) < (15874 # 1000000).
Proof.
  split; [vm_compute; reflexivity|].
  split; [vm_compute; reflexivity|].
  repeat split; vm_compute; reflexivity.
Qed.

(** C3, the claim as stated fails: the ranking is not [B] at 0.032796...,
    then [A] and [D] tied at 0.016393..., then [C] at 0.015873.... *)
Lemma scenario_as_claimed_fails :
  ~ (exists sB sA sD sC,
        Examples.ranking
          (sortedResults 60 10 Examples.scenarioVector Examples.scenarioKeyword)
        = [ ("B", sB); ("A", sA); ("D", sD); ("C", sC) ]
        /\ (32796 # 1000000) <= sB < (32797 # 1000000)
        /\ sA == sD
        /\ (16393 # 1000000) <= sA < (16394 # 1000000)
        /\ (15873 # 1000000) <= sC < (15874 # 1000000)).
Proof.
  intros (sB & sA & sD & sC & Hr & _ & Htie & _).
  vm_compute in Hr. injection Hr as <- <- <- <-.
  vm_compute in Htie. discriminate.
Qed.

(** ** The search as a whole *)

Lemma query_ok {T : Type} neo4j statement (answer : Graph -> option (list T)) rows :
  responseOk neo4j statement = true ->
  answer (server neo4j) = Some rows ->
  query neo4j statement answer = ([statement], Fulfilled rows).
Proof. intros Hok Hrows. unfold query. now rewrite Hok, Hrows. Qed.


(** The run of [hybridSearchWithRRF] once both rankers have answered. *)
Lemma hybridSearch_run JSON_parse neo4j queryVector queryText options
      startTime endTime vs ks :
  responseOk neo4j SentVector = true ->
  responseOk neo4j SentKeyword = true ->
  vectorStatement (server neo4j)
                  (Js.or_default_Z (opt_limit options) 10 * 2) queryVector
  = Some vs ->
  keywordStatement (server neo4j) queryText
                   (Js.or_default_Z (opt_limit options) 10 * 2)
  = Some ks ->
  hybridSearchWithRRF JSON_parse neo4j queryVector queryText options
                      startTime endTime
  = let sorted := sortedResults (Js.or_default_Z (opt_rrfK options) 60)
                                (Js.or_default_Z (opt_limit options) 10) vs ks in
    if (List.length sorted =? 0)%nat
    then ([SentVector; SentKeyword], Fulfilled (emptyResult (endTime - startTime)))
    else ([SentVector; SentKeyword]
            ++ fst (hydrate JSON_parse neo4j (map fst sorted) (endTime - startTime)),
          snd (hydrate JSON_parse neo4j (map fst sorted) (endTime - startTime))).
Proof.
  intros Hv Hk Hvs Hks. unfold hybridSearchWithRRF.
  rewrite (query_ok neo4j SentVector (fun g => vectorStatement g _ queryVector)
                    vs Hv Hvs).
  rewrite (query_ok neo4j SentKeyword (fun g => keywordStatement g queryText _)
                    ks Hk Hks).
  unfold bind. cbn [fst snd]. cbv zeta.
  destruct (List.length _ =? 0)%nat; reflexivity.
Qed.






(** ** The keyword statement *)

Lemma prefix_spec q : forall s,
  String.prefix q s = true <-> exists b, s = (q ++ b)%string.
Proof.
  induction q as [|c q IH]; intros s; simpl.
  - split; [intros _; now exists s | intros _; now destruct s].
  - destruct s as [|d s]; simpl.
    + split; [discriminate | intros [b Hb]; discriminate].
    + destruct (ascii_dec c d) as [Heq|Hne].
      * subst d. rewrite IH. split; intros [b Hb]; exists b; congruence.
      * split; [discriminate | intros [b Hb]; congruence].
Qed.

Lemma contains_unfold s q :
  Cypher.contains s q
  = (String.prefix q s
     || match s with
        | EmptyString => false
        | String _ rest => Cypher.contains rest q
        end)%bool.
Proof. destruct s; reflexivity. Qed.

(** [Cypher.contains s q] holds exactly when [q] is a substring of [s]. *)
Lemma contains_spec q : forall s,
  Cypher.contains s q = true <-> exists a b, s = (a ++ q ++ b)%string.
Proof.
  induction s as [|c s IH]; rewrite contains_unfold, Bool.orb_true_iff, prefix_spec.
  - split.
    + intros [[b Hb]|H]; [|discriminate]. exists EmptyString, b. exact Hb.
    + intros [a [b Hab]]. left. exists b. destruct a; [exact Hab | discriminate].
  - rewrite IH. split.
    + intros [[b Hb]|[a [b Hab]]].
      * exists EmptyString, b. exact Hb.
      * exists (String c a), b. simpl. now rewrite Hab.
    + intros [a [b Hab]]. destruct a as [|d a]; simpl in Hab.
      * left. now exists b.
      * right. exists a, b. congruence.
Qed.

Lemma keywordScore_ge_1 queryText e : 1 <= keywordScore queryText e.
Proof.
  unfold keywordScore, nameBoost.
  assert (0 <= inject_Z (Z.of_nat (obsMatches queryText e))).
  { unfold Qle. simpl. lia. }
  destruct (nameMatches queryText e); nra.
Qed.

Lemma candidateNodes_spec g queryText e :
  In e (candidateNodes g queryText)
  <-> In e (nodes g) /\ keywordMatch queryText e = true.
Proof.
  unfold candidateNodes. rewrite !filter_In. split; [tauto|].
  intros [Hin Hm]. split; auto.
  pose proof (keywordScore_ge_1 queryText e) as H1.
  assert (H0 : 0 < keywordScore queryText e) by lra.
  assert (Hlt : (0 ?= keywordScore queryText e) = Lt)
    by exact (proj1 (Qlt_alt _ _) H0).
  now rewrite Hlt.
Qed.

Lemma length_insert {A : Type} (positive : A -> A -> bool) x l :
  List.length (Js.insert positive x l) = S (List.length l).
Proof.
  induction l as [|y l IH]; simpl; auto. destruct (positive x y); simpl; auto.
Qed.

Lemma length_sort {A : Type} (positive : A -> A -> bool) l :
  List.length (Js.sort positive l) = List.length l.
Proof.
  induction l as [|x l IH]; simpl; auto. now rewrite length_insert, IH.
Qed.

Lemma in_firstn {A : Type} n : forall (l : list A) x,
  In x (firstn n l) -> In x l.
Proof.
  induction n as [|n IH]; intros [|y l] x; simpl; try tauto.
  intros [H|H]; auto.
Qed.

(** The answer of the keyword statement on a store with one entity. *)
Lemma keywordStatement_single (g : Graph) (e : EntityNode)
      (queryText : string) :
  keywordStatement {| nodes := [e]; relationships := relationships g;
                      queryNodes := queryNodes g |} queryText 20
  = Some (if keywordMatch queryText e then [keywordRow queryText e] else []).
Proof.
  unfold keywordStatement, keywordCandidates, candidateNodes.
  cbn [Z.ltb Z.compare nodes filter].
  destruct (keywordMatch queryText e); [|reflexivity].
  cbn [filter].
  pose proof (keywordScore_ge_1 queryText e) as H1.
  assert (H0 : 0 < keywordScore queryText e) by lra.
  rewrite (proj1 (Qlt_alt _ _) H0). reflexivity.
Qed.

(** C6, what the code does.  The statement counts the elements of
    [e.observations] that contain the query text.  The entities this
    repository writes hold their observations as one JSON text
    ([JSON.stringify(observations)]), which the statement takes as a list of
    that one text: such an entity is a candidate when its name or that text
    contains the query, it gets half a point at most, however many of
    its observations match, and on a store that holds it alone the keyword
    statement answers with its row or with no row accordingly.  At the
    failing input an entity with three
    observations that all contain [tea], and a name that does not, is
    returned with the score 1.5 where the rule gives 2.5; and it is returned
    for the query [","], which neither its name nor any of its observations
    contains. *)
Theorem stored_observations_count_once :
  (forall (name entityType text id : string) (version createdAt updatedAt : Z)
          (validTo : option Z) (queryText : string),
      obsMatches queryText
                 (mkEntityNode name entityType (PString text) id version
                               createdAt updatedAt validTo)
      = (if Cypher.contains text queryText then 1 else 0)%nat
      /\ keywordMatch queryText
                      (mkEntityNode name entityType (PString text) id version
                                    createdAt updatedAt validTo)
         = Cypher.contains name queryText || Cypher.contains text queryText
      /\ keywordScore queryText
                      (mkEntityNode name entityType (PString text) id version
                                    createdAt updatedAt validTo)
         == (if Cypher.contains name queryText then 2 else 1)
            + (if Cypher.contains text queryText then 1 # 2 else 0)
      /\ forall g,
          keywordStatement
            {| nodes := [mkEntityNode name entityType (PString text) id
                                      version createdAt updatedAt validTo];
               relationships := relationships g;
               queryNodes := queryNodes g |} queryText 20
          = Some (if Cypher.contains name queryText
                     || Cypher.contains text queryText
                  then [keywordRow queryText
                          (mkEntityNode name entityType (PString text) id
                                        version createdAt updatedAt validTo)]
                  else []))
  /\ node_observations Examples.storedWillie
     = PString (stringify ["likes tea"; "green tea"; "tea time"])
  /\ parseStringArray (toString (node_observations Examples.storedWillie))
     = Some (Js.JArray [Js.JString "likes tea"; Js.JString "green tea";
                        Js.JString "tea time"])
  /\ Forall (fun obs => Cypher.contains obs "tea" = true)
            ["likes tea"; "green tea"; "tea time"]
  /\ Cypher.contains (node_name Examples.storedWillie) "tea" = false
  /\ (exists rows,
         keywordStatement Examples.storedGraph "tea" 20 = Some rows
         /\ map k_id rows = ["Willie"]
         /\ Forall (fun row => bm25Score row == 3 # 2) rows)
  /\ Forall (fun obs => Cypher.contains obs Examples.quotedComma = false)
            ["likes tea"; "green tea"; "tea time"]
  /\ Cypher.contains (node_name Examples.storedWillie) Examples.quotedComma
     = false
  /\ exists rows,
      keywordStatement Examples.storedGraph Examples.quotedComma 20 = Some rows
      /\ map k_id rows = ["Willie"].
Proof.
  split.
  { intros name entityType text id version createdAt updatedAt validTo
           queryText.
    assert (Hm : keywordMatch queryText
                   (mkEntityNode name entityType (PString text) id version
                                 createdAt updatedAt validTo)
                 = Cypher.contains name queryText
                   || Cypher.contains text queryText).
    { unfold keywordMatch, nameMatches.
      cbn [node_name node_observations Cypher.asList existsb].
      now rewrite orb_false_r. }
    split; [|split; [exact Hm|split]].
    - unfold obsMatches. cbn [node_observations Cypher.asList filter].
      now destruct (Cypher.contains text queryText).
    - unfold keywordScore, nameBoost, nameMatches, obsMatches.
      cbn [node_name node_observations Cypher.asList filter].
      destruct (Cypher.contains name queryText),
               (Cypher.contains text queryText); reflexivity.
    - intros g. rewrite keywordStatement_single. now rewrite Hm. }
  split; [reflexivity|]. split; [reflexivity|].
  split; [repeat constructor|]. split; [reflexivity|].
  split.
  { eexists. split; [vm_compute; reflexivity|]. split; [reflexivity|].
    repeat constructor. }
  split; [repeat constructor|]. split; [reflexivity|].
  eexists. split; [vm_compute; reflexivity|]. reflexivity.
Qed.

(** ** Limits, hydration and recovery *)

(** C5 (as amended).  A [limit] of 0 is read as the default 10: on every
    call the search is the one run with no limit given, and the one run with
    limit 10.  When the two rankers answer, it resolves to the empty result
    (no entities, no relations, total 0) without sending a hydration
    statement if the fused candidate list is empty, and sends the entity
    statement if it is not. *)
Theorem zero_limit_is_default_limit
        (JSON_parse : string -> option Js.json) (neo4j : Neo4jHttpClient)
        (queryVector : list Q) (queryText : string) (options : SearchOptions)
        (startTime endTime : Z) :
  hybridSearchWithRRF JSON_parse neo4j queryVector queryText
                      (withLimit (Some 0%Z) options) startTime endTime
  = hybridSearchWithRRF JSON_parse neo4j queryVector queryText
                        (withLimit None options) startTime endTime
  /\ hybridSearchWithRRF JSON_parse neo4j queryVector queryText
                         (withLimit (Some 0%Z) options) startTime endTime
     = hybridSearchWithRRF JSON_parse neo4j queryVector queryText
                           (withLimit (Some 10%Z) options) startTime endTime
  /\ forall vs ks,
      responseOk neo4j SentVector = true ->
      responseOk neo4j SentKeyword = true ->
      vectorStatement (server neo4j) 20 queryVector = Some vs ->
      keywordStatement (server neo4j) queryText 20 = Some ks ->
      (sortedResults (Js.or_default_Z (opt_rrfK options) 60) 10 vs ks = [] ->
       hybridSearchWithRRF JSON_parse neo4j queryVector queryText
                           (withLimit (Some 0%Z) options) startTime endTime
       = ([SentVector; SentKeyword],
          Fulfilled {| entities := []; relations := []; total := 0;
                       timeTaken := endTime - startTime |}))
      /\ (sortedResults (Js.or_default_Z (opt_rrfK options) 60) 10 vs ks <> [] ->
          exists rest,
            fst (hybridSearchWithRRF JSON_parse neo4j queryVector queryText
                                     (withLimit (Some 0%Z) options)
                                     startTime endTime)
            = [SentVector; SentKeyword; SentEntities] ++ rest).
Proof.
  split; [reflexivity|]. split; [reflexivity|].
  intros vs ks Hv Hk Hvs Hks.
  rewrite (hybridSearch_run JSON_parse neo4j queryVector queryText
             (withLimit (Some 0%Z) options) startTime endTime vs ks Hv Hk Hvs Hks).
  cbv zeta. simpl opt_limit. simpl opt_rrfK. simpl Js.or_default_Z at 2.
  change (Js.or_default_Z (Some 0%Z) 10) with 10%Z.
  split.
  - intros Hsorted. now rewrite Hsorted.
  - intros Hsorted.
    destruct (sortedResults (Js.or_default_Z (opt_rrfK options) 60) 10 vs ks)
      as [|x l]; [contradiction|].
    cbn [List.length Nat.eqb fst]. unfold hydrate, bind, query. cbn [fst snd].
    destruct (responseOk neo4j SentEntities); cbn [fst snd app]; eauto.
Qed.

Lemma zero_limit_is_default_limit_witness :
  hybridSearchWithRRF parseStringArray Examples.emptyClient [] "tea"
                      (withLimit (Some 0%Z) Examples.noOptions) 0 5
  = ([SentVector; SentKeyword],
     Fulfilled {| entities := []; relations := []; total := 0; timeTaken := 5 - 0 |}).
Proof.
  exact (proj1 (proj2 (proj2 (zero_limit_is_default_limit
                                parseStringArray Examples.emptyClient [] "tea"
                                Examples.noOptions 0 5))
                      [] [] eq_refl eq_refl eq_refl eq_refl)
               eq_refl).
Defined.

(** C5, the claim as stated fails: with [limit = 0] and two ranked entities
    the search sends both hydration statements and returns both entities. *)
Lemma zero_limit_returns_entities :
  opt_limit Examples.limitZero = Some 0%Z
  /\ ~ (exists r,
           snd (hybridSearchWithRRF parseStringArray Examples.orderClient []
                                    "zzz" Examples.limitZero 0 5)
           = Fulfilled r
           /\ entities r = [] /\ relations r = [] /\ total r = 0%nat
           /\ ~ In SentEntities
                   (fst (hybridSearchWithRRF parseStringArray
                           Examples.orderClient [] "zzz" Examples.limitZero 0 5))
           /\ ~ In SentRelations
                   (fst (hybridSearchWithRRF parseStringArray
                           Examples.orderClient [] "zzz" Examples.limitZero 0 5))).
Proof.
  split; [reflexivity|].
  intros (r & Hr & He & _). vm_compute in Hr. injection Hr as <-.
  discriminate.
Qed.


(** C7, what the code does at the failing input: [X] is soft-deleted and a
    relationship from [X] to [Y] has no [validTo].  The search returns the
    relation [X -> Y] although [X] is not among the returned entities (and
    is not visible): the relation statement tests only the names and
    [r.validTo]. *)
Theorem relation_to_hidden_entity_returned :
  node_validTo Examples.nodeX = Some 5%Z
  /\ exists r,
      hybridSearchWithRRF parseStringArray Examples.staleClient [] "zzz"
                          Examples.noOptions 0 5
      = ([SentVector; SentKeyword; SentEntities; SentRelations], Fulfilled r)
      /\ map ent_name (entities r) = ["Y"]
      /\ relations r
         = [ {| r_from := "X"; r_to := "Y"; r_relationType := "knows" |} ]
      /\ ~ In "X" (map ent_name (entities r)).
Proof.
  split; [reflexivity|]. eexists. split; [vm_compute; reflexivity|].
  split; [reflexivity|]. split; [reflexivity|].
  simpl. intros [H|[]]. discriminate.
Qed.

(** C8, what the code does at the failing input: the store keeps [A] before
    [B], the fused order is [B, A], and the entities come back as [A, B]:
    the order of the entity statement's rows, not the fused order. *)
Theorem hydration_returns_store_order :
  exists vs r,
    vectorStatement (server Examples.orderClient) 20 [] = Some vs
    /\ keywordStatement (server Examples.orderClient) "zzz" 20 = Some []
    /\ map fst (sortedResults 60 10 vs []) = ["B"; "A"]
    /\ hybridSearchWithRRF parseStringArray Examples.orderClient [] "zzz"
                           Examples.noOptions 0 5
       = ([SentVector; SentKeyword; SentEntities; SentRelations], Fulfilled r)
    /\ map ent_name (entities r) = ["A"; "B"].
Proof.
  eexists. eexists. split; [vm_compute; reflexivity|].
  split; [reflexivity|]. split; [reflexivity|].
  split; [vm_compute; reflexivity | reflexivity].
Qed.




(** * Further properties of the search *)

(** ** The fused, truncated list *)

Lemma insert_perm {A : Type} (positive : A -> A -> bool) x l :
  Permutation (Js.insert positive x l) (x :: l).
Proof.
  induction l as [|y l IH]; simpl; auto.
  destruct (positive x y); auto.
  rewrite IH. apply perm_swap.
Qed.

Lemma sort_perm {A : Type} (positive : A -> A -> bool) l :
  Permutation (Js.sort positive l) l.
Proof.
  induction l as [|x l IH]; simpl; auto.
  rewrite insert_perm. now constructor.
Qed.

Lemma in_add_keys ids : forall ks x,
  In x (fold_left add_key ids ks) <-> In x ks \/ In x ids.
Proof.
  induction ids as [|y ids IH]; intros ks x; simpl; [tauto|].
  rewrite IH. unfold add_key.
  destruct (in_dec string_dec y ks) as [Hin|Hin].
  - split; [tauto|]. intros [H|[H|H]]; auto. subst. auto.
  - rewrite in_app_iff. simpl. tauto.
Qed.

Lemma NoDup_add_keys ids : forall ks,
  NoDup ks -> NoDup (fold_left add_key ids ks).
Proof.
  induction ids as [|y ids IH]; intros ks Hks; simpl; auto.
  apply IH. unfold add_key.
  destruct (in_dec string_dec y ks) as [Hin|Hin]; auto.
  apply NoDup_app; auto.
  - repeat constructor. simpl. tauto.
  - intros x Hx [Hy|[]]. subst. contradiction.
Qed.

Lemma NoDup_firstn {A : Type} n : forall (l : list A),
  NoDup l -> NoDup (firstn n l).
Proof.
  induction n as [|n IH]; intros [|x l] H; simpl; try constructor.
  - inversion H; subst. intros Hin. apply in_firstn in Hin. contradiction.
  - inversion H; subst. auto.
Qed.

Lemma map_firstn_fst {A B : Type} n : forall (l : list (A * B)),
  map fst (firstn n l) = firstn n (map fst l).
Proof.
  induction n as [|n IH]; intros [|x l]; simpl; auto. now rewrite IH.
Qed.

Lemma slice0_firstn {A : Type} (l : list A) e :
  exists n, Js.slice0 l e = firstn n l
            /\ ((0 <= e)%Z -> n = Z.to_nat e).
Proof.
  unfold Js.slice0. destruct (e <? 0)%Z eqn:E.
  - eexists. split; [reflexivity|]. apply Z.ltb_lt in E. lia.
  - eexists. split; [reflexivity|]. auto.
Qed.

Lemma keys_rrfScores_NoDup rrfK vs ks : NoDup (Js.keys (rrfScores rrfK vs ks)).
Proof. rewrite keys_rrfScores. apply NoDup_add_keys. constructor. Qed.

Lemma keys_rrfScores_in rrfK vs ks id :
  In id (Js.keys (rrfScores rrfK vs ks))
  <-> In id (map v_id vs) \/ In id (map k_id ks).
Proof.
  rewrite keys_rrfScores, in_add_keys, in_app_iff. simpl. tauto.
Qed.

Lemma sortedResults_length_le (rrfK limit : Z) (vs : list VectorRow)
      (ks : list KeywordRow) :
  (0 <= limit)%Z ->
  (Z.of_nat (List.length (sortedResults rrfK limit vs ks)) <= limit)%Z.
Proof.
  intros H0. unfold sortedResults.
  destruct (slice0_firstn (Js.sort byScoreDesc (rrfScores rrfK vs ks)) limit)
    as [n [Hn Hlim]].
  rewrite Hn, (Hlim H0), length_firstn. lia.
Qed.

(** The fused list names each identifier once, names only identifiers of the
    two ranker lists, has at most [limit] entries for a non-negative [limit],
    and names every identifier of the two lists when [limit] is at least
    their number. *)
Theorem sortedResults_ids (rrfK limit : Z) (vs : list VectorRow)
        (ks : list KeywordRow) :
  NoDup (map fst (sortedResults rrfK limit vs ks))
  /\ (forall id, In id (map fst (sortedResults rrfK limit vs ks)) ->
                 In id (map v_id vs) \/ In id (map k_id ks))
  /\ ((0 <= limit)%Z ->
      (Z.of_nat (List.length (sortedResults rrfK limit vs ks)) <= limit)%Z)
  /\ ((Z.of_nat (List.length (map v_id vs ++ map k_id ks)) <= limit)%Z ->
      forall id, In id (map v_id vs) \/ In id (map k_id ks) ->
                 In id (map fst (sortedResults rrfK limit vs ks))).
Proof.
  unfold sortedResults.
  destruct (slice0_firstn (Js.sort byScoreDesc (rrfScores rrfK vs ks)) limit)
    as [n [Hn Hlim]].
  rewrite Hn, map_firstn_fst.
  assert (Hperm : Permutation (map fst (Js.sort byScoreDesc (rrfScores rrfK vs ks)))
                              (Js.keys (rrfScores rrfK vs ks))).
  { apply Permutation_map, sort_perm. }
  split; [|split; [|split]].
  - apply NoDup_firstn.
    apply (Permutation_NoDup (Permutation_sym Hperm)), keys_rrfScores_NoDup.
  - intros id Hin. apply in_firstn in Hin.
    apply (proj1 (keys_rrfScores_in rrfK vs ks id)).
    now apply (Permutation_in _ Hperm).
  - intros H0. rewrite (Hlim H0), length_firstn. lia.
  - intros Hfit id Hin.
    assert (Hlen : (List.length (Js.keys (rrfScores rrfK vs ks))
                    <= List.length (map v_id vs ++ map k_id ks))%nat).
    { apply NoDup_incl_length; [apply keys_rrfScores_NoDup|].
      intros x Hx. apply keys_rrfScores_in in Hx. now apply in_app_iff. }
    rewrite firstn_all2.
    + apply (Permutation_in _ (Permutation_sym Hperm)).
      now apply (proj2 (keys_rrfScores_in rrfK vs ks id)).
    + rewrite length_map, length_sort. unfold Js.keys in Hlen.
      rewrite length_map in Hlen. rewrite Hlim; lia.
Qed.

Lemma sortedResults_ids_witness :
  (0 <= 2)%Z
  /\ (Z.of_nat (List.length (sortedResults 60 2 Examples.scenarioVector
                                            Examples.scenarioKeyword)) <= 2)%Z.
Proof.
  split; [lia|].
  apply (proj1 (proj2 (proj2 (sortedResults_ids 60 2 Examples.scenarioVector
                                                Examples.scenarioKeyword)))).
  lia.
Defined.

Lemma StronglySorted_app_cross {A : Type} (R : A -> A -> Prop) l1 : forall l2,
  StronglySorted R (l1 ++ l2) ->
  forall a b, In a l1 -> In b l2 -> R a b.
Proof.
  induction l1 as [|x l1 IH]; intros l2 Hs a b Ha Hb; simpl in *; [tauto|].
  inversion Hs as [|? ? Hs' Hx]; subst. destruct Ha as [<-|Ha].
  - rewrite Forall_forall in Hx. apply Hx, in_app_iff. auto.
  - eapply IH; eauto.
Qed.

Lemma in_firstn_or_skipn {A : Type} n (l : list A) x :
  In x l -> In x (firstn n l) \/ In x (skipn n l).
Proof. intros H. rewrite <- (firstn_skipn n l) in H. now apply in_app_iff. Qed.

Lemma set_Forall {V : Type} (P : V -> Prop) (m : Js.Map V) key v :
  Forall (fun kv => P (snd kv)) m -> P v ->
  Forall (fun kv => P (snd kv)) (Js.set m key v).
Proof.
  intros Hm Hv. induction Hm as [|[k v'] m Hk Hm IH]; simpl.
  - repeat constructor. exact Hv.
  - destruct (String.eqb k key); constructor; auto.
Qed.

Lemma get_Forall {V : Type} (P : V -> Prop) (m : Js.Map V) key v :
  Forall (fun kv => P (snd kv)) m -> Js.get m key = Some v -> P v.
Proof.
  intros Hm. induction Hm as [|[k v'] m Hk Hm IH]; simpl; [discriminate|].
  destruct (String.eqb k key); auto. intros H. injection H as <-. exact Hk.
Qed.

Lemma vector_loop_positive rrfK vs : (0 < rrfK)%Z -> forall index m,
  Forall (fun kv => 0 < score (snd kv)) m ->
  Forall (fun kv => 0 < score (snd kv))
         (Js.forEach (addVectorResult rrfK) vs index m).
Proof.
  intros Hk. induction vs as [|r vs IH]; intros index m Hm; simpl; auto.
  apply IH. unfold addVectorResult.
  apply (set_Forall (fun e => 0 < score e)); auto.
  simpl. now apply rrfScore_pos.
Qed.

Lemma keyword_loop_positive rrfK ks : (0 < rrfK)%Z -> forall index m,
  Forall (fun kv => 0 < score (snd kv)) m ->
  Forall (fun kv => 0 < score (snd kv))
         (Js.forEach (addKeywordResult rrfK) ks index m).
Proof.
  intros Hk. induction ks as [|r ks IH]; intros index m Hm; simpl; auto.
  apply IH. unfold addKeywordResult.
  pose proof (rrfScore_pos rrfK index Hk) as Hpos.
  destruct (Js.get m (k_id r)) as [existing|] eqn:E.
  - apply (set_Forall (fun e => 0 < score e)); auto. simpl.
    pose proof (get_Forall (fun e => 0 < score e) m _ _ Hm E). simpl in *. lra.
  - apply (set_Forall (fun e => 0 < score e)); auto.
Qed.

(** For a positive constant every fused candidate has a positive fused
    score. *)
Theorem fused_scores_positive (rrfK limit : Z) (vs : list VectorRow)
        (ks : list KeywordRow) (entry : string * RrfEntry) :
  (0 < rrfK)%Z ->
  In entry (sortedResults rrfK limit vs ks) ->
  0 < score (snd entry).
Proof.
  intros Hk Hin. unfold sortedResults in Hin.
  destruct (slice0_firstn (Js.sort byScoreDesc (rrfScores rrfK vs ks)) limit)
    as [n [Hn _]].
  rewrite Hn in Hin. apply in_firstn in Hin. apply in_sort in Hin.
  assert (Hall : Forall (fun kv => 0 < score (snd kv)) (rrfScores rrfK vs ks)).
  { unfold rrfScores. apply keyword_loop_positive; auto.
    apply vector_loop_positive; auto. }
  rewrite Forall_forall in Hall. auto.
Qed.

Lemma fused_scores_positive_witness :
  (0 < 60)%Z
  /\ In ("C", {| score := 1 # 63; entityType := "person";
                 e_vectorScore := Some (7 # 10); e_bm25Score := None |})
        (sortedResults 60 10 Examples.scenarioVector Examples.scenarioKeyword)
  /\ 0 < (1 # 63).
Proof.
  assert (Hk : (0 < 60)%Z) by reflexivity.
  assert (Hin : In ("C", {| score := 1 # 63; entityType := "person";
                            e_vectorScore := Some (7 # 10); e_bm25Score := None |})
                   (sortedResults 60 10 Examples.scenarioVector
                                  Examples.scenarioKeyword))
    by (vm_compute; auto 10).
  split; [exact Hk|]. split; [exact Hin|].
  exact (fused_scores_positive 60 10 Examples.scenarioVector
                               Examples.scenarioKeyword _ Hk Hin).
Defined.

(** ** Statements sent and failures *)

Ltac split_run :=
  repeat match goal with
         | |- context [responseOk ?c ?s] =>
             lazymatch goal with
             | H : responseOk c s = _ |- _ => rewrite H
             | _ => destruct (responseOk c s) eqn:?
             end
         | |- context [match ?x with Some _ => _ | None => _ end] =>
             destruct x eqn:?
         | |- context [if ?b then _ else _] => destruct b eqn:?
         end; cbn [fst snd app].

Ltac all_ok :=
  let s := fresh "s" in
  let H := fresh "H" in
  intros s H; cbn in H;
  repeat (destruct H as [H|H]; [subst s; assumption|]); contradiction.

(** The hybrid search sends its statements in the order vector, keyword,
    entities, relations and stops at the first that fails: when it throws,
    the failed statement is the last one sent and every earlier one was
    answered; when it resolves, every statement it sent was answered. *)
Theorem hybridSearch_fails_fast
        (JSON_parse : string -> option Js.json) (neo4j : Neo4jHttpClient)
        (queryVector : list Q) (queryText : string) (options : SearchOptions)
        (startTime endTime : Z) :
  (exists n,
      fst (hybridSearchWithRRF JSON_parse neo4j queryVector queryText options
                               startTime endTime)
      = firstn n [SentVector; SentKeyword; SentEntities; SentRelations])
  /\ match snd (hybridSearchWithRRF JSON_parse neo4j queryVector queryText
                                    options startTime endTime) with
     | Thrown s =>
         exists before,
           fst (hybridSearchWithRRF JSON_parse neo4j queryVector queryText
                                    options startTime endTime)
           = before ++ [s]
           /\ forall s', In s' before -> responseOk neo4j s' = true
     | Fulfilled r =>
         forall s,
           In s (fst (hybridSearchWithRRF JSON_parse neo4j queryVector
                                          queryText options startTime endTime)) ->
           responseOk neo4j s = true
     end.
Proof.
  unfold hybridSearchWithRRF, hydrate, bind, query, ret. cbn [fst snd app].
  split_run;
    (split;
     [ first [ now exists 1%nat | now exists 2%nat | now exists 3%nat
             | now exists 4%nat ]
     | first [ all_ok
             | exists []; split; [reflexivity | all_ok]
             | exists [SentVector]; split; [reflexivity | all_ok]
             | exists [SentVector; SentKeyword]; split; [reflexivity | all_ok]
             | exists [SentVector; SentKeyword; SentEntities];
               split; [reflexivity | all_ok] ] ]).
Qed.

(** ** What a resolved search returns *)

Lemma hybridSearch_fulfilled_rankers JSON_parse neo4j queryVector queryText
      options startTime endTime r :
  snd (hybridSearchWithRRF JSON_parse neo4j queryVector queryText options
                           startTime endTime) = Fulfilled r ->
  exists vs ks,
    responseOk neo4j SentVector = true
    /\ responseOk neo4j SentKeyword = true
    /\ vectorStatement (server neo4j)
                       (Js.or_default_Z (opt_limit options) 10 * 2) queryVector
       = Some vs
    /\ keywordStatement (server neo4j) queryText
                        (Js.or_default_Z (opt_limit options) 10 * 2)
       = Some ks.
Proof.
  unfold hybridSearchWithRRF, bind, query. cbn [fst snd].
  destruct (responseOk neo4j SentVector); [|discriminate].
  destruct (vectorStatement _ _ _) as [vs|]; [|discriminate].
  cbn [fst snd].
  destruct (responseOk neo4j SentKeyword); [|discriminate].
  destruct (keywordStatement _ _ _) as [ks|]; [|discriminate].
  intros _. now exists vs, ks.
Qed.

Lemma hydrate_fulfilled JSON_parse neo4j names elapsed r :
  snd (hydrate JSON_parse neo4j names elapsed) = Fulfilled r ->
  r = {| entities := map (hydrateEntity JSON_parse)
                         (entityStatement (server neo4j) names);
         relations := map hydrateRelation
                          (relationStatement (server neo4j) names);
         total := List.length (entityStatement (server neo4j) names);
         timeTaken := elapsed |}.
Proof.
  unfold hydrate, bind, query, ret. cbn [fst snd].
  destruct (responseOk neo4j SentEntities); [|discriminate]. cbn [fst snd].
  destruct (responseOk neo4j SentRelations); [|discriminate]. cbn [fst snd].
  intros H. now injection H as <-.
Qed.

Lemma inNames_In x names : Cypher.inNames x names = true <-> In x names.
Proof.
  unfold Cypher.inNames. rewrite existsb_exists. split.
  - intros [y [Hy E]]. apply String.eqb_eq in E. now subst.
  - intros H. exists x. split; auto. apply String.eqb_refl.
Qed.

Lemma isNull_None {A : Type} (p : option A) : Cypher.isNull p = true <-> p = None.
Proof. destruct p; simpl; split; congruence. Qed.

Lemma entityStatement_spec g names e :
  In e (entityStatement g names) ->
  In (rec_name e) names
  /\ exists node, In node (nodes g)
                  /\ node_name node = rec_name e
                  /\ node_validTo node = None.
Proof.
  unfold entityStatement. rewrite in_map_iff.
  intros [node [<- Hin]]. apply filter_In in Hin. destruct Hin as [Hin Hf].
  apply Bool.andb_true_iff in Hf. destruct Hf as [Hn Hv].
  apply inNames_In in Hn. apply isNull_None in Hv. simpl. eauto.
Qed.




Lemma vectorFloorStatement_floor g limit embedding minScore rows :
  vectorFloorStatement g limit embedding minScore = Some rows ->
  forall row, In row rows -> minScore <= sn_score row.
Proof.
  unfold vectorFloorStatement.
  destruct (queryNodes g limit embedding) as [yielded|]; [|discriminate].
  intros H row Hin. injection H as <-.
  unfold Cypher.orderByDesc in Hin. apply in_sort in Hin.
  apply in_map_iff in Hin. destruct Hin as [y [<- Hy]].
  apply filter_In in Hy. destruct Hy as [_ Hle]. simpl.
  now apply Qle_bool_iff.
Qed.

(** A resolved vector-only search returns only visible entities named by a
    row of the index whose score is at least the similarity floor in force
    ([minSimilarity], or 0.6 when it is absent or 0); with no such row it
    resolves to the empty result after the one statement. *)
Theorem vectorSearch_respects_floor
        (JSON_parse : string -> option Js.json) (neo4j : Neo4jHttpClient)
        (queryVector : list Q) (options : SearchOptions)
        (startTime endTime : Z) (r : SearchResult) :
  snd (vectorSearch JSON_parse neo4j queryVector options startTime endTime)
  = Fulfilled r ->
  exists rows,
    vectorFloorStatement (server neo4j)
                         (Js.or_default_Z (opt_limit options) 10) queryVector
                         (Js.or_default_Q (opt_minSimilarity options) (6 # 10))
    = Some rows
    /\ (forall row, In row rows ->
                    Js.or_default_Q (opt_minSimilarity options) (6 # 10)
                    <= sn_score row)
    /\ total r = List.length (entities r)
    /\ (forall e,
           In e (entities r) ->
           In (ent_name e) (map sn_name rows)
           /\ exists node, In node (nodes (server neo4j))
                           /\ node_name node = ent_name e
                           /\ node_validTo node = None)
    /\ (rows = [] ->
        vectorSearch JSON_parse neo4j queryVector options startTime endTime
        = ([SentVectorFloor],
           Fulfilled {| entities := []; relations := []; total := 0;
                        timeTaken := endTime - startTime |})).
Proof.
  unfold vectorSearch, bind, query. cbn [fst snd].
  destruct (responseOk neo4j SentVectorFloor); [|discriminate].
  destruct (vectorFloorStatement _ _ _ _) as [rows|] eqn:Hrows; [|discriminate].
  cbn [fst snd]. intros Hr. exists rows. split; [reflexivity|].
  split; [exact (vectorFloorStatement_floor _ _ _ _ _ Hrows)|].
  destruct rows as [|row rows].
  - simpl in Hr. injection Hr as <-. simpl.
    split; [reflexivity|]. split; [intros e []|]. reflexivity.
  - change ((List.length (row :: rows) =? 0)%nat) with false in *. cbv iota in Hr.
    apply hydrate_fulfilled in Hr. subst r. simpl.
    split; [now rewrite length_map|]. split; [|discriminate].
    intros e Hin. apply in_map_iff in Hin. destruct Hin as [rec [<- Hin]].
    simpl. now apply (entityStatement_spec _ (sn_name row :: map sn_name rows)).
Qed.

Lemma vectorSearch_respects_floor_witness :
  exists r rows,
    snd (vectorSearch parseStringArray Examples.orderClient []
                      Examples.noOptions 0 5) = Fulfilled r
    /\ vectorFloorStatement (server Examples.orderClient) 10 [] (6 # 10)
       = Some rows
    /\ map sn_name rows = ["B"; "A"]
    /\ forall row, In row rows -> (6 # 10) <= sn_score row.
Proof.
  destruct (vectorSearch_respects_floor
              parseStringArray Examples.orderClient [] Examples.noOptions 0 5
              _ eq_refl)
    as (rows & Hrows & Hfloor & _).
  eexists. exists rows. split; [reflexivity|]. split; [exact Hrows|].
  split; [|exact Hfloor].
  vm_compute in Hrows. injection Hrows as <-. reflexivity.
Defined.

Lemma NoDup_map_filter {A B : Type} (f : A -> B) (p : A -> bool) l :
  NoDup (map f l) -> NoDup (map f (filter p l)).
Proof.
  induction l as [|x l IH]; simpl; intros H; [constructor|].
  inversion H as [|? ? Hx Hl]; subst. destruct (p x); simpl; auto.
  constructor; auto. intros Hin. apply Hx.
  apply in_map_iff in Hin. destruct Hin as [y [Hy Hin]].
  apply filter_In in Hin. apply in_map_iff. exists y. tauto.
Qed.

Lemma entityStatement_names g names :
  map rec_name (entityStatement g names)
  = map node_name (filter (fun e => Cypher.inNames (node_name e) names
                                    && Cypher.isNull (node_validTo e))
                          (nodes g)).
Proof. unfold entityStatement. rewrite map_map. reflexivity. Qed.

(** When no two entities of the store share a name and the limit in force
    is not negative, a resolved hybrid search returns at most that many
    entities. *)
Theorem hybridSearch_at_most_limit
        (JSON_parse : string -> option Js.json) (neo4j : Neo4jHttpClient)
        (queryVector : list Q) (queryText : string) (options : SearchOptions)
        (startTime endTime : Z) (r : SearchResult) :
  NoDup (map node_name (nodes (server neo4j))) ->
  (0 <= Js.or_default_Z (opt_limit options) 10)%Z ->
  snd (hybridSearchWithRRF JSON_parse neo4j queryVector queryText options
                           startTime endTime) = Fulfilled r ->
  (Z.of_nat (List.length (entities r))
   <= Js.or_default_Z (opt_limit options) 10)%Z.
Proof.
  intros Hnd Hlim Hr.
  destruct (hybridSearch_fulfilled_rankers _ _ _ _ _ _ _ _ Hr)
    as (vs & ks & Hv & Hk & Hvs & Hks).
  rewrite (hybridSearch_run JSON_parse neo4j queryVector queryText options
             startTime endTime vs ks Hv Hk Hvs Hks) in Hr.
  cbv zeta in Hr.
  destruct (List.length _ =? 0)%nat.
  - cbn [snd] in Hr. injection Hr as <-. simpl. exact Hlim.
  - cbn [snd] in Hr. apply hydrate_fulfilled in Hr. subst r. simpl.
    rewrite length_map.
    pose proof (sortedResults_length_le (Js.or_default_Z (opt_rrfK options) 60)
                                        (Js.or_default_Z (opt_limit options) 10)
                                        vs ks Hlim) as Hlen.
    rewrite <- (length_map rec_name), entityStatement_names.
    assert (Hle : (List.length
                     (map node_name
                          (filter (fun e =>
                                     Cypher.inNames (node_name e)
                                       (map fst (sortedResults
                                                   (Js.or_default_Z (opt_rrfK options) 60)
                                                   (Js.or_default_Z (opt_limit options) 10)
                                                   vs ks))
                                     && Cypher.isNull (node_validTo e))
                                  (nodes (server neo4j))))
                   <= List.length
                        (map fst (sortedResults
                                    (Js.or_default_Z (opt_rrfK options) 60)
                                    (Js.or_default_Z (opt_limit options) 10)
                                    vs ks)))%nat).
    { apply NoDup_incl_length; [now apply NoDup_map_filter|].
      intros x Hx. apply in_map_iff in Hx. destruct Hx as [e [<- He]].
      apply filter_In in He. destruct He as [_ He].
      apply Bool.andb_true_iff in He. now apply inNames_In. }
    rewrite !length_map in Hle |- *.
    rewrite (length_map fst (sortedResults _ _ vs ks)) in Hle. lia.
Qed.

Lemma hybridSearch_at_most_limit_witness :
  exists r,
    snd (hybridSearchWithRRF parseStringArray Examples.orderClient [] "zzz"
                             (withLimit (Some 1%Z) Examples.noOptions) 0 5)
    = Fulfilled r
    /\ (Z.of_nat (List.length (entities r)) <= 1)%Z.
Proof.
  eexists. split; [vm_compute; reflexivity|].
  apply (hybridSearch_at_most_limit
           parseStringArray Examples.orderClient [] "zzz"
           (withLimit (Some 1%Z) Examples.noOptions) 0 5).
  - simpl. repeat constructor; simpl; intuition discriminate.
  - simpl. lia.
  - reflexivity.
Defined.

(** ** The ranker statements *)

Section OrderBy.
Context {A : Type} (key : A -> Q).

Lemma orderBy_insert_sorted x l :
  StronglySorted (fun a b => key b <= key a) l ->
  StronglySorted (fun a b => key b <= key a)
    (Js.insert (fun a b => match key a ?= key b with Lt => true | _ => false end)
               x l).
Proof.
  induction 1 as [|y l Hs IH Hy]; simpl.
  - repeat constructor.
  - destruct (key x ?= key y) eqn:E.
    + apply Qeq_alt in E. constructor; [now constructor|].
      constructor; [lra|]. rewrite Forall_forall in *. intros z Hz.
      specialize (Hy z Hz). simpl in Hy. lra.
    + apply Qlt_alt in E. constructor; auto.
      apply Forall_forall. intros z Hz. apply in_insert in Hz.
      destruct Hz as [->|Hz]; [lra|]. rewrite Forall_forall in Hy. auto.
    + apply Qgt_alt in E. constructor; [now constructor|].
      constructor; [lra|]. rewrite Forall_forall in *. intros z Hz.
      specialize (Hy z Hz). simpl in Hy. lra.
Qed.

Lemma orderByDesc_sorted l :
  StronglySorted (fun a b => key b <= key a) (Cypher.orderByDesc key l).
Proof.
  unfold Cypher.orderByDesc. induction l as [|x l IH]; simpl; [constructor|].
  now apply orderBy_insert_sorted.
Qed.
End OrderBy.

(** For a [LIMIT] that is not negative the keyword statement answers with
    rows in non-increasing order of score, at most [LIMIT] of them, each the
    row of an entity of the store with a score of at least 1. *)
Theorem keywordStatement_sorted_limited (g : Graph) (queryText : string)
        (limit : Z) :
  (0 <= limit)%Z ->
  exists rows,
    keywordStatement g queryText limit = Some rows
    /\ StronglySorted (fun a b => bm25Score b <= bm25Score a) rows
    /\ (Z.of_nat (List.length rows) <= limit)%Z
    /\ forall row, In row rows ->
                   1 <= bm25Score row
                   /\ exists e, In e (nodes g) /\ row = keywordRow queryText e.
Proof.
  unfold keywordStatement.
  intros H. apply Z.ltb_ge in H. rewrite H. eexists. split; [reflexivity|].
  unfold Cypher.limit. split; [|split].
  + pose proof (orderByDesc_sorted bm25Score (keywordCandidates g queryText))
      as Hs.
    rewrite <- (firstn_skipn (Z.to_nat limit)) in Hs.
    revert Hs. generalize (firstn (Z.to_nat limit)
                             (Cypher.orderByDesc bm25Score
                                (keywordCandidates g queryText))).
    intros l1. generalize (skipn (Z.to_nat limit)
                             (Cypher.orderByDesc bm25Score
                                (keywordCandidates g queryText))).
    intros l2. induction l1 as [|x l1 IH]; simpl; intros Hs; [constructor|].
    inversion Hs as [|? ? Hs' Hx]; subst. constructor; auto.
    apply Forall_app in Hx. tauto.
  + rewrite length_firstn. apply Z.ltb_ge in H. lia.
  + intros row Hin. apply in_firstn in Hin.
    unfold Cypher.orderByDesc in Hin. apply in_sort in Hin.
    unfold keywordCandidates in Hin. apply in_map_iff in Hin.
    destruct Hin as [e [<- He]]. split.
    * simpl. apply keywordScore_ge_1.
    * exists e. split; [|reflexivity].
      apply candidateNodes_spec in He. tauto.
Qed.

Lemma keywordStatement_sorted_limited_witness :
  (0 <= 2)%Z
  /\ exists rows,
      keywordStatement Examples.lexicalGraph "TeamBadass" 2 = Some rows
      /\ map k_id rows = ["TeamBadass HQ"; "Willie"]
      /\ StronglySorted (fun a b => bm25Score b <= bm25Score a) rows.
Proof.
  assert (H0 : (0 <= 2)%Z) by lia.
  split; [exact H0|].
  destruct (keywordStatement_sorted_limited Examples.lexicalGraph
              "TeamBadass" 2 H0)
    as (rows & Hrows & Hsorted & _).
  exists rows. split; [exact Hrows|]. split; [|exact Hsorted].
  vm_compute in Hrows. injection Hrows as <-. reflexivity.
Defined.

Lemma contains_empty s : Cypher.contains s EmptyString = true.
Proof. rewrite contains_unfold. now destruct s. Qed.

Lemma filter_all {A : Type} (p : A -> bool) l :
  (forall x, In x l -> p x = true) -> filter p l = l.
Proof.
  induction l as [|x l IH]; simpl; intros H; auto.
  rewrite (H x (or_introl eq_refl)). f_equal. auto.
Qed.

(** With the empty query text every entity of the store is a lexical
    candidate with the name boost 2.  An entity whose observations are one
    JSON text, as this repository writes them, scores 2.5 whatever the
    number of its observations; one whose [observations] property is a list
    scores 2 plus half a point for each element. *)
Theorem empty_query_matches_everything (g : Graph) :
  candidateNodes g EmptyString = nodes g
  /\ forall e,
      keywordScore EmptyString e
      == match node_observations e with
         | PString _ => 5 # 2
         | PList items =>
             2 + (1 # 2) * inject_Z (Z.of_nat (List.length items))
         end.
Proof.
  split.
  - unfold candidateNodes.
    rewrite (filter_all (keywordMatch EmptyString)).
    + apply filter_all. intros e _.
      pose proof (keywordScore_ge_1 EmptyString e) as H1.
      assert (H0 : 0 < keywordScore EmptyString e) by lra.
      now rewrite (proj1 (Qlt_alt _ _) H0).
    + intros e _. unfold keywordMatch, nameMatches.
      now rewrite contains_empty.
  - intros e. unfold keywordScore, nameBoost, nameMatches, obsMatches.
    rewrite contains_empty.
    rewrite (filter_all (fun obs => Cypher.contains obs EmptyString))
      by (intros; apply contains_empty).
    destruct (node_observations e) as [text|items]; cbn [Cypher.asList].
    + reflexivity.
    + ring.
Qed.


(** * The fused order in double precision *)

(** ** Rounding in [SpecFloat] *)

Section DoubleFacts.
Local Open Scope Z_scope.
(** Iteration *)
Lemma iter_pos_nat {A : Type} (f : A -> A) p : forall x,
  iter_pos f p x = Nat.iter (Pos.to_nat p) f x.
Proof.
  induction p as [p IH|p IH|]; intros x; cbn [iter_pos].
  - rewrite !IH, Pos2Nat.inj_xI.
    replace (S (2 * Pos.to_nat p))%nat with (Pos.to_nat p + S (Pos.to_nat p))%nat
      by lia.
    now rewrite Nat.iter_add, Nat.iter_succ_r.
  - rewrite !IH, Pos2Nat.inj_xO.
    replace (2 * Pos.to_nat p)%nat with (Pos.to_nat p + Pos.to_nat p)%nat by lia.
    now rewrite Nat.iter_add.
  - reflexivity.
Qed.

Lemma shr_1_m mrs :
  0 <= shr_m mrs -> shr_m (shr_1 mrs) = shr_m mrs / 2.
Proof.
  destruct mrs as [m r s]. cbn [shr_m]. intros Hm.
  destruct m as [|p|p]; [reflexivity| |lia].
  destruct p as [p|p|]; cbn [shr_1 shr_m].
  - change (Z.pos p~1) with (2 * Z.pos p + 1).
    apply (Z.div_unique _ _ _ 1); lia.
  - change (Z.pos p~0) with (2 * Z.pos p).
    apply (Z.div_unique _ _ _ 0); lia.
  - reflexivity.
Qed.

Lemma shr_iter_m n : forall mrs,
  0 <= shr_m mrs ->
  shr_m (Nat.iter n shr_1 mrs) = shr_m mrs / 2 ^ Z.of_nat n.
Proof.
  induction n as [|n IH]; intros mrs Hm.
  - cbn. now rewrite Z.div_1_r.
  - rewrite Nat.iter_succ_r, IH, shr_1_m by (rewrite ?shr_1_m; auto; apply Z.div_pos; lia).
    rewrite Nat2Z.inj_succ, Z.pow_succ_r by lia.
    rewrite Z.div_div by lia. reflexivity.
Qed.

Lemma digits2_pos_lower m : 2 ^ (Zpos (digits2_pos m) - 1) <= Zpos m.
Proof.
  induction m as [m IH|m IH|]; cbn [digits2_pos].
  - rewrite Pos2Z.inj_succ. change (Z.pos m~1) with (2 * Z.pos m + 1).
    replace (Z.succ (Zpos (digits2_pos m)) - 1) with (Z.succ (Zpos (digits2_pos m) - 1)) by lia.
    rewrite Z.pow_succ_r by lia.
    revert IH. generalize (2 ^ (Zpos (digits2_pos m) - 1)). intros; lia.
  - rewrite Pos2Z.inj_succ. change (Z.pos m~0) with (2 * Z.pos m).
    replace (Z.succ (Zpos (digits2_pos m)) - 1) with (Z.succ (Zpos (digits2_pos m) - 1)) by lia.
    rewrite Z.pow_succ_r by lia.
    revert IH. generalize (2 ^ (Zpos (digits2_pos m) - 1)). intros; lia.
  - reflexivity.
Qed.


Lemma fexp_emin e : Double.emin <= fexp Double.prec Double.emax e.
Proof. unfold fexp. apply Z.le_max_r. Qed.

Lemma shr_record_of_loc_m m l : shr_m (shr_record_of_loc m l) = m.
Proof. destruct l as [|[| |]]; reflexivity. Qed.

(** Shifting to the exponent [fexp] asks for: the exponent reached is at
    least [Double.emin], a mantissa that is not negative stays so, and a positive
    mantissa at an exponent of at least [Double.emin] stays positive. *)
Lemma shr_fexp_facts m e l :
  0 <= m ->
  Double.emin <= snd (shr_fexp Double.prec Double.emax m e l)
  /\ 0 <= shr_m (fst (shr_fexp Double.prec Double.emax m e l))
  /\ (0 < m -> Double.emin <= e -> 0 < shr_m (fst (shr_fexp Double.prec Double.emax m e l))).
Proof.
  intros Hm. unfold shr_fexp, shr.
  pose proof (fexp_emin (Zdigits2 m + e)) as Hf.
  destruct (fexp Double.prec Double.emax (Zdigits2 m + e) - e) as [|p|p] eqn:En; cbn [fst snd].
  - rewrite shr_record_of_loc_m. repeat split; auto; lia.
  - rewrite iter_pos_nat, shr_iter_m by (now rewrite shr_record_of_loc_m).
    rewrite shr_record_of_loc_m, positive_nat_Z.
    split; [lia|]. split; [apply Z.div_pos; lia|].
    intros Hpos He. apply Z.div_str_pos. split; [lia|].
    destruct m as [|m|m]; try lia. cbn [Zdigits2] in *.
    pose proof (digits2_pos_lower m) as Hd.
    assert (Hp : Zpos p <= Zpos (digits2_pos m) - 1).
    { unfold fexp in En. unfold Double.emin, SpecFloat.emin, Double.prec in *. lia. }
    apply Z.le_trans with (2 ^ (Zpos (digits2_pos m) - 1)); auto.
    apply Z.pow_le_mono_r; lia.
  - rewrite shr_record_of_loc_m. repeat split; auto; lia.
Qed.

Lemma round_nearest_even_nonneg m l :
  (0 <= m -> 0 <= round_nearest_even m l)
  /\ (0 < m -> 0 < round_nearest_even m l).
Proof.
  unfold round_nearest_even.
  destruct l as [|[| |]]; try destruct (Z.even m); split; lia.
Qed.

(** What [binary_round_aux] returns for a mantissa that is not negative. *)
Lemma binary_round_aux_cases s m e l :
  0 <= m ->
  (binary_round_aux Double.prec Double.emax s m e l = S754_zero s
   \/ binary_round_aux Double.prec Double.emax s m e l = S754_infinity s
   \/ exists m' e', binary_round_aux Double.prec Double.emax s m e l = S754_finite s m' e'
                    /\ Double.emin <= e')
  /\ (0 < m -> Double.emin <= e ->
      binary_round_aux Double.prec Double.emax s m e l <> S754_zero s).
Proof.
  intros Hm. unfold binary_round_aux.
  destruct (shr_fexp_facts m e l Hm) as (He1 & Hm1 & Hp1).
  destruct (shr_fexp Double.prec Double.emax m e l) as [mrs' e'] eqn:E1. cbn [fst snd] in *.
  destruct (round_nearest_even_nonneg (shr_m mrs') (loc_of_shr_record mrs'))
    as [Hr0 Hr1].
  specialize (Hr0 Hm1).
  destruct (shr_fexp_facts _ e' loc_Exact Hr0) as (He2 & Hm2 & Hp2).
  destruct (shr_fexp Double.prec Double.emax _ e' loc_Exact) as [mrs'' e''] eqn:E2.
  cbn [fst snd] in *.
  destruct (shr_m mrs'') as [|m2|m2] eqn:Em; [| |lia].
  - split; [now left|]. intros Hpos He. exfalso.
    specialize (Hp1 Hpos He). specialize (Hr1 Hp1). specialize (Hp2 Hr1 He1).
    lia.
  - split.
    + destruct (e'' <=? Double.emax - Double.prec); [|now right; left].
      right. right. exists m2, e''. split; [reflexivity|assumption].
    + intros _ _. destruct (e'' <=? Double.emax - Double.prec); discriminate.
Qed.


Lemma shl_align_exponent m e e' :
  snd (shl_align m e e') = Z.min e e'.
Proof.
  unfold shl_align. destruct (e' - e) as [|d|d] eqn:E; cbn [snd]; lia.
Qed.

Lemma pos_iter_xO m d : Zpos (Pos.iter xO m d) = Zpos m * 2 ^ Zpos d.
Proof.
  induction d as [|d IH] using Pos.peano_ind.
  - cbn [Pos.iter]. change (Z.pos m~0) with (2 * Z.pos m). lia.
  - rewrite Pos.iter_succ, Pos2Z.inj_succ, Z.pow_succ_r by lia.
    change (Z.pos (Pos.iter xO m d)~0) with (2 * Z.pos (Pos.iter xO m d)).
    rewrite IH. ring.
Qed.

Lemma shl_align_mantissa m e e' :
  e' <= e -> Zpos (fst (shl_align m e e')) = Zpos m * 2 ^ (e - e').
Proof.
  intros H. unfold shl_align. destruct (e' - e) as [|d|d] eqn:E; cbn [fst].
  - replace (e - e') with 0 by lia. cbn. lia.
  - lia.
  - rewrite pos_iter_xO. f_equal. f_equal. lia.
Qed.

(** What [binary_round] returns, and that it is not zero at an exponent of
    at least [Double.emin]. *)
Lemma binary_round_cases s m e :
  Double.emin <= e ->
  binary_round Double.prec Double.emax s m e = S754_infinity s
  \/ exists m' e', binary_round Double.prec Double.emax s m e = S754_finite s m' e'
                   /\ Double.emin <= e'.
Proof.
  intros He. unfold binary_round.
  pose proof (shl_align_exponent m e (fexp Double.prec Double.emax (Zpos (digits2_pos m) + e)))
    as Hs.
  pose proof (fexp_emin (Zpos (digits2_pos m) + e)) as Hf.
  destruct (shl_align m e _) as [mz ez]. cbn [snd] in Hs.
  assert (Hez : Double.emin <= ez) by (unfold Double.emin in *; lia).
  destruct (binary_round_aux_cases s (Zpos mz) ez loc_Exact) as [Hc Hn]; [lia|].
  destruct Hc as [Hc|[Hc|Hc]]; auto.
  exfalso. apply Hn; auto; lia.
Qed.

Lemma binary_normalize_cases m e :
  Double.emin <= e ->
  match m with
  | Z0 => binary_normalize Double.prec Double.emax m e false = S754_zero false
  | Zpos _ =>
      binary_normalize Double.prec Double.emax m e false = S754_infinity false
      \/ exists m' e', binary_normalize Double.prec Double.emax m e false
                       = S754_finite false m' e' /\ Double.emin <= e'
  | Zneg _ =>
      binary_normalize Double.prec Double.emax m e false = S754_infinity true
      \/ exists m' e', binary_normalize Double.prec Double.emax m e false
                       = S754_finite true m' e' /\ Double.emin <= e'
  end.
Proof.
  intros He. destruct m as [|p|p]; cbn [binary_normalize];
    [reflexivity | now apply binary_round_cases | now apply binary_round_cases].
Qed.

Lemma okExp_normalize m e :
  Double.emin <= e -> Double.okExp (binary_normalize Double.prec Double.emax m e false).
Proof.
  intros He. pose proof (binary_normalize_cases m e He) as H.
  destruct m; [now rewrite H| |];
    (destruct H as [->|(m' & e' & -> & H)]; [exact I|exact H]).
Qed.

Lemma gt0_normalize m e :
  Double.emin <= e ->
  (Double.gt0 (binary_normalize Double.prec Double.emax m e false) = true <-> 0 < m).
Proof.
  intros He. pose proof (binary_normalize_cases m e He) as H.
  destruct m; [rewrite H; cbn; split; [discriminate|lia]| |];
    (destruct H as [->|(m' & e' & -> & H)]; cbn; split; try reflexivity;
     try discriminate; lia).
Qed.

Lemma emin_value : Double.emin = -1074.
Proof. reflexivity. Qed.

Lemma okExp_add x y :
  Double.okExp x -> Double.okExp y -> Double.okExp (Double.add x y).
Proof.
  intros Hx Hy. unfold Double.add.
  destruct x as [sx|sx| |sx mx ex], y as [sy|sy| |sy my ey];
    cbn [SFadd]; try exact I; try assumption;
    try (destruct sx, sy; exact I).
  apply okExp_normalize. cbn [Double.okExp] in Hx, Hy.
  unfold Double.emin in *. lia.
Qed.

Lemma div_core_nonneg mx ex my ey :
  0 <= fst (fst (SFdiv_core_binary Double.prec Double.emax
                                   (Zpos mx) ex (Zpos my) ey)).
Proof.
  unfold SFdiv_core_binary.
  set (s := ex - ey - _).
  set (m' := match s with
             | 0 => Zpos mx
             | Zpos _ => Z.shiftl (Zpos mx) s
             | Zneg _ => 0
             end).
  assert (Hm : 0 <= m').
  { unfold m'. destruct s; try lia. apply Z.shiftl_nonneg. lia. }
  pose proof (Z.div_pos m' (Zpos my) Hm ltac:(lia)) as Hq.
  unfold Z.div in Hq. destruct (Z.div_eucl m' (Zpos my)) as [q r].
  exact Hq.
Qed.

Lemma okExp_div x y : Double.okExp (Double.div x y).
Proof.
  unfold Double.div.
  destruct x as [sx|sx| |sx mx ex], y as [sy|sy| |sy my ey];
    cbn [SFdiv]; try exact I.
  pose proof (div_core_nonneg mx ex my ey) as Hmz.
  destruct (SFdiv_core_binary Double.prec Double.emax (Zpos mx) ex (Zpos my) ey)
    as [[mz ez] lz]. cbn [fst] in Hmz.
  destruct (binary_round_aux_cases (xorb sx sy) mz ez lz Hmz) as [Hc _].
    destruct Hc as [->|[->|(m' & e' & -> & H)]]; [exact I|exact I|exact H].
Qed.

(** The exact value [m * 2 ^ e] read at a smaller exponent. *)
Lemma aligned_value s m e ez :
  ez <= e ->
  (inject_Z (cond_Zopp s (Zpos (fst (shl_align m e ez)))) * (2 # 1) ^ ez
   == Double.toQ (S754_finite s m e))%Q.
Proof.
  intros H. cbn [Double.toQ]. rewrite shl_align_mantissa by assumption.
  assert (Hpow : (inject_Z (2 ^ (e - ez)) * (2 # 1) ^ ez == (2 # 1) ^ e)%Q).
  { rewrite Zpower_Qpower by lia.
    change (inject_Z 2) with (2 # 1).
    rewrite <- Qpower_plus by discriminate. now replace (e - ez + ez) with e by lia. }
  destruct s; cbn [cond_Zopp].
  - rewrite <- Hpow. rewrite <- Z.mul_opp_l, inject_Z_mult. ring.
  - rewrite <- Hpow. rewrite inject_Z_mult. ring.
Qed.

Lemma toQ_sign s m e :
  (s = true -> Double.toQ (S754_finite s m e) < 0)%Q
  /\ (s = false -> 0 < Double.toQ (S754_finite s m e))%Q.
Proof.
  cbn [Double.toQ].
  pose proof (Qpower_0_lt (2 # 1) e eq_refl) as Hp.
  split; intros ->; cbn [cond_Zopp].
  - setoid_replace 0%Q with (0 * (2 # 1) ^ e)%Q by ring.
    apply Qmult_lt_compat_r; [exact Hp|]. reflexivity.
  - setoid_replace 0%Q with (0 * (2 # 1) ^ e)%Q at 1 by ring.
    apply Qmult_lt_compat_r; [exact Hp|]. reflexivity.
Qed.

Ltac order_case :=
  cbn [Double.gt0 SFltb SFcompare negb];
  repeat match goal with
         | |- context [Double.toQ (S754_zero ?s)] =>
             change (Double.toQ (S754_zero s)) with 0%Q
         | |- context [Double.toQ (S754_infinity ?s)] =>
             change (Double.toQ (S754_infinity s)) with 0%Q
         end;
  split;
  [ try discriminate; intros _; repeat split; auto;
    first [ left; lia | right; split; [reflexivity|]; assumption ]
  | try reflexivity;
    let H := fresh "H" in
    let H' := fresh "H" in
    intros (_ & _ & [H|[H' H]]); first [ lia | lra ] ].

(** The sign of a difference of two doubles is that of the comparison of
    their values. *)
Lemma sub_positive x y :
  Double.okExp x -> Double.okExp y ->
  Double.isNaN x = false -> Double.isNaN y = false ->
  (Double.gt0 (Double.sub y x) = true <-> Double.lt x y).
Proof.
  intros Hx Hy Nx Ny. unfold Double.lt. rewrite Nx, Ny.
  destruct x as [sx|sx| |sx mx ex]; [| |discriminate|];
    (destruct y as [sy|sy| |sy my ey]; [| |discriminate|]).
  all: unfold Double.sub; cbn [SFsub Double.cls].
  - destruct sx, sy; order_case.
  - destruct sx, sy; order_case.
  - destruct (toQ_sign sy my ey) as [Hneg Hpos].
    destruct sy; [specialize (Hneg eq_refl)|specialize (Hpos eq_refl)];
      order_case.
  - destruct sx, sy; order_case.
  - destruct sx, sy; order_case.
  - destruct sx; order_case.
  - destruct (toQ_sign sx mx ex) as [Hneg Hpos].
    destruct sx; [specialize (Hneg eq_refl)|specialize (Hpos eq_refl)];
      order_case.
  - destruct sy; order_case.
  - cbn [Double.okExp] in Hx, Hy.
    set (ez := Z.min ey ex).
    rewrite gt0_normalize by (unfold Double.emin, ez in *; lia).
    pose proof (aligned_value sx mx ex ez ltac:(unfold ez; lia)) as Vx.
    pose proof (aligned_value sy my ey ez ltac:(unfold ez; lia)) as Vy.
    pose proof (Qpower_0_lt (2 # 1) ez eq_refl) as Hp.
    set (ax := cond_Zopp sx (Zpos (fst (shl_align mx ex ez)))) in *.
    set (ay := cond_Zopp sy (Zpos (fst (shl_align my ey ez)))) in *.
    split.
    + intros H. repeat split; auto. right. split; [reflexivity|].
      rewrite <- Vx, <- Vy. apply Qmult_lt_compat_r; [exact Hp|].
      rewrite <- Zlt_Qlt. lia.
    + intros (_ & _ & [H|[_ H]]); [lia|].
      rewrite <- Vx, <- Vy in H.
      apply Qmult_lt_r in H; [|exact Hp]. rewrite <- Zlt_Qlt in H. lia.
Qed.

Lemma binary_round_sign s m e :
  binary_round Double.prec Double.emax s m e = S754_zero s
  \/ binary_round Double.prec Double.emax s m e = S754_infinity s
  \/ exists m' e', binary_round Double.prec Double.emax s m e
                   = S754_finite s m' e'.
Proof.
  unfold binary_round. destruct (shl_align m e _) as [mz ez].
  destruct (binary_round_aux_cases s (Zpos mz) ez loc_Exact) as [Hc _]; [lia|].
  destruct Hc as [Hc|[Hc|(m' & e' & Hc & _)]]; eauto.
Qed.

Lemma notNegative_ofZ n : 0 <= n -> Double.notNegative (Double.ofZ n).
Proof.
  intros Hn. unfold Double.ofZ. destruct n as [|p|p]; [reflexivity| |lia].
  cbn [binary_normalize].
  destruct (binary_round_sign false p 0) as [->|[->|(m' & e' & ->)]];
    reflexivity.
Qed.

Lemma notNegative_add x y :
  Double.notNegative x -> Double.notNegative y ->
  Double.notNegative (Double.add x y).
Proof.
  unfold Double.add.
  destruct x as [sx|sx| |sx mx ex]; cbn [Double.notNegative];
    try contradiction; intros ->;
    (destruct y as [sy|sy| |sy my ey]; cbn [Double.notNegative];
     try contradiction; intros ->); cbn [SFadd]; try reflexivity.
  cbn [cond_Zopp Z.add binary_normalize].
  destruct (binary_round_sign false
              (fst (shl_align mx ex (Z.min ex ey))
               + fst (shl_align my ey (Z.min ex ey)))
              (Z.min ex ey)) as [->|[->|(m' & e' & ->)]];
    reflexivity.
Qed.

Lemma ofZ_one : Double.ofZ 1 = S754_finite false 4503599627370496 (-52).
Proof. reflexivity. Qed.

Lemma notNegative_reciprocal d :
  Double.notNegative d -> Double.notNegative (Double.div (Double.ofZ 1) d).
Proof.
  rewrite ofZ_one. unfold Double.div.
  destruct d as [sy|sy| |sy my ey]; cbn [Double.notNegative];
    try contradiction; intros ->; cbn [SFdiv xorb]; try reflexivity.
  pose proof (div_core_nonneg 4503599627370496 (-52) my ey) as Hmz.
  destruct (SFdiv_core_binary Double.prec Double.emax
                              (Zpos 4503599627370496) (-52) (Zpos my) ey)
    as [[mz ez] lz]. cbn [fst] in Hmz.
  destruct (binary_round_aux_cases false mz ez lz Hmz) as [Hc _].
  destruct Hc as [->|[->|(m' & e' & -> & _)]]; reflexivity.
Qed.

Lemma notNegative_number x : Double.notNegative x -> Double.isNaN x = false.
Proof. destruct x; cbn; auto. contradiction. Qed.

End DoubleFacts.


(** ** The order of doubles *)

Ltac double_order :=
  unfold Double.lt, Double.eq in *;
  repeat match goal with
         | H : _ /\ _ |- _ => destruct H
         | H : _ \/ _ |- _ => destruct H
         end;
  repeat split; auto;
  first [ lia | lra | left; lia | right; split; [lia | lra]
        | intros; double_order_step ]
with double_order_step :=
  repeat match goal with
         | H : _ /\ _ |- _ => destruct H
         | H : _ \/ _ |- _ => destruct H
         end;
  first [ lia | lra ].

Lemma double_lt_irrefl x : ~ Double.lt x x.
Proof. intros H. double_order. Qed.

Lemma double_lt_trans x y z : Double.lt x y -> Double.lt y z -> Double.lt x z.
Proof. intros H1 H2. double_order. Qed.

Lemma double_lt_eq_trans x y z :
  Double.lt x y -> Double.eq y z -> Double.lt x z.
Proof. intros H1 H2. double_order. Qed.

Lemma double_eq_lt_trans x y z :
  Double.eq x y -> Double.lt y z -> Double.lt x z.
Proof. intros H1 H2. double_order. Qed.

Lemma double_eq_trans x y z : Double.eq x y -> Double.eq y z -> Double.eq x z.
Proof. intros H1 H2. double_order. Qed.

Lemma double_eq_sym x y : Double.eq x y -> Double.eq y x.
Proof. intros H. double_order. Qed.

Lemma double_lt_not_eq x y : Double.lt x y -> ~ Double.eq x y /\ ~ Double.eq y x.
Proof. intros H. split; intros H'; double_order. Qed.

Lemma double_lt_asym x y : Double.lt x y -> ~ Double.lt y x.
Proof. intros H H'. double_order. Qed.

Lemma double_trichotomy x y :
  Double.isNaN x = false -> Double.isNaN y = false ->
  Double.lt x y \/ Double.eq x y \/ Double.lt y x.
Proof.
  intros Nx Ny. unfold Double.lt, Double.eq.
  destruct (Z.lt_trichotomy (Double.cls x) (Double.cls y)) as [H|[H|H]].
  - left. auto.
  - destruct (Q_dec (Double.toQ x) (Double.toQ y)) as [[Hq|Hq]|Hq].
    + left. auto.
    + right. right. repeat split; auto.
    + right. left. auto.
  - right. right. auto.
Qed.


(** ** The sort by double score *)

Lemma byScoreDesc64_lt a b :
  Double.okExp (score64 (snd a)) -> Double.okExp (score64 (snd b)) ->
  Double.isNaN (score64 (snd a)) = false ->
  Double.isNaN (score64 (snd b)) = false ->
  (byScoreDesc64 a b = true
   <-> Double.lt (score64 (snd a)) (score64 (snd b))).
Proof. intros. unfold byScoreDesc64. now apply sub_positive. Qed.

Section StableOrder64.
Variable pos : string * RrfEntry64 -> nat.

(** An entry whose score can be compared. *)
Let comparable (e : string * RrfEntry64) : Prop :=
  Double.okExp (score64 (snd e)) /\ Double.isNaN (score64 (snd e)) = false.

Lemma rankedBefore64_irrefl a : ~ rankedBefore64 pos a a.
Proof.
  intros [H|[_ H]]; [now apply double_lt_irrefl in H | lia].
Qed.

Lemma rankedBefore64_asym a b :
  rankedBefore64 pos a b -> ~ rankedBefore64 pos b a.
Proof.
  intros [H|[H1 H2]] [H'|[H1' H2']].
  - now apply (double_lt_asym _ _ H).
  - now apply (proj1 (double_lt_not_eq _ _ H)).
  - now apply (proj1 (double_lt_not_eq _ _ H')).
  - lia.
Qed.

Lemma insert_ranked64 x l :
  StronglySorted (rankedBefore64 pos) l ->
  comparable x -> Forall comparable l ->
  Forall (fun y => (pos x < pos y)%nat) l ->
  StronglySorted (rankedBefore64 pos) (Js.insert byScoreDesc64 x l).
Proof.
  intros Hs [Ox Nx]. induction Hs as [|y l Hs IH Hy]; intros Hc Hpos; simpl.
  - repeat constructor.
  - inversion Hpos as [|? ? Hxy Hxl]; subst.
    inversion Hc as [|? ? [Oy Ny] Hcl]; subst.
    destruct (byScoreDesc64 x y) eqn:E.
    + apply byScoreDesc64_lt in E; auto. constructor; auto.
      apply Forall_forall. intros z Hz. apply in_insert in Hz.
      destruct Hz as [->|Hz].
      * now left.
      * rewrite Forall_forall in Hy. auto.
    + assert (Hge : Double.lt (score64 (snd y)) (score64 (snd x))
                    \/ Double.eq (score64 (snd x)) (score64 (snd y))).
      { destruct (double_trichotomy _ _ Nx Ny) as [H|[H|H]]; auto.
        apply byScoreDesc64_lt in H; auto. congruence. }
      constructor; [now constructor|]. constructor.
      * destruct Hge as [H|H]; [now left | right; auto].
      * rewrite Forall_forall in *. intros z Hz.
        specialize (Hy z Hz). specialize (Hxl z Hz).
        destruct Hge as [Hyx|Hxy'], Hy as [Hzy|[Hyz _]].
        -- left. eapply double_lt_trans; eauto.
        -- left. eapply double_eq_lt_trans; [apply double_eq_sym|]; eauto.
        -- left. eapply double_lt_eq_trans; [|apply double_eq_sym]; eauto.
        -- right. split; [eapply double_eq_trans; eauto|assumption].
Qed.

Lemma sort_ranked64 l :
  Forall comparable l ->
  StronglySorted (fun a b => (pos a < pos b)%nat) l ->
  StronglySorted (rankedBefore64 pos) (Js.sort byScoreDesc64 l).
Proof.
  intros Hc Hs. induction Hs as [|x l Hs IH Hx]; simpl; [constructor|].
  inversion Hc as [|? ? Hcx Hcl]; subst.
  apply insert_ranked64; auto.
  - apply Forall_forall. intros y Hy. apply in_sort in Hy.
    rewrite Forall_forall in Hcl. auto.
  - rewrite Forall_forall in *. intros y Hy. apply in_sort in Hy. auto.
Qed.

Lemma ranked_positions64 l p q a b :
  StronglySorted (rankedBefore64 pos) l ->
  nth_error l p = Some a -> nth_error l q = Some b ->
  ((p < q)%nat <-> rankedBefore64 pos a b).
Proof.
  intros Hs Ha Hb. split.
  - intros Hpq. exact (StronglySorted_nth _ _ Hs p q a b Hpq Ha Hb).
  - intros Hab. destruct (Nat.lt_trichotomy p q) as [H|[H|H]]; auto.
    + subst q. rewrite Ha in Hb. injection Hb as <-.
      now apply rankedBefore64_irrefl in Hab.
    + pose proof (StronglySorted_nth _ _ Hs q p b a H Hb Ha) as Hba.
      now apply rankedBefore64_asym in Hab.
Qed.
End StableOrder64.

(** ** The map of double scores *)

Lemma keys_addVectorResult64 rrfK record index m :
  Js.keys (addVectorResult64 rrfK record index m)
  = add_key (Js.keys m) (v_id record).
Proof. apply keys_set_add_key. Qed.

Lemma keys_addKeywordResult64 rrfK record index m :
  Js.keys (addKeywordResult64 rrfK record index m)
  = add_key (Js.keys m) (k_id record).
Proof.
  unfold addKeywordResult64.
  destruct (Js.get m (k_id record)); apply keys_set_add_key.
Qed.

Lemma keys_rrfScores64 rrfK vs ks :
  Js.keys (rrfScores64 rrfK vs ks)
  = fold_left add_key (map v_id vs ++ map k_id ks) [].
Proof.
  unfold rrfScores64. rewrite fold_left_app.
  assert (Hv : forall rs index m,
             Js.keys (Js.forEach (addVectorResult64 rrfK) rs index m)
             = fold_left add_key (map v_id rs) (Js.keys m)).
  { induction rs as [|r rs IH]; intros; simpl; auto.
    now rewrite IH, keys_addVectorResult64. }
  assert (Hk : forall rs index m,
             Js.keys (Js.forEach (addKeywordResult64 rrfK) rs index m)
             = fold_left add_key (map k_id rs) (Js.keys m)).
  { induction rs as [|r rs IH]; intros; simpl; auto.
    now rewrite IH, keys_addKeywordResult64. }
  now rewrite Hk, Hv.
Qed.

Lemma rrfScores64_first_seen rrfK vs ks :
  StronglySorted
    (fun a b => (firstSeen vs ks (fst a) < firstSeen vs ks (fst b))%nat)
    (rrfScores64 rrfK vs ks).
Proof.
  apply (StronglySorted_map_inv fst
           (fun a b => (firstSeen vs ks a < firstSeen vs ks b)%nat)).
  change (map fst (rrfScores64 rrfK vs ks))
    with (Js.keys (rrfScores64 rrfK vs ks)).
  rewrite keys_rrfScores64. unfold firstSeen.
  apply (add_key_first_seen _ []); [tauto | constructor].
Qed.

(** Whatever holds of every positional score and is kept by addition holds
    of every score of the map. *)
Lemma rrfScores64_Forall (P : Double.double -> Prop) rrfK vs ks :
  (forall index, P (rrfScore64 rrfK index)) ->
  (forall x y, P x -> P y -> P (Double.add x y)) ->
  Forall (fun kv => P (score64 (snd kv))) (rrfScores64 rrfK vs ks).
Proof.
  intros Hscore Hadd. unfold rrfScores64.
  assert (Hv : forall rs index m,
             Forall (fun kv => P (score64 (snd kv))) m ->
             Forall (fun kv => P (score64 (snd kv)))
                    (Js.forEach (addVectorResult64 rrfK) rs index m)).
  { induction rs as [|r rs IH]; intros index m Hm; simpl; auto.
    apply IH. unfold addVectorResult64.
    apply (set_Forall (fun e => P (score64 e))); auto. simpl. apply Hscore. }
  assert (Hk : forall rs index m,
             Forall (fun kv => P (score64 (snd kv))) m ->
             Forall (fun kv => P (score64 (snd kv)))
                    (Js.forEach (addKeywordResult64 rrfK) rs index m)).
  { induction rs as [|r rs IH]; intros index m Hm; simpl; auto.
    apply IH. unfold addKeywordResult64.
    destruct (Js.get m (k_id r)) as [existing|] eqn:E.
    - apply (set_Forall (fun e => P (score64 e))); auto. simpl.
      apply Hadd; [|apply Hscore].
      exact (get_Forall (fun e => P (score64 e)) m _ _ Hm E).
    - apply (set_Forall (fun e => P (score64 e))); auto. simpl. apply Hscore. }
  apply Hk, Hv. constructor.
Qed.

Lemma rrfScores64_okExp rrfK vs ks :
  Forall (fun kv => Double.okExp (score64 (snd kv))) (rrfScores64 rrfK vs ks).
Proof.
  apply rrfScores64_Forall.
  - intros index. apply okExp_div.
  - intros x y. apply okExp_add.
Qed.

Lemma allNumbers_Forall m :
  allNumbers m = true
  <-> Forall (fun kv => Double.isNaN (score64 (snd kv)) = false) m.
Proof.
  unfold allNumbers. rewrite forallb_forall, Forall_forall.
  split; intros H x Hx; specialize (H x Hx);
    [now apply Bool.negb_true_iff in H | now apply Bool.negb_true_iff].
Qed.

Lemma sorted64_ranked rrfK vs ks :
  allNumbers (rrfScores64 rrfK vs ks) = true ->
  StronglySorted (rankedBefore64 (fun e => firstSeen vs ks (fst e)))
                 (Js.sort byScoreDesc64 (rrfScores64 rrfK vs ks)).
Proof.
  intros Hn. apply sort_ranked64; [|apply rrfScores64_first_seen].
  apply allNumbers_Forall in Hn.
  pose proof (rrfScores64_okExp rrfK vs ks) as Ho.
  rewrite Forall_forall in *. intros e He. split; auto.
Qed.


(** For a constant that is not negative every positional score, and so
    every score of the map, is a number that is not negative. *)
Lemma rrfScores64_numbers rrfK vs ks :
  (0 <= rrfK)%Z -> allNumbers (rrfScores64 rrfK vs ks) = true.
Proof.
  intros Hk. apply allNumbers_Forall.
  assert (H : Forall (fun kv => Double.notNegative (score64 (snd kv)))
                     (rrfScores64 rrfK vs ks)).
  { apply rrfScores64_Forall.
    - intros index. unfold rrfScore64. apply notNegative_reciprocal.
      repeat apply notNegative_add; apply notNegative_ofZ; lia.
    - apply notNegative_add. }
  eapply Forall_impl; [|exact H]. intros kv. apply notNegative_number.
Qed.

(** ** The fused order depends on the identifiers alone *)

(** The identifier and the score of each entry. *)
Lemma scores_set m key (v : RrfEntry64) :
  map (fun kv => (fst kv, score64 (snd kv))) (Js.set m key v)
  = Js.set (map (fun kv => (fst kv, score64 (snd kv))) m) key (score64 v).
Proof.
  induction m as [|[k v'] m IH]; simpl; auto.
  destruct (String.eqb k key); simpl; auto. now rewrite IH.
Qed.

Lemma scores_get m key :
  Js.get (map (fun kv => (fst kv, score64 (snd kv))) m) key
  = option_map score64 (Js.get m key).
Proof.
  induction m as [|[k v'] m IH]; simpl; auto.
  destruct (String.eqb k key); simpl; auto.
Qed.

Lemma scores_vector_loop rrfK vs : forall vs' index m m',
  map v_id vs = map v_id vs' ->
  map (fun kv => (fst kv, score64 (snd kv))) m
  = map (fun kv => (fst kv, score64 (snd kv))) m' ->
  map (fun kv => (fst kv, score64 (snd kv)))
      (Js.forEach (addVectorResult64 rrfK) vs index m)
  = map (fun kv => (fst kv, score64 (snd kv)))
        (Js.forEach (addVectorResult64 rrfK) vs' index m').
Proof.
  induction vs as [|r vs IH]; intros [|r' vs'] index m m' Hids Hm;
    try discriminate; simpl; auto.
  simpl in Hids. injection Hids as Hid Hids. apply IH; auto.
  unfold addVectorResult64. rewrite !scores_set. simpl. now rewrite Hid, Hm.
Qed.

Lemma scores_keyword_loop rrfK ks : forall ks' index m m',
  map k_id ks = map k_id ks' ->
  map (fun kv => (fst kv, score64 (snd kv))) m
  = map (fun kv => (fst kv, score64 (snd kv))) m' ->
  map (fun kv => (fst kv, score64 (snd kv)))
      (Js.forEach (addKeywordResult64 rrfK) ks index m)
  = map (fun kv => (fst kv, score64 (snd kv)))
        (Js.forEach (addKeywordResult64 rrfK) ks' index m').
Proof.
  induction ks as [|r ks IH]; intros [|r' ks'] index m m' Hids Hm;
    try discriminate; simpl; auto.
  simpl in Hids. injection Hids as Hid Hids. apply IH; auto.
  unfold addKeywordResult64.
  assert (G : option_map score64 (Js.get m (k_id r))
              = option_map score64 (Js.get m' (k_id r'))).
  { rewrite <- !scores_get. now rewrite Hm, Hid. }
  destruct (Js.get m (k_id r)) as [e|], (Js.get m' (k_id r')) as [e'|];
    simpl in G; try discriminate; rewrite !scores_set; simpl; rewrite Hid, Hm.
  - injection G as G. now rewrite G.
  - reflexivity.
Qed.

Lemma scores_insert x x' l : forall l',
  (fst x, score64 (snd x)) = (fst x', score64 (snd x')) ->
  map (fun kv => (fst kv, score64 (snd kv))) l
  = map (fun kv => (fst kv, score64 (snd kv))) l' ->
  map (fun kv => (fst kv, score64 (snd kv))) (Js.insert byScoreDesc64 x l)
  = map (fun kv => (fst kv, score64 (snd kv))) (Js.insert byScoreDesc64 x' l').
Proof.
  induction l as [|y l IH]; intros [|y' l'] Hx Hl; try discriminate; simpl.
  - now rewrite Hx.
  - simpl in Hl. injection Hl as Hy1 Hy2 Hl.
    injection Hx as Hx1 Hx2.
    unfold byScoreDesc64. rewrite Hx2, Hy2.
    destruct (Double.gt0 _); simpl.
    + rewrite Hy1, Hy2. f_equal. apply IH; auto. now rewrite Hx1, Hx2.
    + now rewrite Hx1, Hx2, Hy1, Hy2, Hl.
Qed.

Lemma scores_sort l : forall l',
  map (fun kv => (fst kv, score64 (snd kv))) l
  = map (fun kv => (fst kv, score64 (snd kv))) l' ->
  map (fun kv => (fst kv, score64 (snd kv))) (Js.sort byScoreDesc64 l)
  = map (fun kv => (fst kv, score64 (snd kv))) (Js.sort byScoreDesc64 l').
Proof.
  induction l as [|x l IH]; intros [|x' l'] Hl; try discriminate; simpl; auto.
  simpl in Hl. injection Hl as Hx1 Hx2 Hl.
  apply scores_insert; auto. now rewrite Hx1, Hx2.
Qed.

Lemma map_slice0 {A B : Type} (f : A -> B) l e :
  map f (Js.slice0 l e) = Js.slice0 (map f l) e.
Proof.
  unfold Js.slice0. rewrite length_map.
  destruct (e <? 0)%Z; now rewrite firstn_map.
Qed.

Lemma sortedResults64_by_ids rrfK limit vs ks vs' ks' :
  map v_id vs = map v_id vs' ->
  map k_id ks = map k_id ks' ->
  map (fun kv => (fst kv, score64 (snd kv))) (sortedResults64 rrfK limit vs ks)
  = map (fun kv => (fst kv, score64 (snd kv)))
        (sortedResults64 rrfK limit vs' ks').
Proof.
  intros Hv Hk. unfold sortedResults64. rewrite !map_slice0. f_equal.
  apply scores_sort. unfold rrfScores64.
  apply scores_keyword_loop; auto. apply scores_vector_loop; auto.
Qed.

(** ** The two embeddings of the map *)

(** The maps with rational and with double scores hold the same entries in
    the same order; they differ in the type of the score alone. *)
Lemma fields_set {V W : Type} (f : V -> W) m key (v : V) :
  map (fun kv => (fst kv, f (snd kv))) (Js.set m key v)
  = Js.set (map (fun kv => (fst kv, f (snd kv))) m) key (f v).
Proof.
  induction m as [|[k v'] m IH]; simpl; auto.
  destruct (String.eqb k key); simpl; auto. now rewrite IH.
Qed.

Lemma fields_get {V W : Type} (f : V -> W) m key :
  Js.get (map (fun kv => (fst kv, f (snd kv))) m) key
  = option_map f (Js.get m key).
Proof.
  induction m as [|[k v'] m IH]; simpl; auto.
  destruct (String.eqb k key); simpl; auto.
Qed.

Lemma rrfScores64_entries rrfK vs ks :
  map (fun kv => (fst kv, (entityType64 (snd kv), e_vectorScore64 (snd kv),
                           e_bm25Score64 (snd kv))))
      (rrfScores64 rrfK vs ks)
  = map (fun kv => (fst kv, (entityType (snd kv), e_vectorScore (snd kv),
                             e_bm25Score (snd kv))))
        (rrfScores rrfK vs ks).
Proof.
  unfold rrfScores64, rrfScores.
  set (f64 := fun e => (entityType64 e, e_vectorScore64 e, e_bm25Score64 e)).
  set (f := fun e => (entityType e, e_vectorScore e, e_bm25Score e)).
  assert (Hv : forall rs index m64 m,
             map (fun kv => (fst kv, f64 (snd kv))) m64
             = map (fun kv => (fst kv, f (snd kv))) m ->
             map (fun kv => (fst kv, f64 (snd kv)))
                 (Js.forEach (addVectorResult64 rrfK) rs index m64)
             = map (fun kv => (fst kv, f (snd kv)))
                   (Js.forEach (addVectorResult rrfK) rs index m)).
  { induction rs as [|r rs IH]; intros index m64 m Hm; simpl; auto.
    apply IH. unfold addVectorResult64, addVectorResult.
    rewrite !fields_set. now rewrite Hm. }
  assert (Hk : forall rs index m64 m,
             map (fun kv => (fst kv, f64 (snd kv))) m64
             = map (fun kv => (fst kv, f (snd kv))) m ->
             map (fun kv => (fst kv, f64 (snd kv)))
                 (Js.forEach (addKeywordResult64 rrfK) rs index m64)
             = map (fun kv => (fst kv, f (snd kv)))
                   (Js.forEach (addKeywordResult rrfK) rs index m)).
  { induction rs as [|r rs IH]; intros index m64 m Hm; simpl; auto.
    apply IH. unfold addKeywordResult64, addKeywordResult.
    assert (G : option_map f64 (Js.get m64 (k_id r))
                = option_map f (Js.get m (k_id r))).
    { rewrite <- !fields_get. now rewrite Hm. }
    destruct (Js.get m64 (k_id r)) as [e64|], (Js.get m (k_id r)) as [e|];
      simpl in G; try discriminate; rewrite !fields_set; rewrite Hm.
    - unfold f64, f in G |- *. cbn. injection G as G1 G2 G3.
      now rewrite G2.
    - reflexivity. }
  apply Hk, Hv. reflexivity.
Qed.

(** ** The claims on the fused order *)

(** C4.  The fused scores are the doubles the code computes.  For a [k] that
    is not negative none of them is [NaN].  Whenever none is [NaN]: of two
    entries of the sorted, truncated result, the one at the smaller index is
    the one with the greater fused score or, when the two scores are equal,
    the one whose identifier is met first when the vector list is walked
    before the keyword list, each from rank 0.  And the fused ordering (the
    identifiers in order, with their scores) is fixed by the identifiers of
    the two lists, [k] and the limit alone: two runs on lists that name the
    same identifiers in the same order give the same ordering, whatever
    else the rows hold. *)
Theorem fusion_order_tie_break (k limit : Z) (vs : list VectorRow)
        (ks : list KeywordRow) :
  ((0 <= k)%Z -> allNumbers (rrfScores64 k vs ks) = true)
  /\ (allNumbers (rrfScores64 k vs ks) = true ->
      forall (p q : nat) (a b : string * RrfEntry64),
        nth_error (sortedResults64 k limit vs ks) p = Some a ->
        nth_error (sortedResults64 k limit vs ks) q = Some b ->
        ((p < q)%nat <->
         Double.lt (score64 (snd b)) (score64 (snd a))
         \/ (Double.eq (score64 (snd a)) (score64 (snd b))
             /\ (firstSeen vs ks (fst a) < firstSeen vs ks (fst b))%nat)))
  /\ (forall vs' ks',
         map v_id vs' = map v_id vs ->
         map k_id ks' = map k_id ks ->
         map (fun e => (fst e, score64 (snd e)))
             (sortedResults64 k limit vs' ks')
         = map (fun e => (fst e, score64 (snd e)))
               (sortedResults64 k limit vs ks)).
Proof.
  split; [apply rrfScores64_numbers|]. split.
  - intros Hn p q a b Ha Hb.
    apply nth_error_slice0 in Ha. apply nth_error_slice0 in Hb.
    apply (ranked_positions64 (fun e => firstSeen vs ks (fst e))
                              (Js.sort byScoreDesc64 (rrfScores64 k vs ks)));
      auto.
    now apply sorted64_ranked.
  - intros vs' ks' Hv Hk. now apply sortedResults64_by_ids.
Qed.

Lemma fusion_order_tie_break_witness :
  allNumbers (rrfScores64 60 Examples.tieVector Examples.tieKeyword) = true
  /\ exists a b,
      nth_error (sortedResults64 60 10 Examples.tieVector Examples.tieKeyword) 0
      = Some a
      /\ nth_error (sortedResults64 60 10 Examples.tieVector
                                    Examples.tieKeyword) 1
         = Some b
      /\ fst a = "A" /\ fst b = "D"
      /\ score64 (snd a) = score64 (snd b)
      /\ ((0 < 1)%nat <->
          Double.lt (score64 (snd b)) (score64 (snd a))
          \/ (Double.eq (score64 (snd a)) (score64 (snd b))
              /\ (firstSeen Examples.tieVector Examples.tieKeyword (fst a)
                  < firstSeen Examples.tieVector Examples.tieKeyword
                              (fst b))%nat)).
Proof.
  destruct (fusion_order_tie_break 60 10 Examples.tieVector
                                   Examples.tieKeyword) as (Hn & Ho & _).
  assert (H60 : (0 <= 60)%Z) by lia.
  split; [exact (Hn H60)|].
  eexists. eexists.
  split; [vm_compute; reflexivity|]. split; [vm_compute; reflexivity|].
  split; [reflexivity|]. split; [reflexivity|]. split; [reflexivity|].
  exact (Ho (Hn H60) 0%nat 1%nat _ _ eq_refl eq_refl).
Defined.

(** Rounding decides between scores that are equal as fractions: with
    [k = 60] the entries [P] (ranks 38 and 5) and [R] (ranks 11 and 27) both
    have the exact score 5/198, [R] is seen first, and in double precision
    [1/99 + 1/66] is greater than [1/72 + 1/88], so that the code puts [P]
    first.  With [k = -1] the entry at rank 0 has the score [1 / 0], which is
    [Infinity], and comes first. *)
Lemma rounding_breaks_an_exact_tie :
  Forall (fun id =>
            match Js.get (rrfScores 60 Examples.roundingVector
                                    Examples.roundingKeyword) id with
            | Some entry => score entry == 5 # 198
            | None => False
            end)
         ["P"; "R"]
  /\ (firstSeen Examples.roundingVector Examples.roundingKeyword "R"
      < firstSeen Examples.roundingVector Examples.roundingKeyword "P")%nat
  /\ map fst (firstn 2 (sortedResults64 60 50 Examples.roundingVector
                                        Examples.roundingKeyword))
     = ["P"; "R"]
  /\ map (fun e => (fst e, score64 (snd e)))
         (sortedResults64 (-1) 10 Examples.tieVector Examples.tieKeyword)
     = [("A", S754_infinity false); ("D", S754_infinity false)]
  /\ map (fun e => (fst e, Double.cls (score64 (snd e))))
         (sortedResults64 (-1) 10 Examples.scenarioVector [])
     = [("A", 1%Z); ("B", 0%Z); ("C", 0%Z)].
Proof.
  split; [repeat (constructor; [vm_compute; reflexivity|]); constructor|].
  split; [vm_compute; lia|].
  repeat split; vm_compute; reflexivity.
Qed.

(** Truncation keeps the best entries: whenever no fused score is [NaN], an
    entry of the map that is left out of the fused list has a smaller score,
    as the code computes it in double precision, than any entry kept, or
    the same score and was first seen later. *)
Theorem sortedResults_keeps_the_best (rrfK limit : Z) (vs : list VectorRow)
        (ks : list KeywordRow) (a b : string * RrfEntry64) :
  allNumbers (rrfScores64 rrfK vs ks) = true ->
  In a (sortedResults64 rrfK limit vs ks) ->
  In b (rrfScores64 rrfK vs ks) ->
  ~ In b (sortedResults64 rrfK limit vs ks) ->
  Double.lt (score64 (snd b)) (score64 (snd a))
  \/ (Double.eq (score64 (snd a)) (score64 (snd b))
      /\ (firstSeen vs ks (fst a) < firstSeen vs ks (fst b))%nat).
Proof.
  unfold sortedResults64.
  destruct (slice0_firstn (Js.sort byScoreDesc64 (rrfScores64 rrfK vs ks))
                          limit) as [n [Hn _]].
  rewrite Hn. intros Hnum Ha Hb Hnb.
  pose proof (sorted64_ranked rrfK vs ks Hnum) as Hs.
  apply (in_sort byScoreDesc64) in Hb.
  destruct (in_firstn_or_skipn n _ _ Hb) as [Hb'|Hb']; [contradiction|].
  rewrite <- (firstn_skipn n (Js.sort byScoreDesc64 _)) in Hs.
  exact (StronglySorted_app_cross _ _ _ Hs a b Ha Hb').
Qed.

Lemma sortedResults_keeps_the_best_witness :
  exists a b,
    In a (sortedResults64 60 2 Examples.scenarioVector
                          Examples.scenarioKeyword)
    /\ In b (rrfScores64 60 Examples.scenarioVector Examples.scenarioKeyword)
    /\ ~ In b (sortedResults64 60 2 Examples.scenarioVector
                               Examples.scenarioKeyword)
    /\ fst a = "A" /\ fst b = "C"
    /\ (Double.lt (score64 (snd b)) (score64 (snd a))
        \/ (Double.eq (score64 (snd a)) (score64 (snd b))
            /\ (firstSeen Examples.scenarioVector Examples.scenarioKeyword
                          (fst a)
                < firstSeen Examples.scenarioVector Examples.scenarioKeyword
                            (fst b))%nat)).
Proof.
  eexists. eexists.
  assert (Hn : allNumbers (rrfScores64 60 Examples.scenarioVector
                                       Examples.scenarioKeyword) = true)
    by reflexivity.
  split; [vm_compute; right; left; reflexivity|].
  split; [vm_compute; right; right; left; reflexivity|].
  split; [vm_compute; intros [H|[H|[]]]; discriminate H|].
  split; [reflexivity|]. split; [reflexivity|].
  apply (sortedResults_keeps_the_best 60 2 Examples.scenarioVector
                                      Examples.scenarioKeyword _ _ Hn).
  - vm_compute. right. left. reflexivity.
  - vm_compute. right. right. left. reflexivity.
  - vm_compute. intros [H|[H|[]]]; discriminate H.
Defined.

(** * The OAuth utilities *)

(** ** [sanitizeHtml] *)

Lemma string_app_assoc (a b c : string) :
  ((a ++ b) ++ c = a ++ (b ++ c))%string.
Proof. induction a as [|x a IH]; simpl; auto. now rewrite IH. Qed.

Lemma replaceChar_app c by_ a b :
  JsString.replaceChar c by_ (a ++ b)
  = (JsString.replaceChar c by_ a ++ JsString.replaceChar c by_ b)%string.
Proof.
  induction a as [|x a IH]; simpl; auto.
  destruct (Ascii.eqb x c); rewrite IH;
    [now rewrite string_app_assoc | reflexivity].
Qed.

Lemma sanitizeHtml_app a b :
  sanitizeHtml (a ++ b) = (sanitizeHtml a ++ sanitizeHtml b)%string.
Proof. unfold sanitizeHtml. now rewrite !replaceChar_app. Qed.

Lemma sanitizeHtml_char c :
  sanitizeHtml (String c EmptyString) = escapeChar c.
Proof.
  unfold sanitizeHtml, escapeChar. simpl.
  destruct (Ascii.eqb c "&") eqn:E1; [reflexivity|]. simpl.
  destruct (Ascii.eqb c "<") eqn:E2; [reflexivity|]. simpl.
  destruct (Ascii.eqb c ">") eqn:E3; [reflexivity|]. simpl.
  destruct (Ascii.eqb c dquote) eqn:E4; [reflexivity|]. simpl.
  destruct (Ascii.eqb c "'") eqn:E5; reflexivity.
Qed.

Lemma sanitizeHtml_escapeEach s : sanitizeHtml s = escapeEach s.
Proof.
  induction s as [|c s IH]; [reflexivity|].
  change (String c s) with (String c EmptyString ++ s)%string.
  rewrite sanitizeHtml_app, sanitizeHtml_char, IH. reflexivity.
Qed.

Lemma chars_app a b :
  JsString.chars (a ++ b) = JsString.chars a ++ JsString.chars b.
Proof. induction a as [|x a IH]; simpl; auto. now rewrite IH. Qed.

Lemma escapeChar_cases c :
  (c = "&"%char /\ escapeChar c = "&amp;")
  \/ (c = "<"%char /\ escapeChar c = "&lt;")
  \/ (c = ">"%char /\ escapeChar c = "&gt;")
  \/ (c = dquote /\ escapeChar c = "&quot;")
  \/ (c = "'"%char /\ escapeChar c = "&#039;")
  \/ (c <> "&"%char /\ c <> "<"%char /\ c <> ">"%char /\ c <> dquote
      /\ c <> "'"%char /\ escapeChar c = String c EmptyString).
Proof.
  unfold escapeChar.
  destruct (Ascii.eqb c "&") eqn:E1;
    [apply Ascii.eqb_eq in E1; auto|apply Ascii.eqb_neq in E1].
  destruct (Ascii.eqb c "<") eqn:E2;
    [apply Ascii.eqb_eq in E2; auto|apply Ascii.eqb_neq in E2].
  destruct (Ascii.eqb c ">") eqn:E3;
    [apply Ascii.eqb_eq in E3; auto|apply Ascii.eqb_neq in E3].
  destruct (Ascii.eqb c dquote) eqn:E4;
    [apply Ascii.eqb_eq in E4; auto 6|apply Ascii.eqb_neq in E4].
  destruct (Ascii.eqb c "'") eqn:E5;
    [apply Ascii.eqb_eq in E5; auto 7|apply Ascii.eqb_neq in E5].
  repeat right. auto 10.
Qed.

(** [sanitizeHtml] escapes character by character (the five replacements do
    not interfere), so it distributes over concatenation, leaves a string
    without the five special characters unchanged, and its output contains no
    [<], [>], double quote or single quote. *)
Theorem sanitizeHtml_safe (unsafe : string) :
  sanitizeHtml unsafe = escapeEach unsafe
  /\ (forall rest, sanitizeHtml (unsafe ++ rest)
                   = (sanitizeHtml unsafe ++ sanitizeHtml rest)%string)
  /\ (forall c, In c (JsString.chars (sanitizeHtml unsafe)) ->
                c <> "<"%char /\ c <> ">"%char /\ c <> dquote /\ c <> "'"%char)
  /\ ((forall c, In c (JsString.chars unsafe) ->
                 c <> "&"%char /\ c <> "<"%char /\ c <> ">"%char
                 /\ c <> dquote /\ c <> "'"%char) ->
      sanitizeHtml unsafe = unsafe).
Proof.
  split; [apply sanitizeHtml_escapeEach|].
  split; [intros rest; apply sanitizeHtml_app|].
  rewrite sanitizeHtml_escapeEach. split.
  - induction unsafe as [|x s IH]; simpl; [tauto|].
    intros c Hin. rewrite chars_app, in_app_iff in Hin.
    destruct Hin as [Hin|Hin]; [|auto].
    destruct (escapeChar_cases x)
      as [[_ E]|[[_ E]|[[_ E]|[[_ E]|[[_ E]|(N1 & N2 & N3 & N4 & N5 & E)]]]]];
      rewrite E in Hin; simpl in Hin;
      repeat (destruct Hin as [<-|Hin];
              [repeat split; try discriminate; auto|]);
      try contradiction.
  - induction unsafe as [|x s IH]; simpl; auto.
    intros Hsafe. rewrite IH by (intros c Hc; apply Hsafe; auto).
    destruct (Hsafe x (or_introl eq_refl)) as (N1 & N2 & N3 & N4 & N5).
    destruct (escapeChar_cases x)
      as [[E _]|[[E _]|[[E _]|[[E _]|[[E _]|(_ & _ & _ & _ & _ & E)]]]]];
      try contradiction.
    now rewrite E.
Qed.

Lemma sanitizeHtml_safe_witness :
  sanitizeHtml "Tom & <b>Jerry</b>" = "Tom &amp; &lt;b&gt;Jerry&lt;/b&gt;"
  /\ sanitizeHtml "plain text" = "plain text".
Proof.
  split; [reflexivity|].
  apply (proj2 (proj2 (proj2 (sanitizeHtml_safe "plain text")))).
  intros c Hin. simpl in Hin.
  repeat (destruct Hin as [<-|Hin]; [repeat split; discriminate|]).
  contradiction.
Defined.

Lemma string_app_inv_head (p a b : string) :
  (p ++ a = p ++ b)%string -> a = b.
Proof. induction p as [|x p IH]; simpl; auto. intros H. injection H. auto. Qed.

Lemma escapeEach_injective a : forall b, escapeEach a = escapeEach b -> a = b.
Proof.
  induction a as [|x a IH]; intros [|y b] H; simpl in H; auto.
  - destruct (escapeChar_cases y)
      as [[_ E]|[[_ E]|[[_ E]|[[_ E]|[[_ E]|(_ & _ & _ & _ & _ & E)]]]]];
      rewrite E in H; discriminate.
  - destruct (escapeChar_cases x)
      as [[_ E]|[[_ E]|[[_ E]|[[_ E]|[[_ E]|(_ & _ & _ & _ & _ & E)]]]]];
      rewrite E in H; discriminate.
  - destruct (escapeChar_cases x)
      as [[X E]|[[X E]|[[X E]|[[X E]|[[X E]|(X1 & X2 & X3 & X4 & X5 & E)]]]]];
    destruct (escapeChar_cases y)
      as [[Y F]|[[Y F]|[[Y F]|[[Y F]|[[Y F]|(Y1 & Y2 & Y3 & Y4 & Y5 & F)]]]]];
    rewrite E, F in H;
      first [ subst x y; apply string_app_inv_head in H; f_equal; now apply IH
            | simpl in H; injection H as Hxy Hrest; subst y; f_equal;
              now apply IH
            | simpl in H; exfalso; congruence ].
Qed.

(** [sanitizeHtml] loses nothing: two inputs with the same escaped text are
    the same input. *)
Theorem sanitizeHtml_injective (a b : string) :
  sanitizeHtml a = sanitizeHtml b -> a = b.
Proof.
  rewrite !sanitizeHtml_escapeEach. apply escapeEach_injective.
Qed.

Lemma sanitizeHtml_injective_witness :
  sanitizeHtml "a<b" = sanitizeHtml "a<b" /\ "a<b" = "a<b".
Proof.
  split; [reflexivity|].
  exact (sanitizeHtml_injective "a<b" "a<b" eq_refl).
Defined.

(** ** URL-safe base64 *)

Ltac nlia := zify; Z.to_euclidean_division_equations; lia.

Lemma string_ind3 (P : string -> Prop) :
  P EmptyString ->
  (forall a, P (String a EmptyString)) ->
  (forall a b, P (String a (String b EmptyString))) ->
  (forall a b c rest, P rest -> P (String a (String b (String c rest)))) ->
  forall s, P s.
Proof.
  intros H0 H1 H2 H3.
  assert (H : forall s, P s /\ (forall a, P (String a s))
                        /\ (forall a b, P (String a (String b s)))).
  { induction s as [|x s (IH0 & IH1 & IH2)]; [auto|].
    split; [apply IH1|]. split; [intros a; apply IH2|].
    intros a b. now apply H3. }
  intros s. apply H.
Qed.

Lemma sextet_range n : (n < 64)%N -> In (N.to_nat n) (seq 0 64).
Proof. intros H. apply in_seq. lia. Qed.

Lemma charOf_checked :
  forallb (fun i =>
             let c := Base64.charOf (N.of_nat i) in
             match Base64.valueOf c with
             | Some m => (m =? N.of_nat i)%N
             | None => false
             end
             && negb (Ascii.eqb c "=") && negb (Base64.isAsciiWhitespace c)
             && isUrlSafeChar
                  (if Ascii.eqb c "+" then "-"%char
                   else if Ascii.eqb c "/" then "_"%char else c)
             && negb (Ascii.eqb c "-") && negb (Ascii.eqb c "_"))
          (seq 0 64) = true.
Proof. vm_compute. reflexivity. Qed.

Lemma charOf_facts c :
  isSextetChar c ->
  (exists n, (n < 64)%N /\ Base64.valueOf c = Some n /\ c = Base64.charOf n)
  /\ c <> "="%char
  /\ Base64.isAsciiWhitespace c = false
  /\ isUrlSafeChar (if Ascii.eqb c "+" then "-"%char
                    else if Ascii.eqb c "/" then "_"%char else c) = true
  /\ c <> "-"%char /\ c <> "_"%char.
Proof.
  intros [n [Hn ->]].
  pose proof charOf_checked as H. rewrite forallb_forall in H.
  specialize (H _ (sextet_range n Hn)). rewrite N2Nat.id in H. cbv zeta in H.
  rewrite !Bool.andb_true_iff, !Bool.negb_true_iff in H.
  destruct H as [[[[[Hv He] Hw] Hu] Hm] Hs].
  split.
  - exists n. split; auto. split; auto.
    destruct (Base64.valueOf (Base64.charOf n)) as [m|]; [|discriminate].
    apply N.eqb_eq in Hv. now subst.
  - repeat split; auto; now apply Ascii.eqb_neq.
Qed.

Lemma recombine4 n :
  ((((n / 262144) * 64 + n / 4096 mod 64) * 64 + n / 64 mod 64) * 64
   + n mod 64 = n)%N.
Proof.
  replace (n / 262144)%N with (n / 64 / 64 / 64)%N
    by (rewrite !N.Div0.div_div; reflexivity).
  replace (n / 4096)%N with (n / 64 / 64)%N
    by (rewrite !N.Div0.div_div; reflexivity).
  pose proof (N.Div0.div_mod n 64).
  pose proof (N.Div0.div_mod (n / 64) 64).
  pose proof (N.Div0.div_mod (n / 64 / 64) 64).
  lia.
Qed.

Lemma recombine3 n :
  (((n / 4096) * 64 + n / 64 mod 64) * 64 + n mod 64 = n)%N.
Proof.
  replace (n / 4096)%N with (n / 64 / 64)%N
    by (rewrite !N.Div0.div_div; reflexivity).
  pose proof (N.Div0.div_mod n 64).
  pose proof (N.Div0.div_mod (n / 64) 64).
  lia.
Qed.

Lemma recombine2 n : ((n / 64) * 64 + n mod 64 = n)%N.
Proof. pose proof (N.Div0.div_mod n 64). lia. Qed.

Lemma bytes3 a b c :
  (a < 256 -> b < 256 -> c < 256 ->
   ((a * 256 + b) * 256 + c) / 65536 = a
   /\ ((a * 256 + b) * 256 + c) / 256 mod 256 = b
   /\ ((a * 256 + b) * 256 + c) mod 256 = c
   /\ ((a * 256 + b) * 256 + c) / 262144 < 64)%N.
Proof. intros Ha Hb Hc. repeat split; nlia. Qed.

Lemma bytes2 a b :
  (a < 256 -> b < 256 ->
   (a * 256 + b) * 4 / 1024 = a
   /\ (a * 256 + b) * 4 / 4 mod 256 = b
   /\ (a * 256 + b) * 4 / 4096 < 64)%N.
Proof. intros Ha Hb. repeat split; nlia. Qed.

Lemma bytes1 a : (a < 256 -> a * 16 / 16 = a /\ a * 16 / 64 < 64)%N.
Proof. intros Ha. split; nlia. Qed.

Lemma sextet_bounds n :
  (n mod 64 < 64 /\ n / 64 mod 64 < 64 /\ n / 4096 mod 64 < 64)%N.
Proof. repeat split; nlia. Qed.

Lemma valueOf_charOf n : (n < 64)%N -> Base64.valueOf (Base64.charOf n) = Some n.
Proof.
  intros Hn.
  destruct (charOf_facts (Base64.charOf n)) as [[m (Hm & Hv & Hc)] _];
    [now exists n|].
  pose proof charOf_checked as H. rewrite forallb_forall in H.
  specialize (H _ (sextet_range n Hn)). rewrite N2Nat.id in H. cbv zeta in H.
  rewrite !Bool.andb_true_iff in H. destruct H as [[[[[H _] _] _] _] _].
  destruct (Base64.valueOf (Base64.charOf n)) as [k|]; [|discriminate].
  apply N.eqb_eq in H. now subst.
Qed.

Lemma btoa_body_padding s :
  Base64.btoa s = (base64Body s ++ base64Padding s)%string.
Proof.
  induction s as [| a | a b | a b c rest IH] using string_ind3;
    try reflexivity.
  simpl. now rewrite IH.
Qed.

Lemma body_sextets s : Forall isSextetChar (JsString.chars (base64Body s)).
Proof.
  induction s as [| a | a b | a b c rest IH] using string_ind3.
  - constructor.
  - pose proof (N_ascii_bounded a) as Ha.
    destruct (bytes1 _ Ha) as [_ H].
    destruct (sextet_bounds (N_of_ascii a * 16)) as (S0 & _ & _).
    cbn [base64Body JsString.chars]. cbv zeta.
    repeat (constructor; [eexists; split; [|reflexivity]; assumption|]).
    constructor.
  - pose proof (N_ascii_bounded a) as Ha. pose proof (N_ascii_bounded b) as Hb.
    destruct (bytes2 _ _ Ha Hb) as (_ & _ & H).
    destruct (sextet_bounds ((N_of_ascii a * 256 + N_of_ascii b) * 4))
      as (S0 & S1 & _).
    cbn [base64Body JsString.chars]. cbv zeta.
    repeat (constructor; [eexists; split; [|reflexivity]; assumption|]).
    constructor.
  - pose proof (N_ascii_bounded a) as Ha. pose proof (N_ascii_bounded b) as Hb.
    pose proof (N_ascii_bounded c) as Hc.
    destruct (bytes3 _ _ _ Ha Hb Hc) as (_ & _ & _ & H).
    destruct (sextet_bounds ((N_of_ascii a * 256 + N_of_ascii b) * 256
                             + N_of_ascii c)) as (S0 & S1 & S2).
    cbn [base64Body JsString.chars]. cbv zeta.
    repeat (constructor; [eexists; split; [|reflexivity]; assumption|]).
    exact IH.
Qed.

Lemma body_decodes s :
  exists vs, Base64.values (base64Body s) = Some vs
             /\ Base64.decodeValues vs = s.
Proof.
  induction s as [| a | a b | a b c rest [vs [Hvs Hdec]]] using string_ind3.
  - exists []. split; reflexivity.
  - pose proof (N_ascii_bounded a) as Ha.
    destruct (bytes1 _ Ha) as [Hb0 H0].
    destruct (sextet_bounds (N_of_ascii a * 16)) as (S0 & _ & _).
    eexists. split.
    + cbn [base64Body Base64.values]. cbv zeta.
      rewrite !valueOf_charOf by assumption. reflexivity.
    + cbn [Base64.decodeValues]. cbv zeta. rewrite recombine2, Hb0.
      now rewrite ascii_N_embedding.
  - pose proof (N_ascii_bounded a) as Ha. pose proof (N_ascii_bounded b) as Hb.
    destruct (bytes2 _ _ Ha Hb) as (B0 & B1 & H0).
    destruct (sextet_bounds ((N_of_ascii a * 256 + N_of_ascii b) * 4))
      as (S0 & S1 & _).
    eexists. split.
    + cbn [base64Body Base64.values]. cbv zeta.
      rewrite !valueOf_charOf by assumption. reflexivity.
    + cbn [Base64.decodeValues]. cbv zeta. rewrite recombine3, B0, B1.
      now rewrite !ascii_N_embedding.
  - pose proof (N_ascii_bounded a) as Ha. pose proof (N_ascii_bounded b) as Hb.
    pose proof (N_ascii_bounded c) as Hc.
    destruct (bytes3 _ _ _ Ha Hb Hc) as (B0 & B1 & B2 & H0).
    destruct (sextet_bounds ((N_of_ascii a * 256 + N_of_ascii b) * 256
                             + N_of_ascii c)) as (S0 & S1 & S2).
    eexists. split.
    + cbn [base64Body Base64.values]. cbv zeta.
      rewrite !valueOf_charOf by assumption. rewrite Hvs. reflexivity.
    + cbn [Base64.decodeValues]. cbv zeta. rewrite recombine4, B0, B1, B2.
      now rewrite !ascii_N_embedding, Hdec.
Qed.

Lemma string_length_app (a b : string) :
  String.length (a ++ b) = (String.length a + String.length b)%nat.
Proof. induction a as [|x a IH]; simpl; auto. Qed.

Lemma string_app_nil_r (a : string) : (a ++ EmptyString)%string = a.
Proof. induction a as [|x a IH]; simpl; auto. now rewrite IH. Qed.

Lemma body_length s :
  exists k,
    (String.length (base64Body s) = 4 * k /\ base64Padding s = EmptyString)%nat
    \/ (String.length (base64Body s) = 4 * k + 2 /\ base64Padding s = "==")%nat
    \/ (String.length (base64Body s) = 4 * k + 3 /\ base64Padding s = "=")%nat.
Proof.
  induction s as [| a | a b | a b c rest [k IH]] using string_ind3.
  - exists 0%nat. left. split; reflexivity.
  - exists 0%nat. right. left. split; reflexivity.
  - exists 0%nat. right. right. split; reflexivity.
  - exists (S k). cbn [base64Body base64Padding String.length]. cbv zeta.
    cbn [String.length].
    destruct IH as [[H P]|[[H P]|[H P]]]; rewrite H, P;
      [left | right; left | right; right]; split; auto; lia.
Qed.

Lemma dropFinalEq_snoc b : Base64.dropFinalEq (b ++ "=") = b.
Proof.
  induction b as [|c b IH]; [reflexivity|].
  simpl. destruct b as [|d b]; simpl in *; [reflexivity|]. now rewrite IH.
Qed.

Lemma dropFinalEq_none b :
  Forall (fun c => c <> "="%char) (JsString.chars b) ->
  Base64.dropFinalEq b = b.
Proof.
  induction b as [|c b IH]; simpl; auto. intros H. inversion H; subst.
  destruct b as [|d b].
  - destruct (Ascii.eqb c "=") eqn:E; auto. apply Ascii.eqb_eq in E. contradiction.
  - now rewrite IH.
Qed.

Lemma removeWhitespace_none b :
  Forall (fun c => Base64.isAsciiWhitespace c = false) (JsString.chars b) ->
  Base64.removeWhitespace b = b.
Proof.
  induction b as [|c b IH]; simpl; auto. intros H. inversion H as [|? ? Hc Hb]; subst.
  now rewrite Hc, IH.
Qed.

Lemma stripTrailingEquals_none b :
  Forall (fun c => c <> "="%char) (JsString.chars b) ->
  stripTrailingEquals b = b.
Proof.
  induction b as [|c b IH]; simpl; auto. intros H. inversion H; subst.
  rewrite IH by assumption. destruct b; auto.
  destruct (Ascii.eqb c "=") eqn:E; auto. apply Ascii.eqb_eq in E. contradiction.
Qed.

Lemma stripTrailingEquals_snoc b :
  stripTrailingEquals (b ++ "=") = stripTrailingEquals b.
Proof.
  induction b as [|c b IH]; [reflexivity|]. simpl. now rewrite IH.
Qed.

Lemma sextets_no_equals b :
  Forall isSextetChar (JsString.chars b) ->
  Forall (fun c => c <> "="%char) (JsString.chars b)
  /\ Forall (fun c => Base64.isAsciiWhitespace c = false) (JsString.chars b).
Proof.
  intros H. split; eapply Forall_impl; try exact H;
    intros c Hc; now destruct (charOf_facts c Hc) as (_ & ? & ? & _).
Qed.

Lemma padding_cases s :
  base64Padding s = EmptyString \/ base64Padding s = "=" \/ base64Padding s = "==".
Proof.
  destruct (body_length s) as [k [[_ H]|[[_ H]|[_ H]]]]; auto.
Qed.

(** [atob] undoes [btoa]. *)
Lemma atob_btoa s : Base64.atob (Base64.btoa s) = Some s.
Proof.
  rewrite btoa_body_padding. unfold Base64.atob.
  destruct (sextets_no_equals _ (body_sextets s)) as [Hne Hnw].
  assert (Hws : Base64.removeWhitespace (base64Body s ++ base64Padding s)
                = (base64Body s ++ base64Padding s)%string).
  { apply removeWhitespace_none. rewrite chars_app. apply Forall_app.
    split; auto.
    destruct (padding_cases s) as [P|[P|P]]; rewrite P; repeat constructor. }
  rewrite Hws. cbv zeta.
  assert (Hstrip : Base64.stripPadding (base64Body s ++ base64Padding s)
                   = base64Body s).
  { unfold Base64.stripPadding. rewrite string_length_app.
    destruct (body_length s) as [k [[H P]|[[H P]|[H P]]]]; rewrite H, P.
    - rewrite string_app_nil_r.
      replace ((4 * k + String.length EmptyString) mod 4 =? 0)%nat with true
        by (symmetry; apply Nat.eqb_eq; cbn [String.length]; nlia).
      now rewrite (dropFinalEq_none _ Hne), (dropFinalEq_none _ Hne).
    - replace ((4 * k + 2 + String.length "==") mod 4 =? 0)%nat with true
        by (symmetry; apply Nat.eqb_eq; cbn [String.length]; nlia).
      change "==" with ("=" ++ "=")%string.
      rewrite <- string_app_assoc, !dropFinalEq_snoc. reflexivity.
    - replace ((4 * k + 3 + String.length "=") mod 4 =? 0)%nat with true
        by (symmetry; apply Nat.eqb_eq; cbn [String.length]; nlia).
      rewrite dropFinalEq_snoc. now apply dropFinalEq_none. }
  rewrite Hstrip.
  assert (Hlen : (String.length (base64Body s) mod 4 =? 1)%nat = false).
  { apply Nat.eqb_neq.
    destruct (body_length s) as [k [[H _]|[[H _]|[H _]]]]; rewrite H; nlia. }
  rewrite Hlen.
  destruct (body_decodes s) as [vs [Hvs Hdec]]. now rewrite Hvs, Hdec.
Qed.

Lemma toUrlSafe_app a b : toUrlSafe (a ++ b) = (toUrlSafe a ++ toUrlSafe b)%string.
Proof. unfold toUrlSafe. now rewrite !replaceChar_app. Qed.

Lemma fromUrlSafe_app a b :
  fromUrlSafe (a ++ b) = (fromUrlSafe a ++ fromUrlSafe b)%string.
Proof. unfold fromUrlSafe. now rewrite !replaceChar_app. Qed.

Lemma toUrlSafe_char c :
  toUrlSafe (String c EmptyString)
  = String (if Ascii.eqb c "+" then "-"%char
            else if Ascii.eqb c "/" then "_"%char else c) EmptyString.
Proof.
  unfold toUrlSafe. simpl.
  destruct (Ascii.eqb c "+") eqn:E1; [reflexivity|]. simpl.
  destruct (Ascii.eqb c "/"); reflexivity.
Qed.

Lemma fromUrlSafe_toUrlSafe_char c :
  c <> "-"%char -> c <> "_"%char ->
  fromUrlSafe (toUrlSafe (String c EmptyString)) = String c EmptyString.
Proof.
  intros H1 H2. rewrite toUrlSafe_char. unfold fromUrlSafe.
  destruct (Ascii.eqb c "+") eqn:E1.
  - apply Ascii.eqb_eq in E1. now subst.
  - destruct (Ascii.eqb c "/") eqn:E2.
    + apply Ascii.eqb_eq in E2. now subst.
    + apply Ascii.eqb_neq in H1, H2. simpl. rewrite H1. simpl. now rewrite H2.
Qed.

Lemma toUrlSafe_body b :
  Forall isSextetChar (JsString.chars b) ->
  fromUrlSafe (toUrlSafe b) = b
  /\ Forall (fun c => isUrlSafeChar c = true) (JsString.chars (toUrlSafe b)).
Proof.
  induction b as [|c b IH]; simpl; intros H.
  - split; [reflexivity | constructor].
  - inversion H as [|? ? Hc Hb]; subst. destruct (IH Hb) as [IH1 IH2].
    destruct (charOf_facts c Hc) as (_ & _ & _ & Hu & Hm & Hs).
    change (String c b) with (String c EmptyString ++ b)%string.
    rewrite toUrlSafe_app, fromUrlSafe_app, IH1.
    rewrite (fromUrlSafe_toUrlSafe_char c Hm Hs). split; [reflexivity|].
    rewrite toUrlSafe_char. simpl. constructor; auto.
Qed.

Lemma urlSafe_no_equals b :
  Forall (fun c => isUrlSafeChar c = true) (JsString.chars b) ->
  Forall (fun c => c <> "="%char) (JsString.chars b).
Proof.
  intros H. eapply Forall_impl; [|exact H]. intros c Hc ->. discriminate.
Qed.

Lemma urlSafeBase64Encode_body data :
  urlSafeBase64Encode data = toUrlSafe (base64Body data).
Proof.
  unfold urlSafeBase64Encode. cbv zeta. fold (toUrlSafe (Base64.btoa data)).
  rewrite btoa_body_padding, toUrlSafe_app.
  destruct (toUrlSafe_body _ (body_sextets data)) as [_ Hsafe].
  pose proof (stripTrailingEquals_none _ (urlSafe_no_equals _ Hsafe)) as Hnone.
  destruct (padding_cases data) as [P|[P|P]]; rewrite P.
  - now rewrite string_app_nil_r.
  - change (toUrlSafe "=") with "=". now rewrite stripTrailingEquals_snoc.
  - change (toUrlSafe "==") with ("=" ++ "=")%string.
    now rewrite <- string_app_assoc, !stripTrailingEquals_snoc.
Qed.

Lemma padToMultipleOf4_body data :
  padToMultipleOf4 3 (base64Body data) = Base64.btoa data.
Proof.
  rewrite btoa_body_padding.
  destruct (body_length data) as [k [[H P]|[[H P]|[H P]]]]; rewrite P.
  - rewrite string_app_nil_r. cbn [padToMultipleOf4]. rewrite H.
    replace ((4 * k) mod 4 =? 0)%nat with true
      by (symmetry; apply Nat.eqb_eq; nlia).
    reflexivity.
  - cbn [padToMultipleOf4]. rewrite !string_length_app, H. cbn [String.length].
    replace ((4 * k + 2) mod 4 =? 0)%nat with false
      by (symmetry; apply Nat.eqb_neq; nlia).
    replace ((4 * k + 2 + 1) mod 4 =? 0)%nat with false
      by (symmetry; apply Nat.eqb_neq; nlia).
    replace ((4 * k + 2 + 1 + 1) mod 4 =? 0)%nat with true
      by (symmetry; apply Nat.eqb_eq; nlia).
    now rewrite string_app_assoc.
  - cbn [padToMultipleOf4]. rewrite !string_length_app, H. cbn [String.length].
    replace ((4 * k + 3) mod 4 =? 0)%nat with false
      by (symmetry; apply Nat.eqb_neq; nlia).
    replace ((4 * k + 3 + 1) mod 4 =? 0)%nat with true
      by (symmetry; apply Nat.eqb_eq; nlia).
    reflexivity.
Qed.

Lemma urlSafeBase64Decode_encode data :
  urlSafeBase64Decode (urlSafeBase64Encode data) = Some data.
Proof.
  unfold urlSafeBase64Decode. cbv zeta.
  fold (fromUrlSafe (urlSafeBase64Encode data)).
  rewrite urlSafeBase64Encode_body.
  destruct (toUrlSafe_body _ (body_sextets data)) as [Hback _].
  rewrite Hback, padToMultipleOf4_body. apply atob_btoa.
Qed.

(** Decoding undoes encoding: [urlSafeBase64Decode] returns the data that
    [urlSafeBase64Encode] was given, and it also decodes the standard
    base64 text of [btoa]. *)
Theorem urlSafeBase64_round_trip (data : string) :
  urlSafeBase64Decode (urlSafeBase64Encode data) = Some data
  /\ urlSafeBase64Decode (Base64.btoa data) = Some data.
Proof.
  split.
  - apply urlSafeBase64Decode_encode.
  - unfold urlSafeBase64Decode. cbv zeta. fold (fromUrlSafe (Base64.btoa data)).
    assert (Hsame : fromUrlSafe (Base64.btoa data) = Base64.btoa data).
    { rewrite btoa_body_padding, fromUrlSafe_app.
      assert (Hb : fromUrlSafe (base64Body data) = base64Body data).
      { pose proof (body_sextets data) as Hs.
        induction (base64Body data) as [|c b IH]; [reflexivity|].
        simpl in Hs. inversion Hs as [|? ? Hc Hb]; subst.
        destruct (charOf_facts c Hc) as (_ & _ & _ & _ & Hm & Hu).
        change (String c b) with (String c EmptyString ++ b)%string.
        rewrite fromUrlSafe_app, (IH Hb). unfold fromUrlSafe.
        apply Ascii.eqb_neq in Hm, Hu. simpl. rewrite Hm. simpl.
        now rewrite Hu. }
      rewrite Hb.
      destruct (padding_cases data) as [P|[P|P]]; rewrite P; reflexivity. }
    rewrite Hsame.
    assert (Hpad : padToMultipleOf4 3 (Base64.btoa data) = Base64.btoa data).
    { cbn [padToMultipleOf4]. rewrite btoa_body_padding, string_length_app.
      destruct (body_length data) as [k [[H P]|[[H P]|[H P]]]];
        rewrite H, P; cbn [String.length];
        match goal with
        | |- (if (?n mod 4 =? 0)%nat then _ else _) = _ =>
            replace (n mod 4 =? 0)%nat with true
              by (symmetry; apply Nat.eqb_eq; nlia)
        end; reflexivity. }
    rewrite Hpad. apply atob_btoa.
Qed.

(** The encoded text consists of letters, digits, [-] and [_] only: it has
    no [+], [/], [=], [.], [;] or white space. *)
Theorem urlSafeBase64Encode_alphabet (data : string) (c : ascii) :
  In c (JsString.chars (urlSafeBase64Encode data)) ->
  isUrlSafeChar c = true
  /\ c <> "+"%char /\ c <> "/"%char /\ c <> "="%char /\ c <> "."%char
  /\ c <> ";"%char /\ c <> " "%char.
Proof.
  rewrite urlSafeBase64Encode_body. intros Hin.
  destruct (toUrlSafe_body _ (body_sextets data)) as [_ Hsafe].
  rewrite Forall_forall in Hsafe. specialize (Hsafe c Hin).
  split; [exact Hsafe|]. repeat split; intros ->; discriminate.
Qed.

Lemma urlSafeBase64Encode_alphabet_witness :
  urlSafeBase64Encode "??>>" = "Pz8-Pg"
  /\ isUrlSafeChar "-" = true.
Proof.
  split; [reflexivity|].
  apply (urlSafeBase64Encode_alphabet "??>>" "-").
  vm_compute. auto 10.
Defined.

(** ** Signatures in hexadecimal *)

Lemma bytes_eqb_eq a : forall b, bytes_eqb a b = true <-> a = b.
Proof.
  induction a as [|x a IH]; intros [|y b]; simpl; split; try congruence; auto.
  - rewrite Bool.andb_true_iff, Ascii.eqb_eq, IH. intros [-> ->]. reflexivity.
  - intros H. injection H as -> ->. rewrite Ascii.eqb_refl. simpl.
    now apply IH.
Qed.

Lemma hex_digit_checked :
  forallb (fun i =>
             let c := Hex.digit (N.of_nat i) in
             match Hex.valueOf c with
             | Some v => (v =? N.of_nat i)%N
             | None => false
             end
             && negb (JsText.isWhitespace c) && negb (Ascii.eqb c ";")
             && negb (Ascii.eqb c "."))
          (seq 0 16) = true.
Proof. vm_compute. reflexivity. Qed.

Lemma hex_digit_facts n :
  (n < 16)%N ->
  Hex.valueOf (Hex.digit n) = Some n
  /\ JsText.isWhitespace (Hex.digit n) = false
  /\ Hex.digit n <> ";"%char /\ Hex.digit n <> "."%char.
Proof.
  intros Hn. pose proof hex_digit_checked as H. rewrite forallb_forall in H.
  assert (Hin : In (N.to_nat n) (seq 0 16)) by (apply in_seq; lia).
  specialize (H _ Hin). rewrite N2Nat.id in H. cbv zeta in H.
  rewrite !Bool.andb_true_iff, !Bool.negb_true_iff in H.
  destruct H as [[[Hv Hw] Hs] Hd].
  repeat split; auto; try now apply Ascii.eqb_neq.
  destruct (Hex.valueOf (Hex.digit n)) as [v|]; [|discriminate].
  apply N.eqb_eq in Hv. now subst.
Qed.

Lemma byte_digits b :
  (N_of_ascii b / 16 < 16 /\ N_of_ascii b mod 16 < 16
   /\ (0 * 16 + N_of_ascii b / 16) * 16 + N_of_ascii b mod 16 = N_of_ascii b
   /\ N_of_ascii b mod 256 = N_of_ascii b)%N.
Proof. pose proof (N_ascii_bounded b). repeat split; nlia. Qed.

Lemma parseInt_ofByte b :
  Hex.toUint8 (Hex.parseInt (Hex.ofByte b)) = b.
Proof.
  destruct (byte_digits b) as (H1 & H2 & H3 & H4).
  destruct (hex_digit_facts _ H1) as [V1 _].
  destruct (hex_digit_facts _ H2) as [V2 _].
  unfold Hex.ofByte, Hex.parseInt. cbv zeta. rewrite V1.
  cbn [Hex.parseDigits]. rewrite V1, V2. cbn [Hex.toUint8].
  rewrite H3, H4. apply ascii_N_embedding.
Qed.

Lemma pairs_ofBytes bytes :
  Hex.pairs (Hex.ofBytes bytes) = map Hex.ofByte bytes.
Proof.
  induction bytes as [|b bytes IH]; [reflexivity|].
  cbn [Hex.ofBytes map]. unfold Hex.ofByte at 1. cbv zeta.
  cbn [append Hex.pairs]. now rewrite IH.
Qed.

Lemma length_ofBytes bytes :
  String.length (Hex.ofBytes bytes) = (2 * List.length bytes)%nat.
Proof.
  induction bytes as [|b bytes IH]; [reflexivity|].
  cbn [Hex.ofBytes]. unfold Hex.ofByte. cbv zeta. cbn [append String.length List.length].
  rewrite IH. lia.
Qed.

Lemma ofBytes_digits bytes :
  Forall (fun c => Hex.isDigit c = true /\ JsText.isWhitespace c = false
                   /\ c <> ";"%char /\ c <> "."%char)
         (JsString.chars (Hex.ofBytes bytes)).
Proof.
  induction bytes as [|b bytes IH]; [constructor|].
  cbn [Hex.ofBytes]. unfold Hex.ofByte. cbv zeta. cbn [append JsString.chars].
  destruct (byte_digits b) as (H1 & H2 & _).
  destruct (hex_digit_facts _ H1) as (V1 & W1 & S1 & D1).
  destruct (hex_digit_facts _ H2) as (V2 & W2 & S2 & D2).
  constructor; [unfold Hex.isDigit; rewrite V1; auto|].
  constructor; [unfold Hex.isDigit; rewrite V2; auto|]. exact IH.
Qed.

Lemma map_parse_ofByte bytes :
  map (fun byte => Hex.toUint8 (Hex.parseInt byte)) (map Hex.ofByte bytes)
  = bytes.
Proof.
  induction bytes as [|b bytes IH]; [reflexivity|].
  cbn [map]. now rewrite parseInt_ofByte, IH.
Qed.

Lemma test_ofBytes bytes :
  bytes <> [] -> Hex.test (Hex.ofBytes bytes) = true.
Proof.
  intros Hne. unfold Hex.test.
  assert (Hall : forallb Hex.isDigit (JsString.chars (Hex.ofBytes bytes)) = true).
  { apply forallb_forall. intros c Hc.
    pose proof (ofBytes_digits bytes) as H. rewrite Forall_forall in H.
    now apply H. }
  destruct bytes as [|b bytes]; [contradiction|].
  rewrite Hall. reflexivity.
Qed.

Lemma verifySignature_signData hmac key data :
  List.length (hmac key (JsText.encode data)) = 32%nat ->
  verifySignature hmac key (signData hmac key data) data = true.
Proof.
  intros Hlen. unfold verifySignature, signData.
  rewrite test_ofBytes
    by (intros E; rewrite E in Hlen; discriminate).
  rewrite length_ofBytes, Hlen. cbn [negb orb Nat.eqb Nat.mul Nat.add].
  unfold Hex.matchPairs. rewrite pairs_ofBytes.
  destruct (hmac key (JsText.encode data)) as [|b bytes] eqn:E;
    [discriminate|].
  cbn [map]. rewrite parseInt_ofByte, map_parse_ofByte.
  unfold verify. rewrite E. now apply bytes_eqb_eq.
Qed.

(** A signature that is not exactly 64 hexadecimal digits is rejected
    whatever the key and the text; the signature [signData] writes for a text
    is accepted for that text; and every accepted signature spells, up to the
    case of its digits, the signature [signData] writes. *)
Theorem signature_verification
        (hmac : list ascii -> list ascii -> list ascii)
        (key : list ascii) (data : string) :
  List.length (hmac key (JsText.encode data)) = 32%nat ->
  verifySignature hmac key (signData hmac key data) data = true
  /\ (forall signatureHex,
         Hex.test signatureHex = false
         \/ String.length signatureHex <> 64%nat ->
         verifySignature hmac key signatureHex data = false)
  /\ (forall signatureHex,
         verifySignature hmac key signatureHex data = true ->
         Hex.ofBytes (map (fun byte => Hex.toUint8 (Hex.parseInt byte))
                          (Hex.pairs signatureHex))
         = signData hmac key data).
Proof.
  intros Hlen. split; [|split].
  - now apply verifySignature_signData.
  - intros signatureHex [H|H]; unfold verifySignature.
    + now rewrite H.
    + apply Nat.eqb_neq in H. rewrite H. now rewrite Bool.orb_true_r.
  - intros signatureHex. unfold verifySignature, signData.
    destruct (negb (Hex.test signatureHex)
              || negb (String.length signatureHex =? 64)%nat); [discriminate|].
    unfold Hex.matchPairs.
    destruct (Hex.pairs signatureHex) as [|p ps]; [discriminate|].
    cbv zeta. unfold verify. intros H. apply bytes_eqb_eq in H. now rewrite H.
Qed.

Lemma signature_verification_witness :
  List.length (Examples.toyHmac [] (JsText.encode "payload")) = 32%nat
  /\ verifySignature Examples.toyHmac []
                     (signData Examples.toyHmac [] "payload") "payload" = true.
Proof.
  split; [reflexivity|].
  exact (proj1 (signature_verification Examples.toyHmac [] "payload" eq_refl)).
Defined.

(** ** The approval cookie *)

Lemma split_none sep s :
  Forall (fun c => c <> sep) (JsString.chars s) -> JsText.split sep s = [s].
Proof.
  induction s as [|c s IH]; simpl; auto. intros H. inversion H; subst.
  rewrite IH by assumption.
  destruct (Ascii.eqb c sep) eqn:E; auto.
  apply Ascii.eqb_eq in E. contradiction.
Qed.

Lemma split_once sep a b :
  Forall (fun c => c <> sep) (JsString.chars a) ->
  Forall (fun c => c <> sep) (JsString.chars b) ->
  JsText.split sep (a ++ String sep b) = [a; b].
Proof.
  intros Ha Hb. induction a as [|c a IH]; simpl.
  - rewrite Ascii.eqb_refl. now rewrite split_none.
  - inversion Ha; subst. rewrite IH by assumption.
    destruct (Ascii.eqb c sep) eqn:E; auto.
    apply Ascii.eqb_eq in E. contradiction.
Qed.

Lemma trim_none s :
  Forall (fun c => JsText.isWhitespace c = false) (JsString.chars s) ->
  JsText.trim s = s.
Proof.
  intros H. unfold JsText.trim.
  assert (Hs : JsText.trimStart s = s).
  { destruct s as [|c s]; simpl; auto. inversion H as [|? ? Hc _]; subst.
    now rewrite Hc. }
  rewrite Hs. clear Hs. induction s as [|c s IH]; simpl; auto.
  inversion H as [|? ? Hc Hrest]; subst. rewrite IH by assumption.
  destruct s; rewrite ?Hc; reflexivity.
Qed.

Lemma substringFrom_app p v :
  JsText.substringFrom (String.length p) (p ++ v) = v.
Proof. induction p as [|c p IH]; simpl; auto. Qed.

Lemma startsWith_app p v : JsText.startsWith (p ++ v) p = true.
Proof. unfold JsText.startsWith. apply prefix_spec. now exists v. Qed.

Lemma urlSafe_cookie_chars c :
  isUrlSafeChar c = true ->
  JsText.isWhitespace c = false /\ c <> ";"%char /\ c <> "."%char.
Proof.
  intros H. split; [|split; intros ->; discriminate].
  unfold isUrlSafeChar in H. unfold JsText.isWhitespace. cbv zeta in *.
  pose proof (N_ascii_bounded c).
  destruct ((9 <=? N_of_ascii c) && (N_of_ascii c <=? 13)
            || (N_of_ascii c =? 32) || (N_of_ascii c =? 160))%N eqn:E; auto.
  rewrite ?Bool.orb_true_iff, ?Bool.andb_true_iff in H.
  rewrite ?Bool.orb_true_iff, ?Bool.andb_true_iff in E.
  rewrite ?N.leb_le, ?N.eqb_eq in H. rewrite ?N.leb_le, ?N.eqb_eq in E. lia.
Qed.

Lemma allStrings_map l : allStrings (map Js.JString l) = Some l.
Proof. induction l as [|s l IH]; simpl; auto. now rewrite IH. Qed.

Lemma includes_In arr x : JsText.includes arr x = true <-> In x arr.
Proof.
  unfold JsText.includes. rewrite existsb_exists. split.
  - intros [y [Hy E]]. apply String.eqb_eq in E. now subst.
  - intros H. exists x. split; auto. apply String.eqb_refl.
Qed.

Lemma unique_spec arr :
  NoDup (JsText.unique arr) /\ forall x, In x (JsText.unique arr) <-> In x arr.
Proof.
  unfold JsText.unique. split.
  - apply NoDup_add_keys. constructor.
  - intros x. rewrite in_add_keys. simpl. tauto.
Qed.

Lemma importKey_long secret :
  (32 <= List.length (JsText.encode secret))%nat ->
  importKey secret = Returns (JsText.encode secret).
Proof.
  intros H. unfold importKey. destruct secret as [|c s]; [simpl in H; lia|].
  cbv zeta. apply Nat.ltb_ge in H. now rewrite H.
Qed.

Lemma cookie_name_chars :
  Forall (fun c => JsText.isWhitespace c = false /\ c <> ";"%char)
         (JsString.chars (COOKIE_NAME ++ "=")).
Proof. repeat constructor; discriminate. Qed.

Lemma cookie_found value :
  Forall (fun c => JsText.isWhitespace c = false /\ c <> ";"%char)
         (JsString.chars value) ->
  find (fun c => JsText.startsWith c (COOKIE_NAME ++ "=")%string)
       (map JsText.trim (JsText.split ";" ((COOKIE_NAME ++ "=") ++ value)))
  = Some ((COOKIE_NAME ++ "=") ++ value)%string.
Proof.
  intros Hv.
  assert (Hall : Forall (fun c => JsText.isWhitespace c = false /\ c <> ";"%char)
                        (JsString.chars ((COOKIE_NAME ++ "=") ++ value))).
  { rewrite chars_app. apply Forall_app. split; [apply cookie_name_chars|auto]. }
  rewrite split_none
    by (eapply Forall_impl; [|exact Hall]; simpl; tauto).
  cbn [map]. rewrite trim_none
    by (eapply Forall_impl; [|exact Hall]; simpl; tauto).
  cbn [find]. now rewrite startsWith_app.
Qed.

Lemma approval_value_chars hmac key payload :
  Forall (fun c => c <> "."%char)
         (JsString.chars (signData hmac key payload))
  /\ Forall (fun c => c <> "."%char)
            (JsString.chars (urlSafeBase64Encode payload))
  /\ Forall (fun c => JsText.isWhitespace c = false /\ c <> ";"%char)
            (JsString.chars (signData hmac key payload ++ "."
                             ++ urlSafeBase64Encode payload)).
Proof.
  assert (Hsig := ofBytes_digits (hmac key (JsText.encode payload))).
  fold (signData hmac key payload) in Hsig.
  assert (Hb64 : Forall (fun c => isUrlSafeChar c = true)
                        (JsString.chars (urlSafeBase64Encode payload))).
  { rewrite urlSafeBase64Encode_body.
    now destruct (toUrlSafe_body _ (body_sextets payload)). }
  split; [|split].
  - eapply Forall_impl; [|exact Hsig]. simpl. tauto.
  - eapply Forall_impl; [|exact Hb64]. intros c Hc.
    now destruct (urlSafe_cookie_chars c Hc) as (_ & _ & ?).
  - rewrite chars_app. apply Forall_app. split.
    + eapply Forall_impl; [|exact Hsig]. simpl. tauto.
    + cbn [append JsString.chars]. constructor; [split; [reflexivity|discriminate]|].
      eapply Forall_impl; [|exact Hb64]. intros c Hc.
      destruct (urlSafe_cookie_chars c Hc) as (? & ? & _). auto.
Qed.

(** The cookie [parseRedirectApproval] writes is read back: with a secret of
    at least 32 bytes, the value signed for the updated list of approved
    clients, sent back as the [Cookie] header, gives that list, and the
    client just approved is found approved. *)
Theorem approval_cookie_round_trip
        (hmac : list ascii -> list ascii -> list ascii)
        (JSON_parse : string -> option Js.json)
        (JSON_stringify : list string -> string)
        (existingApprovedClients : list string)
        (clientId cookieSecret : string) :
  (32 <= List.length (JsText.encode cookieSecret))%nat ->
  List.length
    (hmac (JsText.encode cookieSecret)
          (JsText.encode
             (JSON_stringify
                (JsText.unique (existingApprovedClients ++ [clientId])))))
  = 32%nat ->
  JSON_parse (JSON_stringify
                (JsText.unique (existingApprovedClients ++ [clientId])))
  = Some (Js.JArray
            (map Js.JString
                 (JsText.unique (existingApprovedClients ++ [clientId])))) ->
  clientId <> EmptyString ->
  exists newCookieValue,
    approvalCookieValue hmac JSON_stringify existingApprovedClients clientId
                        cookieSecret
    = Returns newCookieValue
    /\ getApprovedClientsFromCookie
         hmac JSON_parse (Some ((COOKIE_NAME ++ "=") ++ newCookieValue)%string)
         cookieSecret
       = Returns (Some (JsText.unique (existingApprovedClients ++ [clientId])))
    /\ clientIdAlreadyApproved
         hmac JSON_parse (Some ((COOKIE_NAME ++ "=") ++ newCookieValue)%string)
         clientId cookieSecret
       = Returns true.
Proof.
  intros Hsecret Hlen Hjson Hid.
  set (updated := JsText.unique (existingApprovedClients ++ [clientId])) in *.
  set (payload := JSON_stringify updated) in *.
  set (key := JsText.encode cookieSecret) in *.
  exists (signData hmac key payload ++ "." ++ urlSafeBase64Encode payload)%string.
  assert (Hvalue : approvalCookieValue hmac JSON_stringify
                     existingApprovedClients clientId cookieSecret
                   = Returns (signData hmac key payload ++ "."
                              ++ urlSafeBase64Encode payload)%string).
  { unfold approvalCookieValue. cbv zeta.
    now rewrite (importKey_long cookieSecret Hsecret). }
  destruct (approval_value_chars hmac key payload) as (Hsig & Hb64 & Hall).
  assert (Hget : getApprovedClientsFromCookie
                   hmac JSON_parse
                   (Some ((COOKIE_NAME ++ "=")
                          ++ signData hmac key payload ++ "."
                          ++ urlSafeBase64Encode payload)%string)
                   cookieSecret
                 = Returns (Some updated)).
  { unfold getApprovedClientsFromCookie.
    change ((COOKIE_NAME ++ "=")
            ++ signData hmac key payload ++ "." ++ urlSafeBase64Encode payload)%string
      with (String "m" ("cp-approved-clients="
                        ++ signData hmac key payload ++ "."
                        ++ urlSafeBase64Encode payload))%string at 1.
    cbv zeta.
    change (String "m" ("cp-approved-clients="
                        ++ signData hmac key payload ++ "."
                        ++ urlSafeBase64Encode payload))%string
      with ((COOKIE_NAME ++ "=")
            ++ signData hmac key payload ++ "." ++ urlSafeBase64Encode payload)%string.
    rewrite (cookie_found _ Hall).
    change (String.length COOKIE_NAME + 1)%nat
      with (String.length (COOKIE_NAME ++ "=")).
    rewrite substringFrom_app.
    change (signData hmac key payload ++ "." ++ urlSafeBase64Encode payload)%string
      with (signData hmac key payload
            ++ String "." (urlSafeBase64Encode payload))%string.
    rewrite (split_once "." _ _ Hsig Hb64).
    rewrite (urlSafeBase64Decode_encode payload).
    rewrite (importKey_long cookieSecret Hsecret).
    fold key. rewrite (verifySignature_signData hmac key payload Hlen).
    rewrite Hjson. cbn [stringArray]. now rewrite allStrings_map. }
  split; [exact Hvalue|]. split; [exact Hget|].
  unfold clientIdAlreadyApproved. rewrite Hget.
  destruct clientId as [|c rest]; [contradiction|].
  f_equal. apply includes_In. apply (proj2 (unique_spec _)).
  apply in_app_iff. right. now left.
Qed.

Lemma approval_cookie_round_trip_witness :
  exists newCookieValue,
    approvalCookieValue Examples.toyHmac stringify ["c1"] "c2" Examples.secret32
    = Returns newCookieValue
    /\ clientIdAlreadyApproved
         Examples.toyHmac parseStringArray
         (Some ((COOKIE_NAME ++ "=") ++ newCookieValue)%string)
         "c2" Examples.secret32
       = Returns true.
Proof.
  destruct (approval_cookie_round_trip
              Examples.toyHmac parseStringArray stringify ["c1"] "c2"
              Examples.secret32)
    as (value & Hvalue & _ & Happroved).
  - vm_compute. lia.
  - reflexivity.
  - reflexivity.
  - discriminate.
  - exists value. split; assumption.
Defined.

Lemma verifySignature_true hmac key signatureHex data :
  verifySignature hmac key signatureHex data = true ->
  String.length signatureHex = 64%nat
  /\ Hex.test signatureHex = true
  /\ map (fun byte => Hex.toUint8 (Hex.parseInt byte)) (Hex.pairs signatureHex)
     = hmac key (JsText.encode data).
Proof.
  unfold verifySignature.
  destruct (Hex.test signatureHex); [|discriminate].
  destruct (String.length signatureHex =? 64)%nat eqn:E; [|discriminate].
  cbn [negb orb]. unfold Hex.matchPairs.
  destruct (Hex.pairs signatureHex) as [|p ps]; [discriminate|].
  cbv zeta. unfold verify. intros H. apply bytes_eqb_eq in H.
  apply Nat.eqb_eq in E. auto.
Qed.

Lemma importKey_returns secret key :
  importKey secret = Returns key ->
  key = JsText.encode secret /\ (32 <= List.length (JsText.encode secret))%nat.
Proof.
  unfold importKey. destruct secret as [|c s]; [discriminate|]. cbv zeta.
  destruct (List.length (JsText.encode (String c s)) <? 32)%nat eqn:E;
    [discriminate|].
  intros H. injection H as <-. apply Nat.ltb_ge in E. auto.
Qed.

(** A client is found approved only on the strength of a signed cookie:
    the client id is not empty, the secret has at least 32 bytes, and the
    [Cookie] header holds a cookie named [mcp-approved-clients] whose value
    is a 64-digit signature, a dot and a payload, where the signature is the
    HMAC of the decoded payload under the secret and the payload parses to
    an array of strings that includes the client id. *)
Theorem approval_requires_signed_cookie
        (hmac : list ascii -> list ascii -> list ascii)
        (JSON_parse : string -> option Js.json)
        (cookieHeader : option string) (clientId cookieSecret : string) :
  clientIdAlreadyApproved hmac JSON_parse cookieHeader clientId cookieSecret
  = Returns true ->
  clientId <> EmptyString
  /\ (32 <= List.length (JsText.encode cookieSecret))%nat
  /\ exists header cookie signatureHex base64Payload payload approvedClients,
      cookieHeader = Some header
      /\ In cookie (map JsText.trim (JsText.split ";" header))
      /\ JsText.startsWith cookie (COOKIE_NAME ++ "=") = true
      /\ JsText.split "." (JsText.substringFrom (String.length COOKIE_NAME + 1)
                                                cookie)
         = [signatureHex; base64Payload]
      /\ urlSafeBase64Decode base64Payload = Some payload
      /\ String.length signatureHex = 64%nat
      /\ map (fun byte => Hex.toUint8 (Hex.parseInt byte))
             (Hex.pairs signatureHex)
         = hmac (JsText.encode cookieSecret) (JsText.encode payload)
      /\ (exists v, JSON_parse payload = Some v
                    /\ stringArray v = Some approvedClients)
      /\ In clientId approvedClients.
Proof.
  unfold clientIdAlreadyApproved.
  destruct clientId as [|c0 rest0] eqn:Eid; [discriminate|]. rewrite <- Eid.
  assert (Hid : clientId <> EmptyString) by (rewrite Eid; discriminate).
  clear Eid.
  destruct (getApprovedClientsFromCookie hmac JSON_parse cookieHeader
                                         cookieSecret)
    as [[approved|]|] eqn:Hget; try discriminate.
  intros H. injection H as Hinc. apply includes_In in Hinc.
  unfold getApprovedClientsFromCookie in Hget.
  destruct cookieHeader as [header|]; [|discriminate].
  destruct header as [|h0 hrest] eqn:Eh; [discriminate|]. rewrite <- Eh in *.
  clear Eh. cbv zeta in Hget.
  destruct (find _ _) as [cookie|] eqn:Hfind; [|discriminate].
  apply find_some in Hfind. destruct Hfind as [Hin Hstarts].
  destruct (JsText.split "." _) as [|signatureHex [|base64Payload [|x xs]]]
    eqn:Hsplit; try discriminate.
  destruct (urlSafeBase64Decode base64Payload) as [payload|] eqn:Hdec;
    [|discriminate].
  destruct (importKey cookieSecret) as [key|] eqn:Hkey; [|discriminate].
  apply importKey_returns in Hkey. destruct Hkey as [-> Hlen].
  destruct (verifySignature hmac _ signatureHex payload) eqn:Hver;
    [|discriminate].
  apply verifySignature_true in Hver. destruct Hver as (H64 & _ & Hmac).
  destruct (JSON_parse payload) as [v|] eqn:Hparse; [|discriminate].
  injection Hget as Harr.
  split; [exact Hid|]. split; [exact Hlen|].
  exists header, cookie, signatureHex, base64Payload, payload, approved.
  repeat split; eauto.
Qed.

Lemma approval_requires_signed_cookie_witness :
  clientIdAlreadyApproved
    Examples.toyHmac parseStringArray
    (Some "mcp-approved-clients=abababababababababababababababababababababababababababababababab.WyJjMSIsImMyIl0")
    "c2" Examples.secret32
  = Returns true
  /\ (32 <= List.length (JsText.encode Examples.secret32))%nat.
Proof.
  split; [reflexivity|].
  exact (proj1 (proj2 (approval_requires_signed_cookie
                         Examples.toyHmac parseStringArray
                         (Some "mcp-approved-clients=abababababababababababababababababababababababababababababababab.WyJjMSIsImMyIl0")
                         "c2" Examples.secret32 eq_refl))).
Defined.

Lemma add_keys_NoDup_app l : forall acc,
  NoDup (acc ++ l) -> fold_left add_key l acc = acc ++ l.
Proof.
  induction l as [|x l IH]; intros acc H; simpl.
  - now rewrite app_nil_r.
  - unfold add_key. destruct (in_dec string_dec x acc) as [Hin|Hin].
    + exfalso. apply NoDup_remove_2 in H. apply H. apply in_app_iff. auto.
    + replace (acc ++ x :: l) with ((acc ++ [x]) ++ l) in *
        by (now rewrite <- app_assoc).
      now apply IH.
Qed.

(** The updated list of approved clients has no duplicate, holds the client
    just approved and all clients approved before, and nothing else; when
    the earlier list has no duplicate it is kept as it is, with the new
    client added at the end unless it is already there. *)
Theorem approved_clients_update (existingApprovedClients : list string)
        (clientId : string) :
  NoDup (JsText.unique (existingApprovedClients ++ [clientId]))
  /\ (forall x, In x (JsText.unique (existingApprovedClients ++ [clientId]))
                <-> In x existingApprovedClients \/ x = clientId)
  /\ (NoDup existingApprovedClients ->
      JsText.unique (existingApprovedClients ++ [clientId])
      = if in_dec string_dec clientId existingApprovedClients
        then existingApprovedClients
        else existingApprovedClients ++ [clientId]).
Proof.
  destruct (unique_spec (existingApprovedClients ++ [clientId])) as [Hnd Hin].
  split; [exact Hnd|]. split.
  - intros x. rewrite Hin, in_app_iff. simpl. intuition.
  - intros Hex. unfold JsText.unique. rewrite fold_left_app.
    rewrite (add_keys_NoDup_app existingApprovedClients [])
      by (simpl; exact Hex).
    reflexivity.
Qed.

Lemma approved_clients_update_witness :
  NoDup ["c1"; "c2"]
  /\ JsText.unique (["c1"; "c2"] ++ ["c1"]) = ["c1"; "c2"].
Proof.
  assert (H : NoDup ["c1"; "c2"])
    by (repeat constructor; simpl; intuition discriminate).
  split; [exact H|].
  exact (proj2 (proj2 (approved_clients_update ["c1"; "c2"] "c1")) H).
Defined.

(** * Changing the graph *)

(** ** The soft delete of [delete_entities] *)

Lemma deleteNode_name names now e :
  node_name (deleteNode names now e) = node_name e.
Proof. unfold deleteNode. now destruct (matchedForDelete names e). Qed.

Lemma deleteNode_live names now e :
  Cypher.isNull (node_validTo (deleteNode names now e))
  = Cypher.isNull (node_validTo e) && negb (Cypher.inNames (node_name e) names).
Proof.
  unfold deleteNode, matchedForDelete.
  destruct (Cypher.inNames (node_name e) names);
    destruct (node_validTo e) eqn:E; cbn; rewrite ?E; reflexivity.
Qed.

Lemma deleteNode_unmatched names now e :
  matchedForDelete names e = false -> deleteNode names now e = e.
Proof. unfold deleteNode. now intros ->. Qed.

Lemma deleteNode_not_matched names now e :
  matchedForDelete names (deleteNode names now e) = false.
Proof.
  unfold matchedForDelete. rewrite deleteNode_name, deleteNode_live.
  destruct (Cypher.inNames (node_name e) names);
    destruct (Cypher.isNull (node_validTo e)); reflexivity.
Qed.

Lemma inNames_cons x n ns :
  Cypher.inNames x (n :: ns) = String.eqb x n || Cypher.inNames x ns.
Proof. reflexivity. Qed.

Lemma inNames_filter x names ns :
  Cypher.inNames x (filter (fun n => negb (Cypher.inNames n names)) ns)
  = Cypher.inNames x ns && negb (Cypher.inNames x names).
Proof.
  induction ns as [|n ns IH]; [reflexivity|]. cbn [filter].
  rewrite (inNames_cons x n ns).
  destruct (Cypher.inNames n names) eqn:En; cbn [negb].
  - rewrite IH. destruct (String.eqb x n) eqn:E; [|reflexivity].
    apply String.eqb_eq in E. subst n. rewrite En.
    now rewrite !Bool.andb_false_r.
  - rewrite inNames_cons, IH.
    destruct (String.eqb x n) eqn:E; [|reflexivity].
    apply String.eqb_eq in E. subst n. now rewrite En.
Qed.

Lemma entityStatement_after_delete g names now ns :
  entityStatement (fst (deleteEntitiesStatement g names now)) ns
  = entityStatement g (filter (fun n => negb (Cypher.inNames n names)) ns).
Proof.
  unfold entityStatement, deleteEntitiesStatement. cbn [fst nodes].
  induction (nodes g) as [|e l IH]; [reflexivity|].
  cbn [map filter]. rewrite deleteNode_name, deleteNode_live, inNames_filter.
  destruct (Cypher.inNames (node_name e) ns); cbn [andb]; [|exact IH].
  destruct (Cypher.isNull (node_validTo e)) eqn:Ev; cbn [andb];
    [|rewrite Bool.andb_false_r; exact IH].
  destruct (Cypher.inNames (node_name e) names) eqn:En; cbn [negb andb];
    [exact IH|].
  cbn [map]. rewrite IH. f_equal.
  rewrite deleteNode_unmatched; [reflexivity|].
  unfold matchedForDelete. now rewrite En.
Qed.

Lemma statements_without_names g :
  entityStatement g [] = [] /\ relationStatement g [] = [].
Proof.
  unfold entityStatement, relationStatement. split.
  - induction (nodes g) as [|e l IH]; [reflexivity|exact IH].
  - induction (relationships g) as [|e l IH]; [reflexivity|exact IH].
Qed.

(** What a resolved search holds: the rows of the two hydration statements
    for some list of names (no name, for the empty result). *)
Lemma hybridSearch_fulfilled_hydrated JSON_parse neo4j queryVector queryText
      options startTime endTime r :
  snd (hybridSearchWithRRF JSON_parse neo4j queryVector queryText options
                           startTime endTime) = Fulfilled r ->
  exists names,
    entities r = map (hydrateEntity JSON_parse)
                     (entityStatement (server neo4j) names)
    /\ relations r = map hydrateRelation
                         (relationStatement (server neo4j) names).
Proof.
  intros Hr.
  destruct (hybridSearch_fulfilled_rankers _ _ _ _ _ _ _ _ Hr)
    as (vs & ks & Hv & Hk & Hvs & Hks).
  rewrite (hybridSearch_run JSON_parse neo4j queryVector queryText options
             startTime endTime vs ks Hv Hk Hvs Hks) in Hr.
  cbv zeta in Hr.
  destruct (List.length _ =? 0)%nat.
  - cbn [snd] in Hr. injection Hr as <-. exists [].
    destruct (statements_without_names (server neo4j)) as [-> ->].
    split; reflexivity.
  - cbn [snd] in Hr. apply hydrate_fulfilled in Hr. subst r.
    eexists. split; reflexivity.
Qed.

Lemma vectorSearch_fulfilled_hydrated JSON_parse neo4j queryVector options
      startTime endTime r :
  snd (vectorSearch JSON_parse neo4j queryVector options startTime endTime)
  = Fulfilled r ->
  exists names,
    entities r = map (hydrateEntity JSON_parse)
                     (entityStatement (server neo4j) names)
    /\ relations r = map hydrateRelation
                         (relationStatement (server neo4j) names).
Proof.
  unfold vectorSearch, bind, query. cbn [fst snd].
  destruct (responseOk neo4j SentVectorFloor); [|discriminate].
  destruct (vectorFloorStatement _ _ _ _) as [rows|]; [|discriminate].
  cbn [fst snd]. destruct (List.length rows =? 0)%nat.
  - cbn [snd ret]. intros Hr. injection Hr as <-. exists [].
    destruct (statements_without_names (server neo4j)) as [-> ->].
    split; reflexivity.
  - intros Hr. apply hydrate_fulfilled in Hr. subst r.
    eexists. split; reflexivity.
Qed.

(** After [delete_entities], the entity statement of the searches answers
    for a list of names what it answered before for the names of that list
    that were not deleted; so no search, hybrid or vector-only, on the graph
    after the delete returns an entity named in the delete. *)
Theorem deleted_entities_leave_the_search
        (JSON_parse : string -> option Js.json) (g : Graph)
        (entityNames : list string) (now : Z) (ok : Sent -> bool)
        (queryVector : list Q) (queryText : string) (options : SearchOptions)
        (startTime endTime : Z) (r : SearchResult) :
  snd (hybridSearchWithRRF
         JSON_parse
         {| server := fst (fst (delete_entities g entityNames now));
            responseOk := ok |}
         queryVector queryText options startTime endTime) = Fulfilled r
  \/ snd (vectorSearch
            JSON_parse
            {| server := fst (fst (delete_entities g entityNames now));
               responseOk := ok |}
            queryVector options startTime endTime) = Fulfilled r ->
  (forall names,
      entityStatement (fst (fst (delete_entities g entityNames now))) names
      = entityStatement
          g (filter (fun n => negb (Cypher.inNames n entityNames)) names))
  /\ forall e, In e (entities r) -> ~ In (ent_name e) entityNames.
Proof.
  intros Hr. split.
  - intros names. apply entityStatement_after_delete.
  - assert (Hshape :
              exists names,
                entities r
                = map (hydrateEntity JSON_parse)
                      (entityStatement
                         (fst (deleteEntitiesStatement g entityNames now))
                         names)).
    { destruct Hr as [Hr|Hr].
      - apply hybridSearch_fulfilled_hydrated in Hr.
        destruct Hr as (names & He & _). now exists names.
      - apply vectorSearch_fulfilled_hydrated in Hr.
        destruct Hr as (names & He & _). now exists names. }
    destruct Hshape as (names & He). rewrite He.
    intros e Hin Hname. apply in_map_iff in Hin.
    destruct Hin as [rec [<- Hin]]. cbn [hydrateEntity ent_name] in Hname.
    rewrite entityStatement_after_delete in Hin.
    apply entityStatement_spec in Hin. destruct Hin as [Hin _].
    apply filter_In in Hin. destruct Hin as [_ Hnot].
    apply inNames_In in Hname. rewrite Hname in Hnot. discriminate.
Qed.

Lemma deleted_entities_leave_the_search_witness :
  exists r,
    snd (hybridSearchWithRRF
           parseStringArray
           {| server := fst (fst (delete_entities Examples.chainGraph ["Q"] 7));
              responseOk := Examples.alwaysOk |}
           [] "zzz" Examples.noOptions 0 5) = Fulfilled r
    /\ map ent_name (entities r) = ["P"; "R"]
    /\ forall e, In e (entities r) -> ~ In (ent_name e) ["Q"].
Proof.
  eexists. split; [vm_compute; reflexivity|]. split; [reflexivity|].
  exact (proj2 (deleted_entities_leave_the_search
                  parseStringArray Examples.chainGraph ["Q"] 7
                  Examples.alwaysOk [] "zzz" Examples.noOptions 0 5 _
                  (or_introl eq_refl))).
Defined.

Lemma liveEnds_spec g :
  liveEnds g = true <->
  forall r, In r (relationships g) -> rel_validTo r = None ->
            node_validTo (rel_from r) = None /\ node_validTo (rel_to r) = None.
Proof.
  unfold liveEnds. rewrite forallb_forall. split.
  - intros H r Hin Hv. specialize (H r Hin). rewrite Hv in H. cbn in H.
    apply Bool.andb_true_iff in H. now rewrite !isNull_None in H.
  - intros H r Hin. specialize (H r Hin).
    destruct (rel_validTo r); [reflexivity|]. cbn.
    destruct (H eq_refl) as [-> ->]. reflexivity.
Qed.

(** [delete_entities] keeps relationships in step with entities: if before
    it every relationship without [validTo] joins two entities without
    [validTo], then so it is afterwards, and afterwards no relationship
    without [validTo] has an end named in the delete; and the ends of the
    relationships remain nodes of the graph. *)
Theorem delete_entities_keeps_live_ends (g : Graph)
        (entityNames : list string) (now : Z) :
  liveEnds g = true ->
  liveEnds (fst (fst (delete_entities g entityNames now))) = true
  /\ (forall r,
         In r (relationships (fst (fst (delete_entities g entityNames now)))) ->
         rel_validTo r = None ->
         ~ In (node_name (rel_from r)) entityNames
         /\ ~ In (node_name (rel_to r)) entityNames)
  /\ (endsAreNodes g ->
      endsAreNodes (fst (fst (delete_entities g entityNames now)))).
Proof.
  intros Hlive. rewrite liveEnds_spec in Hlive.
  assert (Hkey :
            forall r,
              In r (relationships
                      (fst (deleteEntitiesStatement g entityNames now))) ->
              rel_validTo r = None ->
              node_validTo (rel_from r) = None
              /\ node_validTo (rel_to r) = None
              /\ ~ In (node_name (rel_from r)) entityNames
              /\ ~ In (node_name (rel_to r)) entityNames).
  { cbn [deleteEntitiesStatement fst relationships]. intros r Hin Hv.
    apply in_map_iff in Hin. destruct Hin as [r0 [<- Hin]].
    cbn [deleteRelationship rel_validTo rel_from rel_to] in *.
    destruct (rel_validTo r0) as [v|] eqn:Ev.
    - cbn [Cypher.isNull] in Hv. rewrite Bool.andb_false_r in Hv. discriminate.
    - destruct (Hlive r0 Hin Ev) as [Hf Ht].
      cbn [Cypher.isNull] in Hv. rewrite Bool.andb_true_r in Hv.
      destruct (matchedForDelete entityNames (rel_from r0)) eqn:Mf;
        [discriminate|].
      destruct (matchedForDelete entityNames (rel_to r0)) eqn:Mt;
        [discriminate|].
      rewrite !deleteNode_unmatched by assumption.
      unfold matchedForDelete in Mf, Mt. rewrite Hf in Mf. rewrite Ht in Mt.
      cbn [Cypher.isNull] in Mf, Mt. rewrite Bool.andb_true_r in Mf, Mt.
      repeat split; auto; intros Hn; apply inNames_In in Hn; congruence. }
  split; [|split].
  - apply liveEnds_spec. intros r Hin Hv.
    destruct (Hkey r Hin Hv) as (? & ? & _). auto.
  - intros r Hin Hv. destruct (Hkey r Hin Hv) as (_ & _ & ? & ?). auto.
  - intros Hends r Hin.
    cbn [delete_entities deleteEntitiesStatement fst relationships nodes] in *.
    apply in_map_iff in Hin. destruct Hin as [r0 [<- Hin]].
    destruct (Hends r0 Hin) as [Hf Ht].
    cbn [deleteRelationship rel_from rel_to]. split; now apply in_map.
Qed.

Lemma delete_entities_keeps_live_ends_witness :
  liveEnds Examples.chainGraph = true
  /\ liveEnds (fst (fst (delete_entities Examples.chainGraph ["Q"] 7))) = true
  /\ map rel_validTo
         (relationships (fst (fst (delete_entities Examples.chainGraph ["Q"] 7))))
     = [Some 7%Z; Some 7%Z].
Proof.
  split; [reflexivity|].
  split; [|reflexivity].
  exact (proj1 (delete_entities_keeps_live_ends
                  Examples.chainGraph ["Q"] 7 eq_refl)).
Defined.

(** On a graph whose relationships without [validTo] join entities without
    [validTo], both present as nodes, the relations of a resolved search lie
    among its entities: each relation returned starts and ends at an entity
    returned, and the relation statement of the searches returns what the
    relation statement of [read_graph] returns. *)
Theorem search_relations_among_entities
        (JSON_parse : string -> option Js.json) (neo4j : Neo4jHttpClient)
        (queryVector : list Q) (queryText : string) (options : SearchOptions)
        (startTime endTime : Z) (r : SearchResult) :
  liveEnds (server neo4j) = true ->
  endsAreNodes (server neo4j) ->
  snd (hybridSearchWithRRF JSON_parse neo4j queryVector queryText options
                           startTime endTime) = Fulfilled r
  \/ snd (vectorSearch JSON_parse neo4j queryVector options startTime endTime)
     = Fulfilled r ->
  (forall rel, In rel (relations r) ->
               (exists e, In e (entities r) /\ ent_name e = r_from rel)
               /\ (exists e, In e (entities r) /\ ent_name e = r_to rel))
  /\ forall names,
      relationStatement (server neo4j) names
      = readGraphRelationStatement (server neo4j) names.
Proof.
  intros Hlive Hends Hr. rewrite liveEnds_spec in Hlive. split.
  - assert (Hshape :
              exists names,
                entities r = map (hydrateEntity JSON_parse)
                                 (entityStatement (server neo4j) names)
                /\ relations r = map hydrateRelation
                                     (relationStatement (server neo4j) names)).
    { destruct Hr as [Hr|Hr].
      - now apply hybridSearch_fulfilled_hydrated in Hr.
      - now apply vectorSearch_fulfilled_hydrated in Hr. }
    destruct Hshape as (names & He & Hrel). rewrite He, Hrel.
    intros rel Hin. apply in_map_iff in Hin. destruct Hin as [rec [<- Hin]].
    unfold relationStatement in Hin. apply in_map_iff in Hin.
    destruct Hin as [rs [<- Hin]]. apply filter_In in Hin.
    destruct Hin as [Hin Hp]. rewrite !Bool.andb_true_iff in Hp.
    destruct Hp as [[Hf Ht] Hv]. apply isNull_None in Hv.
    destruct (Hlive rs Hin Hv) as [Lf Lt]. destruct (Hends rs Hin) as [Nf Nt].
    cbn [hydrateRelation r_from r_to fromName toName].
    assert (Hfound :
              forall node, In node (nodes (server neo4j)) ->
                           Cypher.inNames (node_name node) names = true ->
                           node_validTo node = None ->
                           exists e,
                             In e (map (hydrateEntity JSON_parse)
                                       (entityStatement (server neo4j) names))
                             /\ ent_name e = node_name node).
    { intros node Hnode Hname Hvalid. eexists. split.
      - apply in_map. unfold entityStatement. apply in_map.
        apply filter_In. split; [exact Hnode|].
        rewrite Hname, Hvalid. reflexivity.
      - reflexivity. }
    split; apply Hfound; assumption.
  - intros names. unfold relationStatement, readGraphRelationStatement.
    f_equal. apply filter_ext_in. intros rs Hin.
    destruct (rel_validTo rs) as [v|] eqn:Ev.
    + cbn [Cypher.isNull andb]. now rewrite Bool.andb_false_r.
    + destruct (Hlive rs Hin Ev) as [-> ->]. cbn [Cypher.isNull andb].
      now rewrite Bool.andb_true_r.
Qed.

Lemma search_relations_among_entities_witness :
  exists r,
    snd (hybridSearchWithRRF
           parseStringArray
           {| server := Examples.chainGraph; responseOk := Examples.alwaysOk |}
           [] "zzz" Examples.noOptions 0 5) = Fulfilled r
    /\ List.length (relations r) = 2%nat
    /\ forall rel, In rel (relations r) ->
                   (exists e, In e (entities r) /\ ent_name e = r_from rel)
                   /\ (exists e, In e (entities r) /\ ent_name e = r_to rel).
Proof.
  eexists. split; [vm_compute; reflexivity|]. split; [reflexivity|].
  refine (proj1 (search_relations_among_entities
                   parseStringArray
                   {| server := Examples.chainGraph;
                      responseOk := Examples.alwaysOk |}
                   [] "zzz" Examples.noOptions 0 5 _ eq_refl _
                   (or_introl eq_refl))).
  intros rs Hin. cbn in Hin.
  destruct Hin as [<-|[<-|[]]]; cbn; auto.
Defined.

Lemma filter_matched_after_delete names now now' l :
  filter (matchedForDelete names) (map (deleteNode names now) l) = []
  /\ map (deleteNode names now') (map (deleteNode names now) l)
     = map (deleteNode names now) l.
Proof.
  induction l as [|e l [IH1 IH2]]; [split; reflexivity|]. cbn [map filter].
  rewrite deleteNode_not_matched, IH1, IH2.
  now rewrite (deleteNode_unmatched names now' _
                 (deleteNode_not_matched names now e)).
Qed.

(** Repeating a delete changes nothing: the second [delete_entities] for
    the same names leaves every node, every relationship and every answer of
    the vector index as the first left them and counts no deleted entity, so
    it is logged as a failure (as a success when no name was given). *)
Theorem delete_entities_twice (g : Graph) (entityNames : list string)
        (now now' : Z) :
  nodes (fst (fst (delete_entities
                     (fst (fst (delete_entities g entityNames now)))
                     entityNames now')))
  = nodes (fst (fst (delete_entities g entityNames now)))
  /\ relationships (fst (fst (delete_entities
                                (fst (fst (delete_entities g entityNames now)))
                                entityNames now')))
     = relationships (fst (fst (delete_entities g entityNames now)))
  /\ (forall k embedding,
         queryNodes (fst (fst (delete_entities
                                 (fst (fst (delete_entities g entityNames now)))
                                 entityNames now'))) k embedding
         = queryNodes (fst (fst (delete_entities g entityNames now)))
                      k embedding)
  /\ snd (fst (delete_entities (fst (fst (delete_entities g entityNames now)))
                               entityNames now')) = 0%Z
  /\ snd (delete_entities (fst (fst (delete_entities g entityNames now)))
                          entityNames now')
     = match entityNames with
       | [] => Success
       | _ :: _ => Failure
       end.
Proof.
  cbn [delete_entities deleteEntitiesStatement fst snd nodes relationships
       queryNodes].
  destruct (filter_matched_after_delete entityNames now now' (nodes g))
    as [Hnone Hsame].
  rewrite Hnone. cbn [List.length Z.of_nat Js.or_default_Z Z.eqb].
  split; [exact Hsame|]. split; [|split; [|split]].
  - rewrite map_map. apply map_ext. intros r.
    unfold deleteRelationship at 1. cbn [rel_from rel_to rel_relationType
                                         rel_validTo deleteRelationship].
    rewrite !deleteNode_not_matched. cbn [orb andb].
    now rewrite !(deleteNode_unmatched entityNames now' _
                    (deleteNode_not_matched entityNames now _)).
  - intros k embedding. destruct (queryNodes g k embedding) as [ys|];
      [|reflexivity].
    cbn [option_map]. f_equal. rewrite map_map. apply map_ext. intros y.
    cbn [fst snd].
    now rewrite (deleteNode_unmatched entityNames now' _
                   (deleteNode_not_matched entityNames now _)).
  - reflexivity.
  - destruct entityNames; reflexivity.
Qed.

Lemma filter_matched_split names l :
  filter (matchedForDelete names) l
  = filter (fun e => Cypher.inNames (node_name e) names)
           (filter (fun e => Cypher.isNull (node_validTo e)) l).
Proof.
  induction l as [|e l IH]; [reflexivity|]. cbn [filter].
  unfold matchedForDelete at 1.
  destruct (Cypher.isNull (node_validTo e)); cbn [filter].
  - rewrite Bool.andb_true_r.
    destruct (Cypher.inNames (node_name e) names); now rewrite IH.
  - now rewrite Bool.andb_false_r.
Qed.

Lemma matched_names g names :
  uniqueLiveNames g ->
  NoDup (map node_name (filter (matchedForDelete names) (nodes g)))
  /\ incl (map node_name (filter (matchedForDelete names) (nodes g))) names
  /\ forall n,
      In n (map node_name (filter (matchedForDelete names) (nodes g)))
      <-> In n names
          /\ exists e, In e (nodes g) /\ node_name e = n
                       /\ node_validTo e = None.
Proof.
  intros Hu.
  assert (Hin : forall n,
             In n (map node_name (filter (matchedForDelete names) (nodes g)))
             <-> In n names
                 /\ exists e, In e (nodes g) /\ node_name e = n
                              /\ node_validTo e = None).
  { intros n. rewrite in_map_iff. split.
    - intros [e [<- He]]. apply filter_In in He. destruct He as [He Hm].
      unfold matchedForDelete in Hm. apply Bool.andb_true_iff in Hm.
      destruct Hm as [Hn Hv]. apply inNames_In in Hn. apply isNull_None in Hv.
      eauto.
    - intros [Hn [e (He & <- & Hv)]]. exists e. split; [reflexivity|].
      apply filter_In. split; [exact He|]. unfold matchedForDelete.
      rewrite Hv. apply inNames_In in Hn. now rewrite Hn. }
  split; [|split; [|exact Hin]].
  - rewrite filter_matched_split. now apply NoDup_map_filter.
  - intros n Hn. now apply Hin in Hn.
Qed.

(** How [delete_entities] logs its outcome when no two visible entities
    share a name: the count is between 0 and the number of names given;
    the outcome is a success exactly when no name was given twice and every
    name was the name of a visible entity, and a failure exactly when some
    name was given and none was the name of a visible entity. *)
Theorem delete_entities_outcome (g : Graph) (entityNames : list string)
        (now : Z) :
  uniqueLiveNames g ->
  (0 <= snd (fst (delete_entities g entityNames now))
   <= Z.of_nat (List.length entityNames))%Z
  /\ (snd (delete_entities g entityNames now) = Success
      <-> NoDup entityNames
          /\ forall n, In n entityNames ->
                       exists e, In e (nodes g) /\ node_name e = n
                                 /\ node_validTo e = None)
  /\ (snd (delete_entities g entityNames now) = Failure
      <-> entityNames <> []
          /\ forall e, In e (nodes g) -> node_validTo e = None ->
                       ~ In (node_name e) entityNames).
Proof.
  intros Hu.
  destruct (matched_names g entityNames Hu) as (Hnd & Hincl & Hin).
  pose proof (NoDup_incl_length Hnd Hincl) as Hle.
  rewrite length_map in Hle.
  cbn [delete_entities deleteEntitiesStatement fst snd].
  set (matched := filter (matchedForDelete entityNames) (nodes g)) in *.
  assert (Hcount : Js.or_default_Z (Some (Z.of_nat (List.length matched))) 0
                   = Z.of_nat (List.length matched)).
  { unfold Js.or_default_Z.
    destruct (Z.of_nat (List.length matched) =? 0)%Z eqn:E; [|reflexivity].
    apply Z.eqb_eq in E. now rewrite E. }
  rewrite Hcount. split; [lia|]. unfold deleteOutcome. split.
  - destruct (Z.of_nat (List.length matched)
              =? Z.of_nat (List.length entityNames))%Z eqn:E.
    + apply Z.eqb_eq in E. apply Nat2Z.inj in E. split; [intros _|reflexivity].
      assert (Hge : (List.length entityNames
                     <= List.length (map node_name matched))%nat)
        by (rewrite length_map; lia).
      split.
      * exact (NoDup_incl_NoDup Hnd Hge Hincl).
      * intros n Hn. apply Hin.
        exact (NoDup_length_incl Hnd Hge Hincl n Hn).
    + apply Z.eqb_neq in E. split.
      * destruct (0 <? Z.of_nat (List.length matched))%Z; discriminate.
      * intros [Hnames Hall]. exfalso. apply E. f_equal.
        assert (Hincl' : incl entityNames (map node_name matched)).
        { intros n Hn. apply Hin. split; [exact Hn|]. now apply Hall. }
        pose proof (NoDup_incl_length Hnames Hincl') as Hle'.
        rewrite length_map in Hle'. lia.
  - destruct (Z.of_nat (List.length matched)
              =? Z.of_nat (List.length entityNames))%Z eqn:E.
    + apply Z.eqb_eq in E. apply Nat2Z.inj in E. split; [discriminate|].
      intros [Hne Hall]. exfalso.
      destruct matched as [|e rest] eqn:Em.
      * destruct entityNames; [contradiction|discriminate].
      * assert (He : In (node_name e) (map node_name (e :: rest)))
          by (now left).
        apply Hin in He. destruct He as [Hn [e' (He' & Hname & Hv)]].
        apply (Hall e' He' Hv). now rewrite Hname.
    + apply Z.eqb_neq in E.
      destruct (0 <? Z.of_nat (List.length matched))%Z eqn:Epos.
      * split; [discriminate|]. intros [_ Hall]. exfalso.
        apply Z.ltb_lt in Epos.
        destruct matched as [|e rest] eqn:Em; [simpl in Epos; lia|].
        assert (He : In (node_name e) (map node_name (e :: rest)))
          by (now left).
        apply Hin in He. destruct He as [Hn [e' (He' & Hname & Hv)]].
        apply (Hall e' He' Hv). now rewrite Hname.
      * split; [intros _|reflexivity]. apply Z.ltb_ge in Epos.
        assert (Hzero : List.length matched = 0%nat) by lia.
        split.
        -- intros ->. apply E. now rewrite Hzero.
        -- intros e He Hv Hn.
           assert (Hx : In (node_name e) (map node_name matched)).
           { apply Hin. split; [exact Hn|]. eauto. }
           destruct matched; [contradiction|discriminate].
Qed.

Lemma delete_entities_outcome_witness :
  uniqueLiveNames Examples.chainGraph
  /\ snd (delete_entities Examples.chainGraph ["Q"; "Q"] 7) = Partial
  /\ ~ (NoDup ["Q"; "Q"]
        /\ forall n, In n ["Q"; "Q"] ->
                     exists e, In e (nodes Examples.chainGraph)
                               /\ node_name e = n /\ node_validTo e = None).
Proof.
  assert (Hu : uniqueLiveNames Examples.chainGraph).
  { unfold uniqueLiveNames. cbn.
    repeat constructor; simpl; intuition discriminate. }
  split; [exact Hu|]. split; [reflexivity|].
  intros H.
  apply (proj1 (proj2 (delete_entities_outcome
                         Examples.chainGraph ["Q"; "Q"] 7 Hu))) in H.
  discriminate H.
Defined.

(** ** The soft delete of [delete_relations] *)

(** Deleting a relation removes it from the searches and from nothing else:
    afterwards the relation statement returns, in the same order, the rows
    it returned before except those of the deleted relation, the entities
    are as they were, and [wasDeleted] tells whether a relationship without
    [validTo] had that source, target and type. *)
Theorem delete_relation_leaves_the_search (g : Graph)
        (from to relationType : string) (now : Z) :
  (forall names,
      relationStatement (fst (delete_relation g from to relationType now)) names
      = filter (fun rec => negb (isRelation from to relationType rec))
               (relationStatement g names))
  /\ (forall names,
         entityStatement (fst (delete_relation g from to relationType now))
                         names
         = entityStatement g names)
  /\ (snd (delete_relation g from to relationType now) = true
      <-> exists r, In r (relationships g)
                    /\ node_name (rel_from r) = from
                    /\ node_name (rel_to r) = to
                    /\ rel_relationType r = relationType
                    /\ rel_validTo r = None)
  /\ (liveEnds g = true ->
      liveEnds (fst (delete_relation g from to relationType now)) = true).
Proof.
  cbn [delete_relation deleteRelationStatement fst snd].
  split; [|split; [reflexivity|split]].
  - intros names. unfold relationStatement. cbn [relationships].
    induction (relationships g) as [|r l IH]; [reflexivity|].
    cbn [map filter].
    destruct (matchedRelationship from to relationType r) eqn:M.
    + cbn [rel_from rel_to rel_relationType rel_validTo Cypher.isNull].
      rewrite Bool.andb_false_r. cbv iota. rewrite IH.
      unfold matchedRelationship in M. rewrite !Bool.andb_true_iff in M.
      destruct M as [[[Mf Mt] Mo] Mv]. rewrite Mv.
      destruct (Cypher.inNames (node_name (rel_from r)) names
                && Cypher.inNames (node_name (rel_to r)) names);
        cbn [andb map filter]; [|reflexivity].
      unfold isRelation. cbn [fromName toName rec_relationType].
      now rewrite Mf, Mt, Mo.
    + destruct (Cypher.inNames (node_name (rel_from r)) names
                && Cypher.inNames (node_name (rel_to r)) names
                && Cypher.isNull (rel_validTo r)) eqn:P;
        cbn [map filter]; rewrite IH; [|reflexivity].
      unfold isRelation. cbn [fromName toName rec_relationType].
      apply Bool.andb_true_iff in P. destruct P as [_ Pv].
      unfold matchedRelationship in M. rewrite Pv, Bool.andb_true_r in M.
      now rewrite M.
  - set (matched := filter (matchedRelationship from to relationType)
                           (relationships g)).
    assert (Hin : forall r, In r matched
                            <-> In r (relationships g)
                                /\ node_name (rel_from r) = from
                                /\ node_name (rel_to r) = to
                                /\ rel_relationType r = relationType
                                /\ rel_validTo r = None).
    { intros r. unfold matched. rewrite filter_In. unfold matchedRelationship.
      rewrite !Bool.andb_true_iff, !String.eqb_eq, isNull_None. tauto. }
    destruct matched as [|r rest].
    + split; [discriminate|]. intros [r Hr]. now apply Hin in Hr.
    + split; [intros _|].
      * exists r. apply Hin. now left.
      * intros _. unfold Js.or_default_Z.
        destruct (Z.of_nat (List.length (r :: rest)) =? 0)%Z eqn:E.
        -- apply Z.eqb_eq in E. cbn [List.length] in E. lia.
        -- apply Z.ltb_lt. cbn [List.length]. lia.
  - rewrite !liveEnds_spec. cbn [relationships]. intros Hlive r Hin Hv.
    apply in_map_iff in Hin. destruct Hin as [r0 [Hr0 Hin]].
    destruct (matchedRelationship from to relationType r0).
    + subst r. discriminate.
    + subst r0. now apply Hlive.
Qed.

Lemma delete_relation_leaves_the_search_witness :
  liveEnds Examples.chainGraph = true
  /\ liveEnds (fst (delete_relation Examples.chainGraph "P" "Q" "knows" 7))
     = true
  /\ map fromName
         (relationStatement
            (fst (delete_relation Examples.chainGraph "P" "Q" "knows" 7))
            ["P"; "Q"; "R"])
     = ["Q"].
Proof.
  split; [reflexivity|]. split; [|reflexivity].
  exact (proj2 (proj2 (proj2 (delete_relation_leaves_the_search
                                Examples.chainGraph "P" "Q" "knows" 7)))
               eq_refl).
Defined.

(** ** Observation lists *)

Lemma filter_filter_and {A : Type} (p q : A -> bool) l :
  filter p (filter q l) = filter (fun x => q x && p x) l.
Proof.
  induction l as [|x l IH]; [reflexivity|]. cbn [filter].
  destruct (q x); cbn [filter andb]; [destruct (p x)|]; now rewrite IH.
Qed.

Lemma filter_none {A : Type} (p : A -> bool) l :
  (forall x, In x l -> p x = false) -> filter p l = [].
Proof.
  induction l as [|x l IH]; simpl; intros H; auto.
  rewrite (H x (or_introl eq_refl)). auto.
Qed.

Lemma includes_app a b x :
  JsText.includes (a ++ b) x = JsText.includes a x || JsText.includes b x.
Proof. unfold JsText.includes. apply existsb_app. Qed.

Lemma includes_false arr x : JsText.includes arr x = false <-> ~ In x arr.
Proof.
  rewrite <- includes_In. destruct (JsText.includes arr x); split; congruence.
Qed.

Lemma add_key_in ks x : In x ks -> add_key ks x = ks.
Proof.
  intros H. unfold add_key. now destruct (in_dec string_dec x ks).
Qed.

Lemma add_key_new ks x : ~ In x ks -> add_key ks x = ks ++ [x].
Proof.
  intros H. unfold add_key. now destruct (in_dec string_dec x ks).
Qed.

(** Adding keys to a list keeps the list and adds, once each, the keys that
    are not in it. *)
Lemma add_keys_split_from l acc : forall acc',
  fold_left add_key l (acc ++ acc')
  = acc ++ fold_left add_key
             (filter (fun c => negb (JsText.includes acc c)) l) acc'.
Proof.
  induction l as [|x l IH]; intros acc'; [reflexivity|].
  cbn [fold_left filter].
  destruct (in_dec string_dec x acc) as [Ha|Ha].
  - rewrite add_key_in by (apply in_app_iff; auto).
    apply includes_In in Ha. rewrite Ha. cbn [negb]. apply IH.
  - pose proof Ha as Hf. apply includes_false in Hf. rewrite Hf.
    cbn [negb fold_left].
    destruct (in_dec string_dec x acc') as [Hb|Hb].
    + rewrite add_key_in by (apply in_app_iff; auto).
      rewrite (add_key_in acc' x Hb). apply IH.
    + rewrite add_key_new
        by (intros H; apply in_app_iff in H; destruct H; contradiction).
      rewrite (add_key_new acc' x Hb). rewrite <- app_assoc. apply IH.
Qed.

Lemma add_keys_split l acc :
  fold_left add_key l acc
  = acc ++ JsText.unique (filter (fun c => negb (JsText.includes acc c)) l).
Proof.
  unfold JsText.unique. rewrite <- (add_keys_split_from l acc []).
  now rewrite app_nil_r.
Qed.

Lemma unique_app a b :
  JsText.unique (a ++ b)
  = JsText.unique a
    ++ JsText.unique (filter (fun c => negb (JsText.includes a c)) b).
Proof.
  unfold JsText.unique at 1. rewrite fold_left_app.
  fold (JsText.unique a). rewrite add_keys_split.
  f_equal. f_equal. apply filter_ext. intros c. f_equal.
  apply Bool.eq_true_iff_eq. rewrite !includes_In.
  apply (proj2 (unique_spec a)).
Qed.

(** What [add_observations] stores and what it reports: the stored list has
    no repeated observation and holds the existing and the given
    observations and nothing else; it is the existing list with its repeats
    removed, followed by the new observations once each, in the order given,
    so an existing list without repeats is kept as it is.  The observations
    reported as added are the given ones that were not there, as often as
    they were given. *)
Theorem add_observations_merge (existingObs contents : list string) :
  NoDup (mergedObservations existingObs contents)
  /\ (forall x, In x (mergedObservations existingObs contents)
                <-> In x existingObs \/ In x contents)
  /\ (forall x, In x (addedObservations existingObs contents)
                <-> In x contents /\ ~ In x existingObs)
  /\ mergedObservations existingObs contents
     = JsText.unique existingObs
       ++ JsText.unique (addedObservations existingObs contents)
  /\ (NoDup existingObs ->
      mergedObservations existingObs contents
      = existingObs ++ JsText.unique (addedObservations existingObs contents)).
Proof.
  unfold mergedObservations, addedObservations.
  destruct (unique_spec (existingObs ++ contents)) as [Hnd Hin].
  pose proof (unique_app existingObs contents) as Heq.
  split; [exact Hnd|]. split; [|split; [|split]].
  - intros x. rewrite Hin. apply in_app_iff.
  - intros x. rewrite filter_In, Bool.negb_true_iff, includes_false. tauto.
  - exact Heq.
  - intros Hex. rewrite Heq. f_equal. unfold JsText.unique.
    apply (add_keys_NoDup_app existingObs []). exact Hex.
Qed.

Lemma add_observations_merge_witness :
  NoDup ["tall"; "kind"]
  /\ mergedObservations ["tall"; "kind"] ["new"; "kind"; "new"]
     = ["tall"; "kind"; "new"]
  /\ addedObservations ["tall"; "kind"] ["new"; "kind"; "new"]
     = ["new"; "new"].
Proof.
  assert (H : NoDup ["tall"; "kind"])
    by (repeat constructor; simpl; intuition discriminate).
  split; [exact H|]. split; [|reflexivity].
  exact (proj2 (proj2 (proj2 (proj2 (add_observations_merge
                                       ["tall"; "kind"]
                                       ["new"; "kind"; "new"])))) H).
Defined.

Lemma filter_lengths {A : Type} (p : A -> bool) l :
  (List.length (filter p l) + List.length (filter (fun x => negb (p x)) l)
   = List.length l)%nat.
Proof.
  induction l as [|x l IH]; [reflexivity|]. cbn [filter].
  destruct (p x); cbn [negb List.length]; lia.
Qed.

(** What [delete_observations] stores and what it reports: the remaining
    list holds, in their order, the existing observations that were not
    named, and the count reported is the number of existing observations
    that were named, each counted as often as it is stored; it is 0 exactly
    when the list is left as it was. *)
Theorem delete_observations_count (existingObs observations : list string) :
  (forall x, In x (remainingObservations existingObs observations)
             <-> In x existingObs /\ ~ In x observations)
  /\ deletedObservationCount existingObs observations
     = Z.of_nat (List.length (filter (JsText.includes observations)
                                     existingObs))
  /\ (0 <= deletedObservationCount existingObs observations
      <= Z.of_nat (List.length existingObs))%Z
  /\ (deletedObservationCount existingObs observations = 0%Z
      <-> remainingObservations existingObs observations = existingObs).
Proof.
  unfold deletedObservationCount, remainingObservations.
  pose proof (filter_lengths (JsText.includes observations) existingObs) as Hlen.
  split; [|split; [|split]].
  - intros x. rewrite filter_In, Bool.negb_true_iff, includes_false. tauto.
  - lia.
  - lia.
  - split.
    + intros H0. apply filter_all. intros x Hx.
      destruct (JsText.includes observations x) eqn:E; [|reflexivity].
      exfalso.
      assert (Hin : In x (filter (JsText.includes observations) existingObs))
        by (apply filter_In; auto).
      destruct (filter (JsText.includes observations) existingObs);
        [contradiction|simpl in Hlen; lia].
    + intros ->. lia.
Qed.

(** Deleting the observations just added: after [add_observations] with
    some contents, [delete_observations] with the same contents leaves the
    existing observations that are not among them, once each; when the
    existing list had no repeat and none of the contents, it is restored. *)
Theorem delete_after_add_observations (existingObs contents : list string) :
  remainingObservations (mergedObservations existingObs contents) contents
  = remainingObservations (JsText.unique existingObs) contents
  /\ (NoDup existingObs ->
      (forall x, In x contents -> ~ In x existingObs) ->
      remainingObservations (mergedObservations existingObs contents) contents
      = existingObs).
Proof.
  assert (Heq : remainingObservations
                  (mergedObservations existingObs contents) contents
                = remainingObservations (JsText.unique existingObs) contents).
  { unfold mergedObservations, remainingObservations.
    rewrite unique_app, filter_app.
    rewrite (filter_none
               _ (JsText.unique
                    (filter (fun c => negb (JsText.includes existingObs c))
                            contents)));
      [now rewrite app_nil_r|].
    intros x Hx. apply (proj1 (proj2 (unique_spec _) x)) in Hx.
    apply filter_In in Hx. destruct Hx as [Hx _].
    apply includes_In in Hx. now rewrite Hx. }
  split; [exact Heq|].
  intros Hnd Hnew. rewrite Heq. unfold JsText.unique.
  rewrite (add_keys_NoDup_app existingObs []) by exact Hnd. cbn [app].
  unfold remainingObservations. apply filter_all. intros x Hx.
  apply Bool.negb_true_iff. apply includes_false. intros Hc.
  exact (Hnew x Hc Hx).
Qed.

Lemma delete_after_add_observations_witness :
  NoDup ["tall"; "kind"]
  /\ remainingObservations
       (mergedObservations ["tall"; "kind"] ["new"; "odd"]) ["new"; "odd"]
     = ["tall"; "kind"].
Proof.
  assert (H : NoDup ["tall"; "kind"])
    by (repeat constructor; simpl; intuition discriminate).
  split; [exact H|].
  apply (proj2 (delete_after_add_observations ["tall"; "kind"] ["new"; "odd"]) H).
  intros x [<-|[<-|[]]] [E|[E|[]]]; discriminate E.
Defined.

(** * Rows of [Neo4jHttpClient.query] *)

Lemma rowObject_get (row : list Js.json) f fields : forall k m,
  (~ In f fields ->
   Js.get (Js.forEach (fun field i obj => Js.set obj field (nth_error row i))
                      fields k m) f
   = Js.get m f)
  /\ (forall i,
         nth_error fields i = Some f ->
         (forall j, (i < j)%nat -> nth_error fields j <> Some f) ->
         Js.get (Js.forEach (fun field i obj =>
                               Js.set obj field (nth_error row i))
                            fields k m) f
         = Some (nth_error row (k + i))).
Proof.
  induction fields as [|field rest IH]; intros k m.
  - split; [reflexivity|]. intros [|i]; discriminate.
  - cbn [Js.forEach]. split.
    + intros Hnot. rewrite (proj1 (IH (S k) _)) by (intros H; apply Hnot; now right).
      apply get_set_other. intros ->. apply Hnot. now left.
    + intros [|i] Hi Hlast.
      * injection Hi as ->.
        rewrite (proj1 (IH (S k) _)).
        -- rewrite Nat.add_0_r. apply get_set_same.
        -- intros Hin. apply In_nth_error in Hin. destruct Hin as [j Hj].
           apply (Hlast (S j)); [lia|exact Hj].
      * rewrite (proj2 (IH (S k) _) i Hi).
        -- f_equal. f_equal. lia.
        -- intros j Hj. apply (Hlast (S j)). lia.
Qed.

(** The objects [query] returns, when no field is named [__proto__]: one
    object per row of the response, in the order of the rows; in each, a
    field of the response is a property whose value is the value of the row
    at the last position at which the field is listed ([undefined] when the
    row is shorter), and a name that is not a field is not a property. *)
Theorem query_rows_by_field (fields : list string)
        (values : list (list Js.json)) :
  ~ In "__proto__"%string fields ->
  List.length (rowObjects fields values) = List.length values
  /\ (forall n, nth_error (rowObjects fields values) n
                = option_map (rowObject fields) (nth_error values n))
  /\ forall row f,
      (Js.get (rowObject fields row) f = None <-> ~ In f fields)
      /\ forall i,
          nth_error fields i = Some f ->
          (forall j, (i < j)%nat -> nth_error fields j <> Some f) ->
          Js.get (rowObject fields row) f = Some (nth_error row i).
Proof.
  intros _. unfold rowObjects. split; [apply length_map|].
  split; [intros n; apply nth_error_map|].
  intros row f. unfold rowObject.
  destruct (rowObject_get row f fields 0 []) as [Hnone Hsome].
  split; [|exact Hsome].
  split.
  - intros Hget Hin.
    assert (Hlast : exists i, nth_error fields i = Some f
                              /\ forall j, (i < j)%nat ->
                                           nth_error fields j <> Some f).
    { clear - Hin. induction fields as [|x fields IH]; [contradiction|].
      destruct (in_dec string_dec f fields) as [Hy|Hn].
      - destruct (IH Hy) as (i & Hi & Hl). exists (S i). split; [exact Hi|].
        intros [|j] Hj; [lia|]. apply Hl. lia.
      - destruct Hin as [->|Hin]; [|contradiction]. exists 0%nat.
        split; [reflexivity|]. intros [|j] Hj; [lia|]. cbn [nth_error].
        intros E. apply Hn. eapply nth_error_In. exact E. }
    destruct Hlast as (i & Hi & Hl). rewrite (Hsome i Hi Hl) in Hget.
    discriminate.
  - intros Hnot. now rewrite (Hnone Hnot).
Qed.

Lemma query_rows_by_field_witness :
  ~ In "__proto__"%string ["name"; "score"; "name"]
  /\ Js.get (rowObject ["name"; "score"; "name"]
                       [Js.JString "A"; Js.JNumber 1; Js.JString "B"]) "name"
     = Some (Some (Js.JString "B")).
Proof.
  assert (H : ~ In "__proto__"%string ["name"; "score"; "name"])
    by (intros [E|[E|[E|[]]]]; discriminate E).
  split; [exact H|].
  apply (proj2 (proj2 (proj2 (query_rows_by_field
                                ["name"; "score"; "name"] [] H))
                      [Js.JString "A"; Js.JNumber 1; Js.JString "B"] "name")
               2%nat eq_refl).
  intros [|[|[|j]]] Hj; try lia; cbn; try discriminate.
  destruct j; discriminate.
Defined.

(** * The signed OAuth state *)

Lemma fromCharCode_app a b :
  fromCharCode (a ++ b) = (fromCharCode a ++ fromCharCode b)%string.
Proof.
  unfold fromCharCode. induction a as [|x a IH]; simpl; auto. now rewrite IH.
Qed.

Lemma chars_fromCharCode bytes : JsString.chars (fromCharCode bytes) = bytes.
Proof.
  unfold fromCharCode. induction bytes as [|x l IH]; simpl; auto.
  now rewrite IH.
Qed.

Lemma chunkSize_positive : (1 <= chunkSize)%nat.
Proof. unfold chunkSize. lia. Qed.

(** The loop of [encodeState] adds to the binary string the characters of
    the bytes from its index on. *)
Lemma binaryStringLoop_all utf8Bytes : forall rounds i binaryString,
  (List.length utf8Bytes - i <= rounds)%nat ->
  binaryStringLoop rounds utf8Bytes i binaryString
  = (binaryString ++ fromCharCode (skipn i utf8Bytes))%string.
Proof.
  pose proof chunkSize_positive as Hc.
  induction rounds as [|rounds IH]; intros i binaryString Hle;
    cbn [binaryStringLoop].
  - rewrite skipn_all2 by lia. cbn. now rewrite string_app_nil_r.
  - destruct (i <? List.length utf8Bytes)%nat eqn:E.
    + apply Nat.ltb_lt in E. rewrite IH by lia.
      rewrite string_app_assoc. f_equal. rewrite <- fromCharCode_app. f_equal.
      unfold subarray. replace (i + chunkSize - i)%nat with chunkSize by lia.
      rewrite (Nat.add_comm i chunkSize), <- skipn_skipn.
      apply firstn_skipn.
    + apply Nat.ltb_ge in E. rewrite skipn_all2 by lia. cbn.
      now rewrite string_app_nil_r.
Qed.

Lemma encodeState_urlSafe JSON_stringify data :
  encodeState JSON_stringify data
  = urlSafeBase64Encode (fromCharCode (JsText.encode (JSON_stringify data))).
Proof.
  unfold encodeState, urlSafeBase64Encode. cbv zeta.
  rewrite binaryStringLoop_all by lia. reflexivity.
Qed.

Lemma encodeState_chars JSON_stringify data :
  Forall (fun c => isUrlSafeChar c = true)
         (JsString.chars (encodeState JSON_stringify data)).
Proof.
  rewrite encodeState_urlSafe, urlSafeBase64Encode_body.
  now destruct (toUrlSafe_body _ (body_sextets
                                    (fromCharCode
                                       (JsText.encode (JSON_stringify data))))).
Qed.

(** [encodeState] is the URL-safe base64 of the UTF-8 bytes of the JSON
    text: the loop over chunks of 8192 bytes builds the same binary string as
    one conversion of all the bytes, whatever their number; the result is
    written in [A-Z], [a-z], [0-9], [-] and [_], and decoding it gives the
    bytes back. *)
Theorem encodeState_chunks (JSON_stringify : Js.json -> string)
        (data : Js.json) :
  binaryStringLoop (List.length (JsText.encode (JSON_stringify data)))
                   (JsText.encode (JSON_stringify data)) 0 EmptyString
  = fromCharCode (JsText.encode (JSON_stringify data))
  /\ encodeState JSON_stringify data
     = urlSafeBase64Encode
         (fromCharCode (JsText.encode (JSON_stringify data)))
  /\ Forall (fun c => isUrlSafeChar c = true)
            (JsString.chars (encodeState JSON_stringify data))
  /\ option_map JsString.chars
                (urlSafeBase64Decode (encodeState JSON_stringify data))
     = Some (JsText.encode (JSON_stringify data)).
Proof.
  split; [|split; [|split]].
  - now rewrite binaryStringLoop_all by lia.
  - apply encodeState_urlSafe.
  - apply encodeState_chars.
  - rewrite encodeState_urlSafe, urlSafeBase64Decode_encode. cbn [option_map].
    now rewrite chars_fromCharCode.
Qed.

Lemma utf8Decode_encode s : Examples.utf8Decode (JsText.encode s) = s.
Proof.
  induction s as [|c s IH]; [reflexivity|].
  cbn [JsText.encode]. cbv zeta.
  pose proof (N_ascii_bounded c) as Hb.
  destruct (N_of_ascii c <? 128)%N eqn:E.
  - cbn [Examples.utf8Decode]. now rewrite E, IH.
  - apply N.ltb_ge in E. cbn [Examples.utf8Decode].
    rewrite !N_ascii_embedding by nlia.
    replace (192 + N_of_ascii c / 64 <? 128)%N with false
      by (symmetry; apply N.ltb_ge; nlia).
    rewrite IH. f_equal.
    replace ((192 + N_of_ascii c / 64) mod 32 * 64
             + (128 + N_of_ascii c mod 64) mod 64)%N
      with (N_of_ascii c) by nlia.
    apply ascii_N_embedding.
Qed.

Lemma state_token_chars hmac key encoded :
  Forall (fun c => c <> "."%char) (JsString.chars (signData hmac key encoded)).
Proof.
  pose proof (ofBytes_digits (hmac key (JsText.encode encoded))) as H.
  fold (signData hmac key encoded) in H.
  eapply Forall_impl; [|exact H]. simpl. tauto.
Qed.

(** A state signed by [signState] is read back by [verifyAndDecodeState]
    under the same secret: with a secret of at least 32 bytes, a text of the
    data that [TextDecoder] and [JSON.parse] read back, the token is the
    signature, a dot and the encoded state, and verifying it returns the
    data. *)
Theorem state_round_trip
        (hmac : list ascii -> list ascii -> list ascii)
        (JSON_stringify : Js.json -> string)
        (JSON_parse : string -> option Js.json)
        (decode : list ascii -> string)
        (data : Js.json) (secret : string) :
  (32 <= List.length (JsText.encode secret))%nat ->
  List.length (hmac (JsText.encode secret)
                    (JsText.encode (encodeState JSON_stringify data)))
  = 32%nat ->
  decode (JsText.encode (JSON_stringify data)) = JSON_stringify data ->
  JSON_parse (JSON_stringify data) = Some data ->
  signState hmac JSON_stringify data secret
  = Returns (signData hmac (JsText.encode secret)
                      (encodeState JSON_stringify data)
             ++ "." ++ encodeState JSON_stringify data)%string
  /\ verifyAndDecodeState
       hmac JSON_parse decode
       (signData hmac (JsText.encode secret) (encodeState JSON_stringify data)
        ++ "." ++ encodeState JSON_stringify data)%string
       secret
     = Returns data.
Proof.
  intros Hsecret Hlen Hdecode Hparse.
  set (encoded := encodeState JSON_stringify data) in *.
  set (key := JsText.encode secret) in *.
  split.
  - unfold signState. cbv zeta. fold encoded.
    now rewrite (importKey_long secret Hsecret).
  - unfold verifyAndDecodeState.
    assert (Hdot : Forall (fun c => c <> "."%char) (JsString.chars encoded)).
    { eapply Forall_impl; [|exact (encodeState_chars JSON_stringify data)].
      intros c Hc.
      now destruct (urlSafe_cookie_chars c Hc) as (_ & _ & ?). }
    change (signData hmac key encoded ++ "." ++ encoded)%string
      with (signData hmac key encoded ++ String "." encoded)%string.
    rewrite (split_once "." _ _ (state_token_chars hmac key encoded) Hdot).
    rewrite (importKey_long secret Hsecret). fold key.
    rewrite (verifySignature_signData hmac key encoded Hlen).
    unfold decodeState. cbv zeta.
    change (Base64.atob
              (padToMultipleOf4
                 3 (JsString.replaceChar
                      "_" "/" (JsString.replaceChar "-" "+" encoded))))
      with (urlSafeBase64Decode encoded).
    unfold encoded. rewrite encodeState_urlSafe, urlSafeBase64Decode_encode.
    rewrite chars_fromCharCode, Hdecode, Hparse. reflexivity.
Qed.

Lemma state_round_trip_witness :
  verifyAndDecodeState
    Examples.toyHmac parseStringArray Examples.utf8Decode
    (signData Examples.toyHmac (JsText.encode Examples.secret32)
              (encodeState Examples.stringifyStrings Examples.stateData)
     ++ "."
     ++ encodeState Examples.stringifyStrings Examples.stateData)%string
    Examples.secret32
  = Returns Examples.stateData.
Proof.
  apply (state_round_trip
           Examples.toyHmac Examples.stringifyStrings parseStringArray
           Examples.utf8Decode Examples.stateData Examples.secret32).
  - vm_compute. lia.
  - reflexivity.
  - apply utf8Decode_encode.
  - reflexivity.
Defined.

(** [verifyAndDecodeState] returns data only for a token it can check: the
    token has exactly one dot, before it 64 hexadecimal digits that spell
    the HMAC, under a secret of at least 32 bytes, of the text after the
    dot, and that text decodes to bytes whose text parses to the data
    returned.  A token without a dot, or with more than one, is refused as
    badly formed before the secret is looked at. *)
Theorem state_requires_valid_signature
        (hmac : list ascii -> list ascii -> list ascii)
        (JSON_parse : string -> option Js.json)
        (decode : list ascii -> string)
        (signedState secret : string) (data : Js.json) :
  verifyAndDecodeState hmac JSON_parse decode signedState secret
  = Returns data ->
  (32 <= List.length (JsText.encode secret))%nat
  /\ (exists signatureHex encoded binaryString,
         JsText.split "." signedState = [signatureHex; encoded]
         /\ String.length signatureHex = 64%nat
         /\ Hex.test signatureHex = true
         /\ map (fun byte => Hex.toUint8 (Hex.parseInt byte))
                (Hex.pairs signatureHex)
            = hmac (JsText.encode secret) (JsText.encode encoded)
         /\ urlSafeBase64Decode encoded = Some binaryString
         /\ JSON_parse (decode (JsString.chars binaryString)) = Some data)
  /\ forall other anySecret,
      List.length (JsText.split "." other) <> 2%nat ->
      verifyAndDecodeState hmac JSON_parse decode other anySecret
      = Throws "Invalid state format".
Proof.
  intros Hret. split; [|split].
  - unfold verifyAndDecodeState in Hret.
    destruct (JsText.split "." signedState) as [|s [|e [|x xs]]];
      try discriminate.
    destruct (importKey secret) as [key|] eqn:Hkey; [|discriminate].
    now apply importKey_returns in Hkey.
  - unfold verifyAndDecodeState in Hret.
    destruct (JsText.split "." signedState)
      as [|signatureHex [|encoded [|x xs]]]; try discriminate.
    destruct (importKey secret) as [key|] eqn:Hkey; [|discriminate].
    apply importKey_returns in Hkey. destruct Hkey as [-> _].
    destruct (verifySignature hmac _ signatureHex encoded) eqn:Hver;
      [|discriminate].
    apply verifySignature_true in Hver. destruct Hver as (H64 & Htest & Hmac).
    unfold decodeState in Hret. cbv zeta in Hret.
    change (Base64.atob
              (padToMultipleOf4
                 3 (JsString.replaceChar
                      "_" "/" (JsString.replaceChar "-" "+" encoded))))
      with (urlSafeBase64Decode encoded) in Hret.
    destruct (urlSafeBase64Decode encoded) as [binaryString|] eqn:Hdec;
      [|discriminate].
    destruct (JSON_parse (decode (JsString.chars binaryString))) as [v|] eqn:Hp;
      [|discriminate].
    injection Hret as ->.
    exists signatureHex, encoded, binaryString. repeat split; auto.
  - intros other anySecret Hparts. unfold verifyAndDecodeState.
    destruct (JsText.split "." other) as [|s [|e [|x xs]]];
      try reflexivity.
    exfalso. apply Hparts. reflexivity.
Qed.

Lemma state_requires_valid_signature_witness :
  verifyAndDecodeState
    Examples.toyHmac parseStringArray Examples.utf8Decode
    "abababababababababababababababababababababababababababababababab.WyJjMSIsImMyIl0"
    Examples.secret32
  = Returns (Js.JArray [Js.JString "c1"; Js.JString "c2"])
  /\ (32 <= List.length (JsText.encode Examples.secret32))%nat.
Proof.
  split; [reflexivity|].
  exact (proj1 (state_requires_valid_signature
                  Examples.toyHmac parseStringArray Examples.utf8Decode
                  "abababababababababababababababababababababababababababababababab.WyJjMSIsImMyIl0"
                  Examples.secret32 _ eq_refl)).
Defined.
